(** * Waffle: the master's coordination core

    A shallow embedding of the master of the waffle BSP engine
    (registration, partition assignment, barrier, phase execution, failure
    purge and the compute loop) and of [VertexBase.removeOutEdge], together
    with the properties of the specification checked against them.

    Conventions.
    - Go's [uint64] and [int64]/[int] values are integers in [Z]; every
      arithmetic operation of the source writes its wrap-around out
      ([GoInt.uint64], [GoInt.int64]).  [int] is taken to be 64 bits wide.
    - Go maps are [gmap]s; a map used as a set is a [gset].  The order in which
      [range] visits a map is not specified by Go: wherever the order can be
      observed it is an input of the model.
    - The driver (the goroutine running [Run]) is modelled sequentially.  What
      the other goroutines do reaches it at three places only: the
      registrations served while it sleeps in [registerWorkers], the entries
      it receives on [barrierCh], and the [failed] flags it reads when it
      purges the pool.  All three are inputs, kept in [World].
    - The other goroutines ([RegisterWorker], the heartbeat [ekg] and the
      [markWorkerFailed] it calls) take the pool lock as they find it
      ([lockState]): [markWorkerFailed] sends on the unbuffered [barrierCh]
      with the lock held, so the lock stays taken until the driver receives
      the entry.  The driver's own steps are stated from the point where it
      holds the lock. *)

From Stdlib Require Import ZArith Lia Ascii String.
From stdpp Require Import base gmap sets list strings.

(** ** Machine integers *)

Module GoInt.

Definition two64 : Z := 2 ^ 64.
Definition two63 : Z := 2 ^ 63.

(** Conversion to [uint64], and the result of [uint64] arithmetic. *)
Definition uint64 (z : Z) : Z := z mod two64.

(** Conversion to [int64] (and to [int]), two's complement. *)
Definition int64 (z : Z) : Z := (z + two63) mod two64 - two63.

Definition is_uint64 (z : Z) : Prop := (0 ≤ z < two64)%Z.
Definition is_int64 (z : Z) : Prop := (- two63 ≤ z < two63)%Z.

End GoInt.

(** ** Data model *)

(** A Go [error] is represented by its message: [errors.New s] is [s]. *)
Definition error : Type := string.

Record MasterConfig := mkMasterConfig {
  MinWorkers : Z;              (* uint64 *)
  RegisterWait : Z;            (* int64 *)
  MinPartitionsPerWorker : Z;  (* uint64 *)
  HeartbeatInterval : Z;       (* int64 *)
  MaxSteps : Z;                (* uint64 *)
  JobId : string;
  StartStep : Z;               (* uint64 *)
  LoadPaths : list string
}.

Record phaseInfo := mkPhaseInfo {
  activeVerts : Z;
  numVerts : Z;
  sentMsgs : Z;
  lostWorkers : list string;
  errors : list error
}.

Definition newPhaseInfo : phaseInfo :=
  {| activeVerts := 0; numVerts := 0; sentMsgs := 0;
     lostWorkers := []; errors := [] |}.

Record jobInfo := mkJobInfo {
  j_phaseInfo : phaseInfo;
  canRegister : bool;
  lastCheckpoint : Z;
  totalSentMsgs : Z;
  startTime : Z;
  endTime : Z;
  superstep : Z
}.

(** [heartbeatCh] only stops the heartbeat goroutine and is left out. *)
Record workerInfo := mkWorkerInfo {
  host : string;
  port : string;
  failed : bool;
  errorMsg : string;
  lastHeartbeat : Z
}.

(** Modelled from the spec: the declaration of [PhaseSummary] is not among the
    sources; section 6 of the specification lists its fields, and the barrier
    reads [WorkerId], [ActiveVerts], [NumVerts], [SentMsgs] and [Errors]. *)
Record PhaseSummary := mkPhaseSummary {
  WorkerId : string;
  SummaryJobId : string;
  SummaryPhaseId : Z;
  ActiveVerts : Z;
  NumVerts : Z;
  SentMsgs : Z;
  Errors : list error
}.

Record barrierRemove := mkBarrierRemove {
  hostPort : string;
  removeError : option error
}.

(** The two implementations of the interface [barrierEntry]. *)
Inductive barrierEntry :=
  | Summary (entry : PhaseSummary)
  | Remove (entry : barrierRemove).

(** [barrierRemove.worker] is in the source.  Modelled from the spec:
    [PhaseSummary.worker] is not; a summary is "reported by a worker", so it
    answers the summary's [WorkerId]. *)
Definition worker (e : barrierEntry) : string :=
  match e with
  | Summary ps => WorkerId ps
  | Remove r => hostPort r
  end.

Record PhaseExec := mkPhaseExec {
  PhaseId : Z;
  ExecJobId : string;
  Superstep : Z;
  ExecNumVerts : Z;
  Checkpoint : bool
}.

(** The one method of the [Persister] interface the master calls; [None] is
    Go's [nil] error. *)
Record Persister := mkPersister {
  PersistMaster : Z → gmap Z string → option error
}.

Record Master := mkMaster {
  Config : MasterConfig;
  m_jobInfo : jobInfo;
  workerPool : gmap string workerInfo;
  partitionMap : gmap Z string;
  phase : Z;
  checkpointFn : Z → bool;
  persister : Persister
}.

(** Modelled from the spec: the phase constants are declared outside the
    sources; they are numbered in the order of the specification's phase
    table. *)
Definition PHASE_LOAD_DATA : Z := 2.
Definition PHASE_LOAD_PERSISTED : Z := 3.
Definition PHASE_DISTRIBUTE_VERTICES : Z := 4.
Definition PHASE_RECOVER : Z := 5.
Definition PHASE_STEP_PREPARE : Z := 6.
Definition PHASE_SUPERSTEP : Z := 7.
Definition PHASE_WRITE_RESULTS : Z := 8.

(** *** Field updates *)

Definition set_lostWorkers (l : list string) (i : phaseInfo) : phaseInfo :=
  {| activeVerts := activeVerts i; numVerts := numVerts i;
     sentMsgs := sentMsgs i; lostWorkers := l; errors := errors i |}.

Definition set_phaseInfo (p : phaseInfo) (j : jobInfo) : jobInfo :=
  {| j_phaseInfo := p; canRegister := canRegister j;
     lastCheckpoint := lastCheckpoint j; totalSentMsgs := totalSentMsgs j;
     startTime := startTime j; endTime := endTime j;
     superstep := superstep j |}.

Definition set_canRegister (b : bool) (j : jobInfo) : jobInfo :=
  {| j_phaseInfo := j_phaseInfo j; canRegister := b;
     lastCheckpoint := lastCheckpoint j; totalSentMsgs := totalSentMsgs j;
     startTime := startTime j; endTime := endTime j;
     superstep := superstep j |}.

Definition set_totalSentMsgs (n : Z) (j : jobInfo) : jobInfo :=
  {| j_phaseInfo := j_phaseInfo j; canRegister := canRegister j;
     lastCheckpoint := lastCheckpoint j; totalSentMsgs := n;
     startTime := startTime j; endTime := endTime j;
     superstep := superstep j |}.

Definition set_superstep (n : Z) (j : jobInfo) : jobInfo :=
  {| j_phaseInfo := j_phaseInfo j; canRegister := canRegister j;
     lastCheckpoint := lastCheckpoint j; totalSentMsgs := totalSentMsgs j;
     startTime := startTime j; endTime := endTime j;
     superstep := n |}.

Definition set_failed (msg : string) (i : workerInfo) : workerInfo :=
  {| host := host i; port := port i; failed := true; errorMsg := msg;
     lastHeartbeat := lastHeartbeat i |}.

Definition set_jobInfo (j : jobInfo) (m : Master) : Master :=
  {| Config := Config m; m_jobInfo := j; workerPool := workerPool m;
     partitionMap := partitionMap m; phase := phase m;
     checkpointFn := checkpointFn m; persister := persister m |}.

Definition set_workerPool (p : gmap string workerInfo) (m : Master) : Master :=
  {| Config := Config m; m_jobInfo := m_jobInfo m; workerPool := p;
     partitionMap := partitionMap m; phase := phase m;
     checkpointFn := checkpointFn m; persister := persister m |}.

Definition set_partitionMap (p : gmap Z string) (m : Master) : Master :=
  {| Config := Config m; m_jobInfo := m_jobInfo m; workerPool := workerPool m;
     partitionMap := p; phase := phase m;
     checkpointFn := checkpointFn m; persister := persister m |}.

Definition set_phase (p : Z) (m : Master) : Master :=
  {| Config := Config m; m_jobInfo := m_jobInfo m; workerPool := workerPool m;
     partitionMap := partitionMap m; phase := p;
     checkpointFn := checkpointFn m; persister := persister m |}.

(** ** The barrier *)

(** [collectSummaryInfo]: the three counters are [uint64] sums. *)
Definition collectSummaryInfo (info : phaseInfo) (ps : PhaseSummary) : phaseInfo :=
  {| activeVerts := GoInt.uint64 (activeVerts info + ActiveVerts ps);
     numVerts := GoInt.uint64 (numVerts info + NumVerts ps);
     sentMsgs := GoInt.uint64 (sentMsgs info + SentMsgs ps);
     lostWorkers := lostWorkers info;
     errors := errors info ++ Errors ps |}.

(** What the driver has when it stops looking at the channel: the barrier has
    closed (with the entries it did not receive), or the entries have run out
    and it waits on the channel for ever. *)
Inductive barrierResult :=
  | Closed (info : phaseInfo) (rest : list barrierEntry)
  | Waiting (outstanding : gset string) (info : phaseInfo).

(** The [switch] of the loop body, for an entry whose worker is in the map. *)
Definition barrierSwitch (barrier : gset string) (info : phaseInfo)
    (e : barrierEntry) : gset string * phaseInfo :=
  match e with
  | Summary entry =>
      (barrier ∖ {[WorkerId entry]}, collectSummaryInfo info entry)
  | Remove entry =>
      (barrier ∖ {[hostPort entry]},
       set_lostWorkers (lostWorkers info ++ [hostPort entry]) info)
  end.

(** [for e := range ch { ... }], on the entries [ch] delivers in order. *)
Fixpoint barrierLoop (barrier : gset string) (info : phaseInfo)
    (ch : list barrierEntry) : barrierResult :=
  match ch with
  | [] => Waiting barrier info
  | e :: ch' =>
      if decide (worker e ∈ barrier) then
        let '(barrier', info') := barrierSwitch barrier info e in
        if decide (size barrier' = 0) then Closed info' ch'
        else barrierLoop barrier' info' ch'
      else barrierLoop barrier info ch'
  end.

Definition barrier (pool : gmap string workerInfo) (ch : list barrierEntry)
    (info : phaseInfo) : barrierResult :=
  let barrier : gset string := dom pool in
  if decide (size barrier = 0) then Closed info ch
  else barrierLoop barrier info ch.

(** ** The driver and its environment *)

(** What the driver does to the outside, in order. *)
Inductive action :=
  | GoEkg (hp : string)
      (* [go m.ekg(...)]: a heartbeat goroutine is started for [hp] *)
  | RpcExecutePhase (targets : gset string) (exec : PhaseExec)
      (* [sendExecToAllWorkers]: one [ExecutePhase] call per worker *)
  | CallPersistMaster (step : Z) (pmap : gmap Z string).
      (* [m.persister.PersistMaster(step, pmap)] *)

(** What reaches the driver from the other goroutines.
    - [barrierCh]: the entries the driver will receive on the barrier channel,
      in the order of receipt (sent by [EnterBarrier] and [markWorkerFailed]).
    - [failures]: for each time the driver takes [poolLock], the calls
      [markWorkerFailed(hostPort, message)] that have updated the pool since
      it last held the lock (and have let go of the lock, their entries
      received).
    - [registrations]: for each second the driver sleeps in [registerWorkers],
      the calls [RegisterWorker(host, port)] served meanwhile, that is those
      that got the pool lock.
    - [ranges]: for each [range m.workerPool] whose order shows, the order Go
      chose.
    - [trace]: the actions so far, oldest first. *)
Record World := mkWorld {
  barrierCh : list barrierEntry;
  failures : list (list (string * string));
  registrations : list (list (string * string));
  ranges : list (list string);
  trace : list action
}.

Definition set_barrierCh (c : list barrierEntry) (w : World) : World :=
  {| barrierCh := c; failures := failures w;
     registrations := registrations w; ranges := ranges w; trace := trace w |}.

Definition set_failures (f : list (list (string * string))) (w : World) : World :=
  {| barrierCh := barrierCh w; failures := f;
     registrations := registrations w; ranges := ranges w; trace := trace w |}.

Definition set_registrations (r : list (list (string * string))) (w : World) : World :=
  {| barrierCh := barrierCh w; failures := failures w;
     registrations := r; ranges := ranges w; trace := trace w |}.

Definition set_ranges (r : list (list string)) (w : World) : World :=
  {| barrierCh := barrierCh w; failures := failures w;
     registrations := registrations w; ranges := r; trace := trace w |}.

Definition set_trace (t : list action) (w : World) : World :=
  {| barrierCh := barrierCh w; failures := failures w;
     registrations := registrations w; ranges := ranges w; trace := t |}.

(** How a piece of code ends: it returns; it panics (nothing in the sources
    recovers); it waits, on the barrier channel or for the pool lock, and
    nothing lets it go on; or the fuel of a loop that need not terminate has
    run out while it was still going. *)
Inductive outcome (A : Type) :=
  | Ret (a : A) (m : Master) (w : World)
  | Panic (msg : string) (m : Master) (w : World)
  | Blocked (m : Master) (w : World)
  | Running (m : Master) (w : World).
Arguments Ret {A} a m w.
Arguments Panic {A} msg m w.
Arguments Blocked {A} m w.
Arguments Running {A} m w.

Definition M (A : Type) : Type := Master → World → outcome A.

#[global] Instance M_ret : MRet M := λ A a m w, Ret a m w.
#[global] Instance M_bind : MBind M := λ A B k c m w,
  match c m w with
  | Ret a m' w' => k a m' w'
  | Panic msg m' w' => Panic msg m' w'
  | Blocked m' w' => Blocked m' w'
  | Running m' w' => Running m' w'
  end.

Definition getM : M Master := λ m w, Ret m m w.
Definition modifyM (f : Master → Master) : M unit := λ m w, Ret tt (f m) w.
Definition emit (a : action) : M unit :=
  λ m w, Ret tt m (set_trace (trace w ++ [a]) w).
Definition panic {A} (msg : string) : M A := λ m w, Panic msg m w.
Definition running {A} : M A := λ m w, Running m w.

(** [range m.workerPool]: the keys, each once, in an order of Go's choosing.
    The order is read from [ranges]; an entry that is not an arrangement of
    the keys (or a missing one) stands for the order of [map_to_list]. *)
Definition rangeWorkerPool : M (list string) := λ m w,
  let keys := (map_to_list (workerPool m)).*1 in
  match ranges w with
  | [] => Ret keys m w
  | o :: rest =>
      Ret (if decide (o ≡ₚ keys) then o else keys) m (set_ranges rest w)
  end.

(** [net.JoinHostPort] of Go's library: a host with a colon is bracketed. *)
Fixpoint hasColon (s : string) : bool :=
  match s with
  | EmptyString => false
  | String c s' => if decide (c = ":"%char) then true else hasColon s'
  end.

Definition JoinHostPort (h p : string) : string :=
  if hasColon h then "[" +:+ h +:+ "]:" +:+ p else h +:+ ":" +:+ p.

(** [markWorkerFailed] once it has the lock: the new state and the entry it
    then sends on [barrierCh], if any.  It lets go of the lock only when the
    entry has been received ([markWorkerFailed_in] below). *)
Definition markWorkerFailed (hp message : string) (m : Master)
    : Master * option barrierEntry :=
  match workerPool m !! hp with
  | Some info =>
      (set_workerPool (<[hp := set_failed message info]> (workerPool m)) m,
       Some (Remove {| hostPort := hp; removeError := None |}))
  | None => (m, None)
  end.

(** [m.poolLock.Lock()] in the driver, from the point where it has the
    lock: the pool updates other goroutines made under the lock become
    visible. *)
Definition poolLock_Lock : M unit := λ m w,
  match failures w with
  | [] => Ret tt m w
  | marks :: rest =>
      Ret tt (foldl (λ m' '(hp, msg), (markWorkerFailed hp msg m').1) m marks)
          (set_failures rest w)
  end.

(** *** The pool lock as the other goroutines find it *)

(** [m.poolLock] when a goroutine other than the driver asks for it: free,
    or held by a [markWorkerFailed] for [hp] that is in its send on
    [barrierCh]. *)
Inductive lockState :=
  | Unlocked
  | HeldByMarker (hp : string).

#[global] Instance lockState_eq_dec : EqDecision lockState.
Proof. solve_decision. Defined.

(** [m.poolLock.Lock()] in such a goroutine. *)
Definition poolLock_acquire (l : lockState) : M unit := λ m w,
  match l with
  | Unlocked => Ret tt m w
  | HeldByMarker _ => Blocked m w
  end.



(** *** Registration *)

(** [RegisterWorker] is run by the goroutine of the RPC call: it waits for
    the pool lock first.  [go m.ekg(...)] is recorded in the trace; what the
    heartbeat then does is [ekg] above. *)
Definition RegisterWorker (l : lockState) (h p : string)
    : M (string * option error) :=
  poolLock_acquire l;;
  m ← getM;
  if negb (canRegister (m_jobInfo m)) then
    mret (""%string, Some "Registration is not open"%string)
  else
    let hp := JoinHostPort h p in
    match workerPool m !! hp with
    | Some _ => mret (JobId (Config m), None)
    | None =>
        modifyM (set_workerPool
          (<[hp := {| host := h; port := p; failed := false;
                      errorMsg := ""; lastHeartbeat := 0 |}]> (workerPool m)));;
        emit (GoEkg hp);;
        mret (JobId (Config m), None)
    end.

(** [<-time.After(1 * 1e9)]: one second passes, in which the master serves
    the next batch of registration calls, each with the lock. *)
Fixpoint serve (calls : list (string * string)) : M unit :=
  match calls with
  | [] => mret tt
  | (h, p) :: calls' => RegisterWorker Unlocked h p;; serve calls'
  end.

Definition sleepOneSecond : M unit := λ m w,
  match registrations w with
  | [] => Ret tt m w
  | calls :: rest => serve calls m (set_registrations rest w)
  end.

(** The condition of the waiting loop; [timer] is an [int]. *)
Definition stillWaiting (m : Master) (timer : Z) : Prop :=
  ((0 < MinWorkers (Config m) ∧
    GoInt.uint64 (Z.of_nat (size (workerPool m))) < MinWorkers (Config m)) ∨
   (0 < RegisterWait (Config m) ∧
    GoInt.int64 timer < RegisterWait (Config m)))%Z.

#[global] Instance stillWaiting_dec m timer : Decision (stillWaiting m timer).
Proof. unfold stillWaiting. apply _. Defined.

Fixpoint registerLoop (fuel : nat) (timer : Z) : M unit :=
  match fuel with
  | O => running
  | S fuel' =>
      m ← getM;
      if decide (stillWaiting m timer) then
        sleepOneSecond;;
        registerLoop fuel' (GoInt.int64 (timer + 1 * 10 ^ 9))
      else mret tt
  end.

(** The test after the window has closed. *)
Definition notEnoughWorkers (m : Master) : Prop :=
  size (workerPool m) = 0 ∨
  ((GoInt.uint64 (Z.of_nat (size (workerPool m))) < MinWorkers (Config m))%Z ∧
   (0 < RegisterWait (Config m))%Z).

#[global] Instance notEnoughWorkers_dec m : Decision (notEnoughWorkers m).
Proof. unfold notEnoughWorkers. apply _. Defined.

Definition registerWorkers (fuel : nat) : M (option error) :=
  modifyM (set_workerPool ∅);;
  modifyM (λ m, set_jobInfo (set_canRegister true (m_jobInfo m)) m);;
  registerLoop fuel 0;;
  modifyM (λ m, set_jobInfo (set_canRegister false (m_jobInfo m)) m);;
  m ← getM;
  if decide (notEnoughWorkers m) then
    mret (Some "Not enough workers registered"%string)
  else mret None.

(** *** Partition assignment *)

(** One pass of the inner loop: [m.partitionMap[uint64(p)] = hostPort; p++]
    for each worker in the order of the [range]; [p] is an [int]. *)
Fixpoint assignPass (order : list string) (p : Z) (pmap : gmap Z string)
    : Z * gmap Z string :=
  match order with
  | [] => (p, pmap)
  | hp :: order' =>
      assignPass order' (GoInt.int64 (p + 1)) (<[GoInt.uint64 p := hp]> pmap)
  end.

(** The outer loop, [passes] more times; every pass ranges over the pool
    anew. *)
Fixpoint assignPasses (passes : nat) (p : Z) : M unit :=
  match passes with
  | O => mret tt
  | S passes' =>
      order ← rangeWorkerPool;
      m ← getM;
      let '(p', pmap) := assignPass order p (partitionMap m) in
      modifyM (set_partitionMap pmap);;
      assignPasses passes' p'
  end.

(** [for i := 0; i < int(m.Config.MinPartitionsPerWorker); i++]: the bound is
    converted to [int] first, so the body runs that many times when the
    converted bound is positive and not at all otherwise. *)
Definition determinePartitions : M unit :=
  modifyM (set_partitionMap ∅);;
  m ← getM;
  assignPasses (Z.to_nat (GoInt.int64 (MinPartitionsPerWorker (Config m)))) 0.

(** *** Failure purge *)

(** The first loop of [purgeFailedWorkers].  A worker deleted from the map is
    not visited later; here only the worker being visited is ever deleted. *)
Fixpoint purgeScan (order : list string) (failedWorkers : list workerInfo)
    (pool : gmap string workerInfo)
    : list workerInfo * gmap string workerInfo :=
  match order with
  | [] => (failedWorkers, pool)
  | hp :: order' =>
      match pool !! hp with
      | Some info =>
          if failed info then
            purgeScan order' (failedWorkers ++ [info]) (delete hp pool)
          else purgeScan order' failedWorkers pool
      | None => purgeScan order' failedWorkers pool
      end
  end.

(** The first loop of [movePartitions]: the first worker met that is not
    [moveId]; the zero value of [string] when there is none. *)
Fixpoint pickNewOwner (order : list string) (moveId : string) : string :=
  match order with
  | [] => ""
  | hp :: order' => if decide (hp ≠ moveId) then hp else pickNewOwner order' moveId
  end.

(** The second loop rewrites the owner of every partition of [moveId]; it
    only assigns to keys that exist, so each entry is visited once whatever
    the order. *)
Definition movePartitions (moveId : string) : M (option error) :=
  order ← rangeWorkerPool;
  let newOwner := pickNewOwner order moveId in
  modifyM (λ m, set_partitionMap
    ((λ wid, if decide (wid = moveId) then newOwner else wid) <$> partitionMap m) m);;
  mret None.

Fixpoint moveAll (failedWorkers : list workerInfo) : M (option error) :=
  match failedWorkers with
  | [] => mret None
  | info :: rest =>
      err ← movePartitions (JoinHostPort (host info) (port info));
      match err with
      | Some e => mret (Some e)
      | None => moveAll rest
      end
  end.

Definition purgeFailedWorkers : M (option error) :=
  poolLock_Lock;;
  order ← rangeWorkerPool;
  m ← getM;
  let '(failedWorkers, pool) := purgeScan order [] (workerPool m) in
  modifyM (set_workerPool pool);;
  if decide (size pool = 0) then mret (Some "no workers left"%string)
  else moveAll failedWorkers.

(** *** Phase execution *)

Definition newPhaseExec (phaseId : Z) (m : Master) : PhaseExec :=
  {| PhaseId := phaseId;
     ExecJobId := JobId (Config m);
     Superstep := superstep (m_jobInfo m);
     ExecNumVerts := numVerts (j_phaseInfo (m_jobInfo m));
     Checkpoint := checkpointFn m (superstep (m_jobInfo m)) |}.

(** The calls are made from goroutines of their own; a call that fails ends
    in [markWorkerFailed], which the driver sees through [World]. *)
Definition sendExecToAllWorkers (exec : PhaseExec) : M unit :=
  m ← getM;
  emit (RpcExecutePhase (dom (workerPool m)) exec).

(** [m.barrier(m.barrierCh, info)] as the driver runs it. *)
Definition awaitBarrier (info : phaseInfo) : M phaseInfo := λ m w,
  match barrier (workerPool m) (barrierCh w) info with
  | Closed info' rest => Ret info' m (set_barrierCh rest w)
  | Waiting _ _ => Blocked m (set_barrierCh [] w)
  end.

Definition commitPhaseInfo (info : phaseInfo) (m : Master) : Master :=
  let j := m_jobInfo m in
  let j1 := set_phaseInfo
    {| activeVerts := activeVerts info; numVerts := numVerts info;
       sentMsgs := sentMsgs info;
       lostWorkers := lostWorkers (j_phaseInfo j);
       errors := errors (j_phaseInfo j) |} j in
  set_jobInfo
    (set_totalSentMsgs
       (GoInt.uint64 (totalSentMsgs j1 + sentMsgs (j_phaseInfo j1))) j1) m.

(** The errors of a phase: one per lost worker (its host and port as the
    message), then those the workers reported. *)
Definition collectPhaseErrors (info : phaseInfo) : list error :=
  let phaseErrors := [] in
  let phaseErrors :=
    if decide (0 < length (lostWorkers info))
    then phaseErrors ++ lostWorkers info else phaseErrors in
  if decide (0 < length (errors info))
  then phaseErrors ++ errors info else phaseErrors.

Definition executePhase (phaseId : Z) : M (list error) :=
  err ← purgeFailedWorkers;
  match err with
  | Some e => mret [e]
  | None =>
      modifyM (set_phase phaseId);;
      let info := newPhaseInfo in
      m ← getM;
      let exec := newPhaseExec phaseId m in
      sendExecToAllWorkers exec;;
      info ← awaitBarrier info;
      let phaseErrors := collectPhaseErrors info in
      if decide (0 < length phaseErrors) then
        panic "phase errors"   (* the [return phaseErrors] after it is dead *)
      else
        modifyM (commitPhaseInfo info);;
        mret []
  end.

(** *** The compute loop *)

Definition workLeft (m : Master) : Prop :=
  (0 < activeVerts (j_phaseInfo (m_jobInfo m)) ∨
   0 < sentMsgs (j_phaseInfo (m_jobInfo m)))%Z.

Definition hitMaxSteps (m : Master) : Prop :=
  (0 < MaxSteps (Config m) ∧
   ¬ superstep (m_jobInfo m) < MaxSteps (Config m))%Z.

#[global] Instance workLeft_dec m : Decision (workLeft m).
Proof. unfold workLeft. apply _. Defined.
#[global] Instance hitMaxSteps_dec m : Decision (hitMaxSteps m).
Proof. unfold hitMaxSteps. apply _. Defined.

Definition persistMaster : M (option error) :=
  m ← getM;
  emit (CallPersistMaster (superstep (m_jobInfo m)) (partitionMap m));;
  mret (PersistMaster (persister m) (superstep (m_jobInfo m)) (partitionMap m)).

(** The body of the loop: the two phases of a superstep, then the master's
    own checkpoint when [checkpointFn] asks for one.  The results of the two
    [executePhase] calls are dropped, as in the source; the result of the body
    is the error of [PersistMaster], if any. *)
Definition superstepBody : M (option error) :=
  executePhase PHASE_STEP_PREPARE;;
  executePhase PHASE_SUPERSTEP;;
  m ← getM;
  if checkpointFn m (superstep (m_jobInfo m)) then persistMaster
  else mret None.

(** [m.jobInfo.superstep++] *)
Definition nextSuperstep : M unit :=
  modifyM (λ m, set_jobInfo
    (set_superstep (GoInt.uint64 (superstep (m_jobInfo m) + 1))
       (m_jobInfo m)) m).

(** The [for] statement from its condition on; [fuel] bounds the number of
    times the condition is evaluated. *)
Fixpoint computeLoop (fuel : nat) : M (option error) :=
  match fuel with
  | O => running
  | S fuel' =>
      m ← getM;
      if decide (workLeft m) then
        if decide (hitMaxSteps m) then mret None   (* [break] *)
        else
          err ← superstepBody;
          match err with
          | Some e => mret (Some e)                (* [return err] *)
          | None => nextSuperstep;; computeLoop fuel'
          end
      else mret None
  end.

Definition compute (fuel : nat) : M (option error) :=
  modifyM (λ m, set_jobInfo (set_superstep 0 (m_jobInfo m)) m);;
  computeLoop fuel.

(** ** The earlier master

    The sources hold an earlier state of the master as well: its barrier
    receives summaries only and counts them against [workerMap], and its
    [executePhase] records the last checkpoint.  Only what those two functions
    touch is kept. *)

Module Legacy.

(** [PhaseSummary.Error] is either a [*RecoverableError] or something
    else. *)
Inductive phaseError :=
  | RecoverableError (msg : string)
  | OtherError (msg : string).

(** Modelled from the spec: the declaration of [PhaseSummary] is not among
    the sources; these are the fields the earlier barrier reads. *)
Record PhaseSummary := mkPhaseSummary {
  WorkerId : string;
  JobId : string;
  PhaseId : Z;
  ActiveVerts : Z;
  NumVerts : Z;
  SentMsgs : Z;
  Error : option phaseError
}.

Record jobInfo := mkJobInfo {
  canRegister : bool;
  lastCheckpoint : Z;
  activeVerts : Z;
  numVerts : Z;
  sentMsgs : Z;
  totalSentMsgs : Z
}.

(** [workerMap] and [partitionMap] belong to the embedded [node]. *)
Record Master := mkMaster {
  ConfigJobId : string;                 (* [m.Config.JobId] *)
  recoveryErrors : list phaseError;     (* [m.recoveryInfo.errors] *)
  m_jobInfo : jobInfo;
  currPhase : Z;
  superstep : Z;
  workerMap : gmap string string;
  partitionMap : gmap Z string;
  failedWorkers : list string;          (* [m.pStatus.failedWorkers] *)
  checkpointFn : Z → bool
}.

(** Modelled from the spec: the constant is declared outside the sources. *)
Definition phaseSUPERSTEP : Z := 7.

Definition set_jobInfo (j : jobInfo) (m : Master) : Master :=
  {| ConfigJobId := ConfigJobId m; recoveryErrors := recoveryErrors m;
     m_jobInfo := j; currPhase := currPhase m; superstep := superstep m;
     workerMap := workerMap m; partitionMap := partitionMap m;
     failedWorkers := failedWorkers m; checkpointFn := checkpointFn m |}.

Definition set_recoveryErrors (l : list phaseError) (m : Master) : Master :=
  {| ConfigJobId := ConfigJobId m; recoveryErrors := l;
     m_jobInfo := m_jobInfo m; currPhase := currPhase m;
     superstep := superstep m;
     workerMap := workerMap m; partitionMap := partitionMap m;
     failedWorkers := failedWorkers m; checkpointFn := checkpointFn m |}.

Definition set_currPhase (p : Z) (m : Master) : Master :=
  {| ConfigJobId := ConfigJobId m; recoveryErrors := recoveryErrors m;
     m_jobInfo := m_jobInfo m; currPhase := p; superstep := superstep m;
     workerMap := workerMap m; partitionMap := partitionMap m;
     failedWorkers := failedWorkers m; checkpointFn := checkpointFn m |}.

Definition set_workerMap (wm : gmap string string) (m : Master) : Master :=
  {| ConfigJobId := ConfigJobId m; recoveryErrors := recoveryErrors m;
     m_jobInfo := m_jobInfo m; currPhase := currPhase m;
     superstep := superstep m;
     workerMap := wm; partitionMap := partitionMap m;
     failedWorkers := failedWorkers m; checkpointFn := checkpointFn m |}.

Definition set_partitionMap (pm : gmap Z string) (m : Master) : Master :=
  {| ConfigJobId := ConfigJobId m; recoveryErrors := recoveryErrors m;
     m_jobInfo := m_jobInfo m; currPhase := currPhase m;
     superstep := superstep m;
     workerMap := workerMap m; partitionMap := pm;
     failedWorkers := failedWorkers m; checkpointFn := checkpointFn m |}.

(** How a call ends: it returns; [log.Fatalf] ends the process; it panics;
    or it waits on the channel for ever. *)
Inductive result (A : Type) :=
  | Done (a : A)
  | Fatal (msg : string)
  | Panicked (msg : string)
  | Stuck.
Arguments Done {A} a.
Arguments Fatal {A} msg.
Arguments Panicked {A} msg.
Arguments Stuck {A}.

Definition resetJobInfo (m : Master) : Master :=
  let j := m_jobInfo m in
  set_jobInfo
    {| canRegister := canRegister j; lastCheckpoint := lastCheckpoint j;
       activeVerts := 0; numVerts := 0; sentMsgs := 0;
       totalSentMsgs := totalSentMsgs j |} m.

Definition collectSummaryInfo (ps : PhaseSummary) (m : Master) : Master :=
  let j := m_jobInfo m in
  let sent := GoInt.uint64 (sentMsgs j + SentMsgs ps) in
  set_jobInfo
    {| canRegister := canRegister j; lastCheckpoint := lastCheckpoint j;
       activeVerts := GoInt.uint64 (activeVerts j + ActiveVerts ps);
       numVerts := GoInt.uint64 (numVerts j + NumVerts ps);
       sentMsgs := sent;
       totalSentMsgs := GoInt.uint64 (totalSentMsgs j + sent) |} m.

Definition handlePhaseError (e : phaseError) (m : Master) : result Master :=
  match e with
  | RecoverableError _ =>
      Done (set_recoveryErrors (recoveryErrors m ++ [e]) m)
  | OtherError msg => Panicked msg
  end.

Fixpoint barrierLoop (bmap : gset string) (m : Master)
    (ch : list PhaseSummary) : result (Master * list PhaseSummary) :=
  match ch with
  | [] => Stuck
  | ps :: ch' =>
      if decide (ConfigJobId m ≠ JobId ps) then
        Fatal "JobId mismatch in enterBarrier"
      else if decide (currPhase m ≠ PhaseId ps) then
        Fatal "Phase mismatch in enterBarrier"
      else
        match (match Error ps with
               | Some e => handlePhaseError e m
               | None => Done (collectSummaryInfo ps m)
               end) with
        | Done m' =>
            let bmap' := {[WorkerId ps]} ∪ bmap in
            if decide (size bmap' = size (workerMap m')) then Done (m', ch')
            else barrierLoop bmap' m' ch'
        | Fatal msg => Fatal msg
        | Panicked msg => Panicked msg
        | Stuck => Stuck
        end
  end.

Definition barrier (m : Master) (ch : list PhaseSummary)
    : result (Master * list PhaseSummary) :=
  barrierLoop ∅ m ch.

(** [range m.workerMap] in the order [o] when [o] arranges the keys. *)
Definition rangeWorkerMap (o : list string) (m : Master) : list string :=
  let keys := (map_to_list (workerMap m)).*1 in
  if decide (o ≡ₚ keys) then o else keys.

Definition movePartitions (o : list string) (moveId : string) (m : Master)
    : Master :=
  let newOwner := pickNewOwner (rangeWorkerMap o m) moveId in
  set_partitionMap
    ((λ wid, if decide (wid = moveId) then newOwner else wid)
       <$> partitionMap m) m.

Fixpoint moveAll (orders : list (list string)) (wids : list string)
    (m : Master) : Master :=
  match wids with
  | [] => m
  | wid :: wids' =>
      moveAll (tail orders) wids' (movePartitions (default [] (head orders)) wid m)
  end.

(** The result is the error, if any; the argument of the source is not
    used, the list of the phase status is. *)
Definition handleFailedWorkers (orders : list (list string)) (m : Master)
    : Master * option error :=
  let m1 := set_workerMap
    (foldl (λ wm wid, delete wid wm) (workerMap m) (failedWorkers m)) m in
  if decide (size (workerMap m1) = 0) then (m1, Some "no workers left"%string)
  else (moveAll orders (failedWorkers m1) m1, None).

Definition executePhase (orders : list (list string)) (phaseId : Z)
    (m : Master) (ch : list PhaseSummary)
    : result (Master * list PhaseSummary) :=
  let m := set_currPhase phaseId m in
  let m := resetJobInfo m in
  match barrier m ch with
  | Done (m, ch') =>
      if decide (0 < length (failedWorkers m)) then
        match handleFailedWorkers orders m with
        | (_, Some e) => Panicked e
        | (m', None) => Done (m', ch')
        end
      else if decide (currPhase m = phaseSUPERSTEP) then
        if checkpointFn m (superstep m) then
          let j := m_jobInfo m in
          Done (set_jobInfo
                  {| canRegister := canRegister j;
                     lastCheckpoint := superstep m;
                     activeVerts := activeVerts j; numVerts := numVerts j;
                     sentMsgs := sentMsgs j;
                     totalSentMsgs := totalSentMsgs j |} m, ch')
        else Done (m, ch')
      else Done (m, ch')
  | Fatal msg => Fatal msg
  | Panicked msg => Panicked msg
  | Stuck => Stuck
  end.

End Legacy.

(** ** Vertices *)

Module Vertex.

(** Modelled from the spec: the interface [Edge] is declared outside the
    sources; an edge is directed and carries a payload, and
    [removeOutEdge] calls its [Target] method. *)
Record Edge := mkEdge {
  Target : string;
  Payload : Z
}.

(** A Go slice whose first element is the first of its array: the array up
    to the capacity, and the length. *)
Record slice := mkSlice {
  arr : list Edge;
  len : nat
}.
Definition cap (s : slice) : nat := length (arr s).
Definition elems (s : slice) : list Edge := take (len s) (arr s).

Record VertexBase := mkVertexBase {
  Id : string;
  Edges : slice;
  Active : bool
}.

Inductive result (A : Type) :=
  | Done (a : A)
  | Panicked (msg : string).
Arguments Done {A} a.
Arguments Panicked {A} msg.

(** [s[:i]]: allowed up to the capacity. *)
Definition sliceTo (s : slice) (i : nat) : option slice :=
  if decide (i ≤ cap s) then Some {| arr := arr s; len := i |} else None.

(** The elements of [s[i:]]: the upper bound is the length. *)
Definition sliceFrom (s : slice) (i : nat) : option (list Edge) :=
  if decide (i ≤ len s) then Some (drop i (elems s)) else None.

(** [append(s, xs...)]: within the capacity the array of [s] is written in
    place ([true]); beyond it a new array is made ([false]), here of just
    the length needed: how much room beyond that Go gives the new array is
    its own choice, and nothing below depends on it. *)
Definition append (s : slice) (xs : list Edge) : slice * bool :=
  if decide (len s + length xs ≤ cap s) then
    ({| arr := take (len s) (arr s) ++ xs ++
               drop (len s + length xs) (arr s);
        len := len s + length xs |}, true)
  else ({| arr := elems s ++ xs; len := len s + length xs |}, false).

(** [for i, e := range v.Edges]: the slice is evaluated once, so the loop
    runs over the indices of the original length and reads the original
    array ([ranged]) as it is at that moment; writes made in place through
    [v.Edges] land in that array. *)
Fixpoint removeLoop (target : string) (n i : nat) (ranged : list Edge)
    (edges : slice) : result slice :=
  match n with
  | O => Done edges
  | S n' =>
      match ranged !! i with
      | None => Panicked "index out of range"
      | Some e =>
          if decide (Target e = target) then
            match sliceTo edges i, sliceFrom edges (i + 1) with
            | Some front, Some back =>
                let '(edges', inPlace) := append front back in
                removeLoop target n' (S i)
                  (if inPlace then arr edges' else ranged) edges'
            | _, _ => Panicked "slice bounds out of range"
            end
          else removeLoop target n' (S i) ranged edges
      end
  end.

(** A [nil] slice has no elements; the loop then does nothing, as the early
    return. *)
Definition removeOutEdge (target : string) (v : VertexBase)
    : result VertexBase :=
  match removeLoop target (len (Edges v)) 0 (arr (Edges v)) (Edges v) with
  | Done edges => Done {| Id := Id v; Edges := edges; Active := Active v |}
  | Panicked msg => Panicked msg
  end.

(** [OutEdges]. *)
Definition OutEdges (v : VertexBase) : list Edge := elems (Edges v).

(** The slice that fills its array with the edges [l]. *)
Definition fromList (l : list Edge) : slice := {| arr := l; len := length l |}.

(** [AddOutEdge]: a [nil] slice is first made an empty one, which is the same
    slice here; then the edge is appended. *)
Definition AddOutEdge (e : Edge) (v : VertexBase) : VertexBase :=
  {| Id := Id v; Edges := (append (Edges v) [e]).1; Active := Active v |}.

(** [VoteToHalt], [SetActive], [IsActive]. *)
Definition SetActive (active : bool) (v : VertexBase) : VertexBase :=
  {| Id := Id v; Edges := Edges v; Active := active |}.
Definition VoteToHalt (v : VertexBase) : VertexBase := SetActive false v.
Definition IsActive (v : VertexBase) : bool := Active v.

End Vertex.


(** ** More of the later master *)

(** [failedActiveWorkers]: the records marked failed that are still in the
    pool, in the order of the [range]; it takes the pool lock for reading. *)
Definition failedActiveWorkers : M (list workerInfo) :=
  poolLock_Lock;;
  order ← rangeWorkerPool;
  m ← getM;
  mret (foldl (λ failedList hp,
                 match workerPool m !! hp with
                 | Some info =>
                     if failed info then failedList ++ [info] else failedList
                 | None => failedList
                 end) [] order).
(** * Vocabulary of the properties *)

(** Unfolds the monad of the driver. *)
Ltac munfold :=
  unfold mbind, M_bind, mret, M_ret, getM, modifyM, emit, panic, running,
    poolLock_acquire in *.

(** Every worker of [S] has an entry of its own among [es]: a summary it
    delivered or a removal made for it. *)
Definition accounted (S : gset string) (es : list barrierEntry) : Prop :=
  ∀ w, w ∈ S → ∃ e, e ∈ es ∧ worker e = w.

(** What can be told of a barrier without looking at the entries it left on
    the channel: whether it still waits and for whom, and the accumulator. *)
Definition barrierView (r : barrierResult) : option (gset string) * phaseInfo :=
  match r with
  | Closed info _ => (None, info)
  | Waiting outstanding info => (Some outstanding, info)
  end.

(** The purge changes the pool and the partition map, and uses up inputs of
    the world; the rest stays. *)
Definition purgeFrame (m : Master) (w : World) (m' : Master) (w' : World) : Prop :=
  Config m' = Config m ∧ m_jobInfo m' = m_jobInfo m ∧ phase m' = phase m ∧
  checkpointFn m' = checkpointFn m ∧ persister m' = persister m ∧
  barrierCh w' = barrierCh w ∧ trace w' = trace w ∧
  registrations w' = registrations w.

(** The claim of the specification for a phase that lost workers or met
    errors: [executePhase] returns, with those errors, and the committed
    counters are as before. *)
Definition returnsPhaseErrors (phaseId : Z) (m : Master) (w : World) : Prop :=
  ∀ m1 w1 info rest,
    purgeFailedWorkers m w = Ret None m1 w1 →
    barrier (workerPool m1) (barrierCh w1) newPhaseInfo = Closed info rest →
    lostWorkers info ≠ [] ∨ errors info ≠ [] →
    ∃ m' w', executePhase phaseId m w = Ret (collectPhaseErrors info) m' w' ∧
             m_jobInfo m' = m_jobInfo m.

(** ** Sample states

    A master with one registered worker, ["a:1"], that owns two partitions,
    and a few worlds for it. *)

Definition sampleConfig : MasterConfig :=
  {| MinWorkers := 1; RegisterWait := 0; MinPartitionsPerWorker := 2;
     HeartbeatInterval := 10 ^ 9; MaxSteps := 0; JobId := "job";
     StartStep := 0; LoadPaths := [] |}.

Definition sampleJobInfo : jobInfo :=
  {| j_phaseInfo := newPhaseInfo; canRegister := false; lastCheckpoint := 0;
     totalSentMsgs := 0; startTime := 0; endTime := 0; superstep := 0 |}.

Definition liveWorker (h p : string) : workerInfo :=
  {| host := h; port := p; failed := false; errorMsg := "";
     lastHeartbeat := 0 |}.

Definition sampleMaster : Master :=
  {| Config := sampleConfig;
     m_jobInfo := sampleJobInfo;
     workerPool := {[ "a:1"%string := liveWorker "a" "1" ]};
     partitionMap := {[ 0%Z := "a:1"%string; 1%Z := "a:1"%string ]};
     phase := 0;
     checkpointFn := λ _, false;
     persister := {| PersistMaster := λ _ _, None |} |}.

Definition quietWorld (ch : list barrierEntry) : World :=
  {| barrierCh := ch; failures := []; registrations := []; ranges := [];
     trace := [] |}.

(** The worker is lost during the phase: the barrier receives its removal. *)
Definition lostWorld : World :=
  quietWorld [Remove {| hostPort := "a:1"; removeError := None |}].


(** ** The registration window *)

(** The state in which a piece of driver code ends, however it ends. *)
Definition stateOf {A} (o : outcome A) : Master * World :=
  match o with
  | Ret _ m w | Panic _ m w | Blocked m w | Running m w => (m, w)
  end.

(** The master as [registerWorkers] sets it up before it starts to wait. *)
Definition registering (m : Master) : Master :=
  let m1 := set_workerPool ∅ m in
  set_jobInfo (set_canRegister true (m_jobInfo m1)) m1.

(** The master and the world after [n] of the one-second sleeps. *)
Fixpoint afterSeconds (n : nat) (m : Master) (w : World) : Master * World :=
  match n with
  | O => (m, w)
  | S n' =>
      let '(m1, w1) := stateOf (sleepOneSecond m w) in afterSeconds n' m1 w1
  end.

(** The [timer] of the loop after [n] iterations, from the value [t]. *)
Fixpoint timerAfter (t : Z) (n : nat) : Z :=
  match n with
  | O => t
  | S n' => timerAfter (GoInt.int64 (t + 1 * 10 ^ 9)) n'
  end.

(** The window closes after exactly [n] seconds: the loop condition holds at
    the first [n] tests and fails at the next. *)
Definition closesAt (n : nat) (t : Z) (m : Master) (w : World) : Prop :=
  Forall (λ k, stillWaiting (afterSeconds k m w).1 (timerAfter t k)) (seq 0 n) ∧
  ¬ stillWaiting (afterSeconds n m w).1 (timerAfter t n).

#[global] Instance closesAt_dec n t m w : Decision (closesAt n t m w).
Proof. unfold closesAt. apply _. Defined.

(** A world in which the worker ["a:1"] registers during the first second. *)
Definition oneRegistration : World :=
  {| barrierCh := []; failures := []; registrations := [[("a", "1")]]%string;
     ranges := []; trace := [] |}.

(** Scenario 2 of the specification: three workers are wanted and the wait
    is two seconds; two workers register, in the first second, and nobody
    after them. *)
Definition shortHandedMaster : Master :=
  {| Config :=
       {| MinWorkers := 3; RegisterWait := 2 * 10 ^ 9;
          MinPartitionsPerWorker := 2; HeartbeatInterval := 10 ^ 9;
          MaxSteps := 0; JobId := "job"; StartStep := 0; LoadPaths := [] |};
     m_jobInfo := m_jobInfo sampleMaster;
     workerPool := workerPool sampleMaster;
     partitionMap := partitionMap sampleMaster; phase := phase sampleMaster;
     checkpointFn := checkpointFn sampleMaster;
     persister := persister sampleMaster |}.

Definition twoRegistrants : World :=
  {| barrierCh := []; failures := [];
     registrations := [[("a", "1"); ("b", "2")]]%string;
     ranges := []; trace := [] |}.

(** ** Registering twice *)


(** ** Summaries that belong to another job or phase *)

(** The claim of the specification: a summary at the head of the channel
    whose job or phase is not the current one ends the job, so the phase does
    not return. *)
Definition rejectsMismatched (phaseId : Z) (m : Master) (w : World) : Prop :=
  ∀ ps rest,
    barrierCh w = Summary ps :: rest →
    SummaryJobId ps ≠ JobId (Config m) ∨ SummaryPhaseId ps ≠ phaseId →
    ∀ errs m' w', executePhase phaseId m w ≠ Ret errs m' w'.

(** A summary of the worker ["a:1"] for another job and another phase. *)
Definition strangerSummary : PhaseSummary :=
  {| WorkerId := "a:1"; SummaryJobId := "another job"; SummaryPhaseId := 99;
     ActiveVerts := 5; NumVerts := 7; SentMsgs := 3; Errors := [] |}.

(** ** Sample vertices *)

Definition edgeT1 : Vertex.Edge := {| Vertex.Target := "t"; Vertex.Payload := 1 |}.
Definition edgeT2 : Vertex.Edge := {| Vertex.Target := "t"; Vertex.Payload := 2 |}.
Definition edgeX : Vertex.Edge := {| Vertex.Target := "x"; Vertex.Payload := 3 |}.

(** A vertex with two edges to ["t"] and then one to ["x"]. *)
Definition twoThenOther : Vertex.VertexBase :=
  {| Vertex.Id := "v"; Vertex.Edges := Vertex.fromList [edgeT1; edgeT2; edgeX];
     Vertex.Active := true |}.

(** A vertex with an edge to ["x"] and then two to ["t"]. *)
Definition otherThenTwo : Vertex.VertexBase :=
  {| Vertex.Id := "v"; Vertex.Edges := Vertex.fromList [edgeX; edgeT1; edgeT2];
     Vertex.Active := true |}.

(** ** The compute loop *)

(** What a phase, and the loop, leave alone: the configuration, the
    checkpoint policy, the persister and [lastCheckpoint]; the trace only
    grows. *)
Definition loopFrame (m : Master) (w : World) (m' : Master) (w' : World) : Prop :=
  Config m' = Config m ∧ checkpointFn m' = checkpointFn m ∧
  persister m' = persister m ∧
  lastCheckpoint (m_jobInfo m') = lastCheckpoint (m_jobInfo m) ∧
  trace w `prefix_of` trace w'.

(** The world once the master has called [PersistMaster] in state [m]. *)
Definition persisted (m : Master) (w : World) : World :=
  set_trace (trace w ++
    [CallPersistMaster (superstep (m_jobInfo m)) (partitionMap m)]) w.

(** The state with which the loop goes round after a superstep. *)
Definition stepped (m : Master) : Master :=
  set_jobInfo
    (set_superstep (GoInt.uint64 (superstep (m_jobInfo m) + 1)) (m_jobInfo m)) m.

(** The actions recorded between the worlds [w] and [w']. *)
Definition addedTrace (w w' : World) : list action :=
  drop (length (trace w)) (trace w').

(** The loop has ended for the reason the code has for ending it normally:
    no work is left, or a limit is set and the superstep has reached it. *)
Definition loopDone (m : Master) : Prop := ¬ workLeft m ∨ hitMaxSteps m.

(** What holds of a run of the loop from [m] and [w] that ends as [o]. *)
Definition runFacts (m : Master) (w : World) (o : outcome (option error)) : Prop :=
  let m' := (stateOf o).1 in
  let w' := (stateOf o).2 in
  loopFrame m w m' w' ∧
  (∀ s, (0 ≤ superstep (m_jobInfo m) ≤ s)%Z →
        (s < superstep (m_jobInfo m'))%Z →
        checkpointFn m s = true →
        ∃ pmap, CallPersistMaster s pmap ∈ addedTrace w w') ∧
  match o with
  | Ret None _ _ => loopDone m'
  | Ret (Some e) _ _ =>
      checkpointFn m' (superstep (m_jobInfo m')) = true ∧
      PersistMaster (persister m') (superstep (m_jobInfo m')) (partitionMap m')
        = Some e
  | _ => True
  end.

(** The loop from the moment its condition has let it into the body:
    [STEP_PREPARE], then [SUPERSTEP] from the state the first left, then the
    checkpoint and the next round. *)
Definition afterSuperstep (fuel : nat) (m2 : Master) (w2 : World)
    : outcome (option error) :=
  if checkpointFn m2 (superstep (m_jobInfo m2)) then
    match PersistMaster (persister m2) (superstep (m_jobInfo m2))
            (partitionMap m2) with
    | Some e => Ret (Some e) m2 (persisted m2 w2)
    | None => computeLoop fuel (stepped m2) (persisted m2 w2)
    end
  else computeLoop fuel (stepped m2) w2.

Definition afterPhases (fuel : nat) (m : Master) (w : World)
    : outcome (option error) :=
  match executePhase PHASE_STEP_PREPARE m w with
  | Ret _ m1 w1 =>
      match executePhase PHASE_SUPERSTEP m1 w1 with
      | Ret _ m2 w2 => afterSuperstep fuel m2 w2
      | Panic msg m2 w2 => Panic msg m2 w2
      | Blocked m2 w2 => Blocked m2 w2
      | Running m2 w2 => Running m2 w2
      end
  | Panic msg m1 w1 => Panic msg m1 w1
  | Blocked m1 w1 => Blocked m1 w1
  | Running m1 w1 => Running m1 w1
  end.

(** The claim of the specification for the exit of the loop: it leaves at a
    test of its condition exactly when no work is left or the superstep has
    reached [MaxSteps]. *)
Definition exitsAtMaxSteps (fuel : nat) (m : Master) (w : World) : Prop :=
  (¬ workLeft m ∨ (MaxSteps (Config m) ≤ superstep (m_jobInfo m))%Z) ↔
  computeLoop (S fuel) m w = Ret None m w.

(** The claim of the specification for the checkpoint: when the loop has
    returned, the last superstep it completed, if [checkpointFn] holds of it,
    has been persisted and is the value of [lastCheckpoint]. *)
Definition checkpointRecorded (fuel : nat) (m : Master) (w : World) : Prop :=
  ∀ r m' w' s,
    compute fuel m w = Ret r m' w' →
    (s + 1)%Z = superstep (m_jobInfo m') →
    checkpointFn m s = true →
    (∃ pmap, CallPersistMaster s pmap ∈ trace w') ∧
    lastCheckpoint (m_jobInfo m') = s.

(** The sample master with one active vertex, and with a checkpoint at every
    superstep. *)
Definition busyMaster : Master :=
  set_jobInfo
    (set_phaseInfo
       {| activeVerts := 1; numVerts := 1; sentMsgs := 0;
          lostWorkers := []; errors := [] |} sampleJobInfo) sampleMaster.

Definition checkpointingMaster : Master :=
  {| Config := Config busyMaster; m_jobInfo := m_jobInfo busyMaster;
     workerPool := workerPool busyMaster;
     partitionMap := partitionMap busyMaster; phase := phase busyMaster;
     checkpointFn := λ _, true; persister := persister busyMaster |}.

(** A summary of the worker ["a:1"] with [n] active vertices. *)
Definition summaryOf (n : Z) : PhaseSummary :=
  {| WorkerId := "a:1"; SummaryJobId := "job"; SummaryPhaseId := 0;
     ActiveVerts := n; NumVerts := 1; SentMsgs := 0; Errors := [] |}.

(** The worker reports an active vertex in three phases and none in the
    fourth: two supersteps. *)
Definition twoSupersteps : World :=
  quietWorld [Summary (summaryOf 1); Summary (summaryOf 1);
              Summary (summaryOf 1); Summary (summaryOf 0)].

(** ** Pool and partition map *)

(** Every record of the pool is kept under the host and port it holds, as
    [RegisterWorker] files it. *)
Definition wfPool (pool : gmap string workerInfo) : Prop :=
  map_Forall (λ hp info, JoinHostPort (host info) (port info) = hp) pool.

#[global] Instance wfPool_dec pool : Decision (wfPool pool).
Proof. unfold wfPool. apply _. Defined.

(** The worker [wid] is in the pool and marked as failed. *)
Definition failedIn (pool : gmap string workerInfo) (wid : string) : Prop :=
  ∃ info, pool !! wid = Some info ∧ failed info = true.

(** Every partition is owned by a worker of the pool. *)
Definition ownersIn (pmap : gmap Z string) (pool : gmap string workerInfo) : Prop :=
  map_Forall (λ _ wid, is_Some (pool !! wid)) pmap.

#[global] Instance ownersIn_dec pmap pool : Decision (ownersIn pmap pool).
Proof. unfold ownersIn. apply _. Defined.

(** The host-and-port names of a list of records. *)
Definition namesOf (l : list workerInfo) : list string :=
  (λ info, JoinHostPort (host info) (port info)) <$> l.

(** A master with a live worker ["a:1"] and a failed worker ["b:2"], each the
    owner of one partition. *)
Definition halfFailedMaster : Master :=
  set_partitionMap {[ 0%Z := "a:1"%string; 1%Z := "b:2"%string ]}
    (set_workerPool
       {[ "a:1"%string := liveWorker "a" "1";
          "b:2"%string := set_failed "Could not be dialed" (liveWorker "b" "2") ]}
       sampleMaster).

(** The number of partitions the worker [hp] owns. *)
Definition ownedBy (pmap : gmap Z string) (hp : string) : nat :=
  size (filter (λ kv : Z * string, kv.2 = hp) pmap).

(** The claim of the specification for the initial assignment, in part: every
    integer below [MinPartitionsPerWorker × |pool|] is a partition of the
    map. *)
Definition assignsAll (m : Master) (w : World) : Prop :=
  ∀ m' w', determinePartitions m w = Ret tt m' w' →
    ∀ pid : Z,
      (0 ≤ pid < MinPartitionsPerWorker (Config m)
                 * Z.of_nat (size (workerPool m)))%Z →
      is_Some (partitionMap m' !! pid).

(** The sample master asked for [2^63] partitions per worker. *)
Definition greedyMaster : Master :=
  {| Config :=
       {| MinWorkers := 1; RegisterWait := 0;
          MinPartitionsPerWorker := 2 ^ 63;
          HeartbeatInterval := 10 ^ 9; MaxSteps := 0; JobId := "job";
          StartStep := 0; LoadPaths := [] |};
     m_jobInfo := sampleJobInfo;
     workerPool := workerPool sampleMaster;
     partitionMap := ∅; phase := 0;
     checkpointFn := λ _, false;
     persister := {| PersistMaster := λ _ _, None |} |}.

(** * Vocabulary of the further properties *)

(** ** Barrier accounting *)

(** The summaries, and the removed workers, among some entries, in order. *)
Definition summariesOf (es : list barrierEntry) : list PhaseSummary :=
  omap (λ e, match e with Summary ps => Some ps | Remove _ => None end) es.

Definition removalsOf (es : list barrierEntry) : list string :=
  omap (λ e, match e with Remove r => Some (hostPort r) | Summary _ => None end) es.

(** The sum of one counter over some summaries. *)
Definition total (f : PhaseSummary → Z) (l : list PhaseSummary) : Z :=
  foldr (λ ps acc, (f ps + acc)%Z) 0%Z l.

(** The three counters of an accumulator are [uint64] values. *)
Definition countersInRange (info : phaseInfo) : Prop :=
  GoInt.is_uint64 (activeVerts info) ∧ GoInt.is_uint64 (numVerts info) ∧
  GoInt.is_uint64 (sentMsgs info).

#[global] Instance countersInRange_dec info : Decision (countersInRange info).
Proof. unfold countersInRange, GoInt.is_uint64. apply _. Defined.

(** The entries [seen] are one entry for each worker of [S] and no other. *)
Definition onePerWorker (S : gset string) (seen : list barrierEntry) : Prop :=
  NoDup (worker <$> seen) ∧ S = list_to_set (worker <$> seen).

#[global] Instance onePerWorker_dec S seen : Decision (onePerWorker S seen).
Proof. unfold onePerWorker. apply _. Defined.

(** The accumulator once the entries [es] have all gone through the
    [switch] of the barrier. *)
Definition absorbed (info : phaseInfo) (es : list barrierEntry) : phaseInfo :=
  foldl (λ i e, (barrierSwitch ∅ i e).2) info es.

(** The two workers of the half-failed master are accounted for: a summary
    of ["a:1"] and the removal of ["b:2"]. *)
Definition bothAccounted : list barrierEntry :=
  [Summary (summaryOf 4); Remove {| hostPort := "b:2"; removeError := None |}].

(** ** Registration *)

(** The calls served in the first [n] seconds of sleep. *)
Definition servedIn (n : nat) (w : World) : list (string * string) :=
  concat (take n (registrations w)).

(** Two workers register in the first second, ["a:1"] twice, and one in the
    second. *)
Definition threeSeconds : World :=
  {| barrierCh := []; failures := [];
     registrations := [[("a", "1"); ("b", "2"); ("a", "1")]; [("c", "3")]]%string;
     ranges := []; trace := [] |}.

(** The sample master told to wait two seconds and for no particular number
    of workers. *)
Definition patientMaster : Master :=
  {| Config :=
       {| MinWorkers := 0; RegisterWait := 2 * 10 ^ 9;
          MinPartitionsPerWorker := 2;
          HeartbeatInterval := 10 ^ 9; MaxSteps := 0; JobId := "job";
          StartStep := 0; LoadPaths := [] |};
     m_jobInfo := sampleJobInfo;
     workerPool := ∅;
     partitionMap := ∅; phase := 0;
     checkpointFn := λ _, false;
     persister := {| PersistMaster := λ _ _, None |} |}.

(** ** Topology *)

(** The pool and the partition map fit: the records are under their host and
    port and, unless the pool is empty, every partition has its owner in the
    pool. *)
Definition topologyOk (m : Master) : Prop :=
  wfPool (workerPool m) ∧
  (workerPool m ≠ ∅ → ownersIn (partitionMap m) (workerPool m)).

#[global] Instance topologyOk_dec m : Decision (topologyOk m).
Proof. unfold topologyOk. apply _. Defined.

(** The pool [pool'] has only workers of [pool]. *)
Definition poolWithin (pool' pool : gmap string workerInfo) : Prop :=
  ∀ hp, is_Some (pool' !! hp) → is_Some (pool !! hp).

(** The maps [pmap'] and [pmap] have the same partitions. *)
Definition samePartitions (pmap' pmap : gmap Z string) : Prop :=
  ∀ pid, is_Some (pmap' !! pid) ↔ is_Some (pmap !! pid).

(** Every partition of [pmap] has an identifier a [uint64] can hold. *)
Definition keysInRange (pmap : gmap Z string) : Prop :=
  map_Forall (λ pid _, (0 ≤ pid < GoInt.two64)%Z) pmap.

#[global] Instance keysInRange_dec pmap : Decision (keysInRange pmap).
Proof. unfold keysInRange. apply _. Defined.

(** What the phases keep of the topology from [m] to [m']. *)
Definition topologyKept (m m' : Master) : Prop :=
  topologyOk m' ∧
  samePartitions (partitionMap m') (partitionMap m) ∧
  poolWithin (workerPool m') (workerPool m).

(** The records of the pool that are marked failed. *)
Definition failedRecords (pool : gmap string workerInfo) : list workerInfo :=
  filter (λ info, failed info = true) (map_to_list pool).*2.

(** The world in which no goroutine marks a worker any more. *)
Definition undisturbed (w : World) : World := set_failures [] w.

(** ** What [compute] does to the outside *)

(** An action [compute] may take for the master [m]: an order for one of the
    two phases of a superstep, made out for the job and a superstep a
    [uint64] holds, with the checkpoint decision of that superstep, to at
    least one worker; or a call of [PersistMaster] for a superstep for which
    the checkpoint function asks. *)
Definition computeAction (m : Master) (a : action) : Prop :=
  match a with
  | GoEkg _ => False
  | RpcExecutePhase targets exec =>
      (PhaseId exec = PHASE_STEP_PREPARE ∨ PhaseId exec = PHASE_SUPERSTEP) ∧
      ExecJobId exec = JobId (Config m) ∧
      GoInt.is_uint64 (Superstep exec) ∧
      Checkpoint exec = checkpointFn m (Superstep exec) ∧
      targets ≠ ∅
  | CallPersistMaster step _ =>
      GoInt.is_uint64 step ∧ checkpointFn m step = true
  end.

(** The world [w'] has the trace of [w] and then actions that satisfy [P]. *)
Definition extends (P : action → Prop) (w w' : World) : Prop :=
  ∃ l, trace w' = trace w ++ l ∧ Forall P l.

(** The busy sample master with a limit of [n] supersteps. *)
Definition limitedMaster (n : Z) : Master :=
  {| Config :=
       {| MinWorkers := 1; RegisterWait := 0; MinPartitionsPerWorker := 2;
          HeartbeatInterval := 10 ^ 9; MaxSteps := n; JobId := "job";
          StartStep := 0; LoadPaths := [] |};
     m_jobInfo := m_jobInfo busyMaster;
     workerPool := workerPool busyMaster;
     partitionMap := partitionMap busyMaster; phase := phase busyMaster;
     checkpointFn := checkpointFn busyMaster;
     persister := persister busyMaster |}.

(** ** Out-edges *)

(** The slice is one Go can hold: its length is within its capacity. *)
Definition sliceOk (s : Vertex.slice) : Prop := Vertex.len s ≤ Vertex.cap s.

(** The edges of [l] to [target], and the others. *)
Definition edgesTo (target : string) (l : list Vertex.Edge) : list Vertex.Edge :=
  filter (λ e, Vertex.Target e = target) l.
Definition edgesNotTo (target : string) (l : list Vertex.Edge)
    : list Vertex.Edge :=
  filter (λ e, Vertex.Target e ≠ target) l.

(** A vertex with an edge to ["x"], one to ["t"] and one to ["x"], in an
    array with room for one more. *)
Definition roomyVertex : Vertex.VertexBase :=
  {| Vertex.Id := "v";
     Vertex.Edges := {| Vertex.arr := [edgeX; edgeT1; edgeX; edgeT2];
                        Vertex.len := 3 |};
     Vertex.Active := true |}.

(** ** The earlier master *)

(** The sum of one counter over some summaries. *)
Definition legacyTotal (f : Legacy.PhaseSummary → Z)
    (l : list Legacy.PhaseSummary) : Z :=
  foldr (λ ps acc, (f ps + acc)%Z) 0%Z l.

(** What the earlier [collectSummaryInfo] adds to [totalSentMsgs] over the
    summaries of a phase: after each summary the running total of the phase,
    so that the messages of a summary are counted once for itself and once
    for every summary after it. *)
Fixpoint countedSentMsgs (l : list Legacy.PhaseSummary) : Z :=
  match l with
  | [] => 0
  | ps :: l' =>
      (Legacy.SentMsgs ps * (1 + Z.of_nat (length l')) + countedSentMsgs l')%Z
  end.

(** The summary is of the job and the phase, and reports no error. *)
Definition legacyClean (jobId : string) (phaseId : Z)
    (ps : Legacy.PhaseSummary) : Prop :=
  Legacy.JobId ps = jobId ∧ Legacy.PhaseId ps = phaseId ∧
  Legacy.Error ps = None.

(** The earlier master once [collectSummaryInfo] has taken the summaries. *)
Definition legacyAbsorbed (m : Legacy.Master) (pss : list Legacy.PhaseSummary)
    : Legacy.Master :=
  foldl (λ m ps, Legacy.collectSummaryInfo ps m) m pss.


(** An earlier master with two workers, and a summary of each for the
    superstep phase. *)
Definition earlierMaster : Legacy.Master :=
  {| Legacy.ConfigJobId := "job"; Legacy.recoveryErrors := [];
     Legacy.m_jobInfo :=
       {| Legacy.canRegister := false; Legacy.lastCheckpoint := 0;
          Legacy.activeVerts := 0; Legacy.numVerts := 0;
          Legacy.sentMsgs := 0; Legacy.totalSentMsgs := 0 |};
     Legacy.currPhase := 0; Legacy.superstep := 0;
     Legacy.workerMap := {[ "a:1"%string := "a:1"%string;
                            "b:2"%string := "b:2"%string ]};
     Legacy.partitionMap := {[ 0%Z := "a:1"%string; 1%Z := "b:2"%string ]};
     Legacy.failedWorkers := []; Legacy.checkpointFn := λ _, false |}.

Definition earlierSummary (wid : string) (sent : Z) : Legacy.PhaseSummary :=
  {| Legacy.WorkerId := wid; Legacy.JobId := "job";
     Legacy.PhaseId := Legacy.phaseSUPERSTEP; Legacy.ActiveVerts := 1;
     Legacy.NumVerts := 1; Legacy.SentMsgs := sent; Legacy.Error := None |}.

Definition earlierSummaries : list Legacy.PhaseSummary :=
  [earlierSummary "a:1" 3; earlierSummary "b:2" 4].

#[global] Instance legacyClean_dec jobId phaseId ps :
  Decision (legacyClean jobId phaseId ps).
Proof.
  unfold legacyClean.
  destruct (Legacy.Error ps) as [e|].
  - right. intros (_ & _ & H). discriminate H.
  - destruct (decide (Legacy.JobId ps = jobId)) as [Hj|Hj];
      [|right; intros (? & _); contradiction].
    destruct (decide (Legacy.PhaseId ps = phaseId)) as [Hp|Hp];
      [|right; intros (_ & ? & _); contradiction].
    left. by split_and!.
Defined.
(** * Properties *)

(** ** Machine integers *)

Lemma uint64_int64 z : GoInt.uint64 (GoInt.int64 z) = GoInt.uint64 z.
Proof.
  unfold GoInt.uint64, GoInt.int64, GoInt.two64, GoInt.two63.
  rewrite Zminus_mod_idemp_l. f_equal. lia.
Qed.

Lemma int64_int64_succ z : GoInt.int64 (GoInt.int64 z + 1) = GoInt.int64 (z + 1).
Proof.
  unfold GoInt.int64, GoInt.two64, GoInt.two63. f_equal.
  replace ((z + 2 ^ 63) mod 2 ^ 64 - 2 ^ 63 + 1 + 2 ^ 63)%Z
    with ((z + 2 ^ 63) mod 2 ^ 64 + 1)%Z by lia.
  rewrite Zplus_mod_idemp_l. f_equal. lia.
Qed.

Lemma uint64_small z : (0 ≤ z < GoInt.two64)%Z → GoInt.uint64 z = z.
Proof. intros. unfold GoInt.uint64. by apply Z.mod_small. Qed.

Lemma int64_small z : (- GoInt.two63 ≤ z < GoInt.two63)%Z → GoInt.int64 z = z.
Proof.
  unfold GoInt.int64, GoInt.two63, GoInt.two64. intros Hz.
  rewrite Z.mod_small by lia. lia.
Qed.

(** ** Barrier *)


Lemma barrierSwitch_outstanding b info e :
  (barrierSwitch b info e).1 = b ∖ {[worker e]}.
Proof. by destruct e. Qed.

Lemma size_zero_empty (b : gset string) : size b = 0 ↔ b = ∅.
Proof. rewrite size_empty_iff. by unfold_leibniz. Qed.

Lemma accounted_nil b : accounted b [] → b = ∅.
Proof.
  intros H. apply set_eq. intros w. split; [|set_solver].
  intros Hw. destruct (H w Hw) as (e & He & _). by apply elem_of_nil in He.
Qed.

Lemma accounted_tail b e es :
  accounted b (e :: es) → accounted (b ∖ {[worker e]}) es.
Proof.
  intros H w Hw. apply elem_of_difference in Hw as [Hw Hne].
  destruct (H w Hw) as (e0 & He0 & Hwe0).
  apply elem_of_cons in He0 as [->|He0]; [set_solver|eauto].
Qed.

Lemma accounted_cons b e es :
  accounted (b ∖ {[worker e]}) es → accounted b (e :: es).
Proof.
  intros H w Hw. destruct (decide (w = worker e)) as [->|Hne].
  - exists e. split; [left|done].
  - destruct (H w) as (e0 & He0 & Hwe0); [set_solver|].
    exists e0. split; [by right|done].
Qed.

Lemma difference_not_elem (b : gset string) w : w ∉ b → b ∖ {[w]} = b.
Proof. set_solver. Qed.

Lemma barrierLoop_closed b info ch info' rest :
  b ≠ ∅ →
  barrierLoop b info ch = Closed info' rest →
  ∃ seen, ch = seen ++ rest ∧ accounted b seen ∧
    ∀ seen', seen' `prefix_of` seen → accounted b seen' → seen' = seen.
Proof.
  revert b info. induction ch as [|e ch IH]; intros b info Hb; simpl; [done|].
  assert (Hnil : ∀ seen' : list barrierEntry,
            accounted b seen' → seen' ≠ []).
  { intros seen' Hacc ->. by apply accounted_nil in Hacc. }
  destruct (decide (worker e ∈ b)) as [Hin|Hout].
  - destruct (barrierSwitch b info e) as [b' info1] eqn:Hsw.
    assert (b' = b ∖ {[worker e]}) as ->.
    { by rewrite <- barrierSwitch_outstanding with (info := info), Hsw. }
    destruct (decide (size (b ∖ {[worker e]}) = 0)) as [Hz|Hnz].
    + intros [= <- <-]. apply size_zero_empty in Hz. exists [e].
      split; [done|]. split.
      * apply accounted_cons. rewrite Hz. intros w Hw. set_solver.
      * intros [|e' [|e'' s]] Hpre Hacc.
        -- by apply Hnil in Hacc.
        -- apply prefix_cons_inv_1 in Hpre. by subst.
        -- apply prefix_cons_inv_2, prefix_nil_inv in Hpre. done.
    + intros Hloop. rewrite size_zero_empty in Hnz.
      destruct (IH _ _ Hnz Hloop) as (seen & -> & Hacc & Hmin).
      exists (e :: seen). split; [done|]. split; [by apply accounted_cons|].
      intros [|e' s] Hpre Hacc'; [by apply Hnil in Hacc'|].
      pose proof (prefix_cons_inv_1 _ _ _ _ Hpre) as ->.
      f_equal. apply Hmin; [by eapply prefix_cons_inv_2|by apply accounted_tail].
  - intros Hloop. destruct (IH _ _ Hb Hloop) as (seen & -> & Hacc & Hmin).
    exists (e :: seen). split; [done|]. split.
    + apply accounted_cons. by rewrite difference_not_elem.
    + intros [|e' s] Hpre Hacc'; [by apply Hnil in Hacc'|].
      pose proof (prefix_cons_inv_1 _ _ _ _ Hpre) as ->.
      f_equal. apply Hmin; [by eapply prefix_cons_inv_2|].
      apply accounted_tail in Hacc'. by rewrite difference_not_elem in Hacc'.
Qed.

Lemma barrierLoop_accounted b info ch :
  b ≠ ∅ → accounted b ch →
  ∃ info' rest, barrierLoop b info ch = Closed info' rest.
Proof.
  revert b info. induction ch as [|e ch IH]; intros b info Hb Hacc; simpl.
  - by apply accounted_nil in Hacc.
  - apply accounted_tail in Hacc.
    destruct (decide (worker e ∈ b)) as [Hin|Hout].
    + destruct (barrierSwitch b info e) as [b' info1] eqn:Hsw.
      assert (b' = b ∖ {[worker e]}) as ->.
      { by rewrite <- barrierSwitch_outstanding with (info := info), Hsw. }
      destruct (decide (size (b ∖ {[worker e]}) = 0)) as [Hz|Hnz]; [eauto|].
      rewrite size_zero_empty in Hnz. by apply IH.
    + rewrite difference_not_elem in Hacc by done. by apply IH.
Qed.

Lemma barrierLoop_discards b info pre e post :
  worker e ∉ b →
  barrierView (barrierLoop b info (pre ++ e :: post)) =
  barrierView (barrierLoop b info (pre ++ post)).
Proof.
  revert b info. induction pre as [|e0 pre IH]; intros b info Hout; simpl.
  - by rewrite decide_False.
  - destruct (decide (worker e0 ∈ b)); [|by apply IH].
    destruct (barrierSwitch b info e0) as [b' info1] eqn:Hsw.
    assert (b' = b ∖ {[worker e0]}) as ->.
    { by rewrite <- barrierSwitch_outstanding with (info := info), Hsw. }
    destruct (decide (size (b ∖ {[worker e0]}) = 0)); [done|].
    apply IH. set_solver.
Qed.

(** C2.  The barrier over the snapshot [S] of the pool closes exactly when
    every worker of [S] is accounted for by a summary or a removal: if it
    closes, the entries it has received account for [S] and no shorter run of
    them does; if the entries of the channel account for [S], it closes.  An
    entry for a worker outside [S] is discarded: with or without it the
    barrier ends with the same outstanding set and the same accumulator. *)
Theorem barrier_closes_exactly_when_accounted
    (pool : gmap string workerInfo) (ch : list barrierEntry) (info : phaseInfo) :
  (∀ info' rest, barrier pool ch info = Closed info' rest →
     ∃ seen, ch = seen ++ rest ∧ accounted (dom pool) seen ∧
       ∀ seen', seen' `prefix_of` seen → accounted (dom pool) seen' →
                seen' = seen) ∧
  (accounted (dom pool) ch ↔
     ∃ info' rest, barrier pool ch info = Closed info' rest) ∧
  (∀ pre e post, ch = pre ++ e :: post → worker e ∉ dom pool →
     barrierView (barrier pool (pre ++ e :: post) info) =
     barrierView (barrier pool (pre ++ post) info)).
Proof.
  unfold barrier. split; [|split].
  - intros info' rest. destruct (decide (size (dom pool) = 0)) as [Hz|Hnz].
    + intros [= <- <-]. apply size_zero_empty in Hz. exists [].
      split; [done|]. split; [rewrite Hz; intros w Hw; set_solver|].
      intros seen' Hpre _. by apply prefix_nil_inv in Hpre.
    + rewrite size_zero_empty in Hnz. by apply barrierLoop_closed.
  - destruct (decide (size (dom pool) = 0)) as [Hz|Hnz].
    + apply size_zero_empty in Hz. split; [eauto|].
      intros _. rewrite Hz. intros w Hw. set_solver.
    + rewrite size_zero_empty in Hnz. split.
      * by apply barrierLoop_accounted.
      * intros (info' & rest & Hloop).
        destruct (barrierLoop_closed _ _ _ _ _ Hnz Hloop)
          as (seen & -> & Hacc & _).
        intros w Hw. destruct (Hacc w Hw) as (e & He & Hwe).
        exists e. split; [|done]. apply elem_of_app. by left.
  - intros pre e post _ Hout.
    destruct (decide (size (dom pool) = 0)); [done|].
    by apply barrierLoop_discards.
Qed.

(** ** What the purge leaves alone *)


Lemma purgeFrame_refl m w : purgeFrame m w m w.
Proof. by repeat split. Qed.

Lemma purgeFrame_trans m1 w1 m2 w2 m3 w3 :
  purgeFrame m1 w1 m2 w2 → purgeFrame m2 w2 m3 w3 → purgeFrame m1 w1 m3 w3.
Proof. unfold purgeFrame. intros ? ?. destruct_and!. repeat split; congruence. Qed.

Lemma markWorkerFailed_frame hp msg m :
  purgeFrame m (mkWorld [] [] [] [] []) (markWorkerFailed hp msg m).1
             (mkWorld [] [] [] [] []) ∧
  partitionMap (markWorkerFailed hp msg m).1 = partitionMap m ∧
  dom (workerPool (markWorkerFailed hp msg m).1) = dom (workerPool m).
Proof.
  unfold markWorkerFailed. destruct (workerPool m !! hp) eqn:E; simpl.
  - split; [by repeat split|]. split; [done|].
    apply set_eq. intros k. rewrite dom_insert_L.
    assert (hp ∈ dom (workerPool m)) by (apply elem_of_dom; eauto).
    set_solver.
  - split; [by repeat split|done].
Qed.

Lemma markAll_frame marks m :
  let m' := foldl (λ m' '(hp, msg), (markWorkerFailed hp msg m').1) m marks in
  Config m' = Config m ∧ m_jobInfo m' = m_jobInfo m ∧ phase m' = phase m ∧
  checkpointFn m' = checkpointFn m ∧ persister m' = persister m ∧
  partitionMap m' = partitionMap m ∧ dom (workerPool m') = dom (workerPool m).
Proof.
  revert m. induction marks as [|[hp msg] marks IH]; intros m; simpl; [done|].
  destruct (markWorkerFailed_frame hp msg m) as ((?&?&?&?&?&_) & ? & ?).
  specialize (IH (markWorkerFailed hp msg m).1). simpl in IH.
  destruct_and!. repeat split; congruence.
Qed.

Lemma poolLock_Lock_spec m w :
  ∃ m' w', poolLock_Lock m w = Ret tt m' w' ∧ purgeFrame m w m' w' ∧
    partitionMap m' = partitionMap m ∧
    dom (workerPool m') = dom (workerPool m).
Proof.
  unfold poolLock_Lock. destruct (failures w) as [|marks rest].
  - exists m, w. by repeat split.
  - eexists _, _. split; [done|].
    pose proof (markAll_frame marks m) as H. simpl in H. destruct_and!.
    by repeat split.
Qed.

Lemma rangeWorkerPool_spec m w :
  ∃ order w', rangeWorkerPool m w = Ret order m w' ∧
    order ≡ₚ (map_to_list (workerPool m)).*1 ∧ purgeFrame m w m w'.
Proof.
  unfold rangeWorkerPool. destruct (ranges w) as [|o rest].
  - eexists _, _. split; [done|]. by repeat split.
  - eexists _, _. split; [done|]. split; [|by repeat split].
    by case_decide.
Qed.

Lemma movePartitions_spec moveId m w :
  ∃ order w', movePartitions moveId m w =
      Ret None (set_partitionMap
        ((λ wid, if decide (wid = moveId)
                 then pickNewOwner order moveId else wid) <$> partitionMap m) m) w' ∧
    order ≡ₚ (map_to_list (workerPool m)).*1 ∧ purgeFrame m w m w'.
Proof.
  destruct (rangeWorkerPool_spec m w) as (order & w' & Hr & Hperm & Hf).
  exists order, w'. unfold movePartitions. munfold. rewrite Hr. by simpl.
Qed.

Lemma moveAll_frame failedWorkers m w :
  ∃ m' w', moveAll failedWorkers m w = Ret None m' w' ∧
    purgeFrame m w m' w' ∧ workerPool m' = workerPool m.
Proof.
  revert m w. induction failedWorkers as [|info rest IH]; intros m w; simpl.
  - exists m, w. split; [done|]. split; [apply purgeFrame_refl|done].
  - destruct (movePartitions_spec (JoinHostPort (host info) (port info)) m w)
      as (order & w1 & Hmv & _ & Hf1).
    munfold. rewrite Hmv.
    destruct (IH (set_partitionMap
      ((λ wid, if decide (wid = JoinHostPort (host info) (port info))
               then pickNewOwner order (JoinHostPort (host info) (port info))
               else wid) <$> partitionMap m) m) w1) as (m' & w' & -> & Hf2 & Hp).
    exists m', w'. split; [done|]. split; [|done].
    eapply purgeFrame_trans; [|exact Hf2].
    eapply purgeFrame_trans; [exact Hf1|]. by repeat split.
Qed.

Lemma purgeFailedWorkers_frame m w :
  ∃ r m' w', purgeFailedWorkers m w = Ret r m' w' ∧ purgeFrame m w m' w' ∧
    (r = None ∨ (r = Some "no workers left"%string ∧ workerPool m' = ∅ ∧
                 partitionMap m' = partitionMap m)) ∧
    (r = None → workerPool m' ≠ ∅).
Proof.
  unfold purgeFailedWorkers.
  destruct (poolLock_Lock_spec m w) as (m1 & w1 & Hl & Hf1 & Hpm1 & _).
  destruct (rangeWorkerPool_spec m1 w1) as (order & w2 & Hr & _ & Hf2).
  munfold. rewrite Hl, Hr.
  destruct (purgeScan order [] (workerPool m1)) as [failedWorkers pool] eqn:Hs.
  destruct (decide (size pool = 0)) as [Hz|Hnz].
  - eexists _, _, _. split; [done|]. split; [|split].
    + eapply purgeFrame_trans; [exact Hf1|].
      eapply purgeFrame_trans; [exact Hf2|]. by repeat split.
    + right. split; [done|]. split; [|done]. simpl. by apply map_size_empty_iff.
    + done.
  - destruct (moveAll_frame failedWorkers (set_workerPool pool m1) w2)
      as (m' & w' & Hmv & Hf3 & Hp).
    exists None, m', w'. split; [done|]. split; [|split].
    + eapply purgeFrame_trans; [exact Hf1|].
      eapply purgeFrame_trans; [exact Hf2|].
      eapply purgeFrame_trans; [|exact Hf3]. by repeat split.
    + by left.
    + intros _. rewrite Hp. simpl. intros ->. by rewrite map_size_empty in Hnz.
Qed.

(** ** Phase execution *)

Lemma collectPhaseErrors_app info :
  collectPhaseErrors info = lostWorkers info ++ errors info.
Proof.
  unfold collectPhaseErrors.
  destruct (lostWorkers info) as [|l ls], (errors info) as [|e es]; simpl;
    repeat case_decide; simpl in *; try done; try lia.
  by rewrite app_nil_r.
Qed.

Lemma collectPhaseErrors_nil info :
  collectPhaseErrors info = [] ↔ lostWorkers info = [] ∧ errors info = [].
Proof.
  rewrite collectPhaseErrors_app. split.
  - by intros [? ?]%app_eq_nil.
  - by intros [-> ->].
Qed.


(** C3, as the code has it.  Whatever the state and the world, the purge
    returns and leaves [JobInfo] alone, and then:
    - if the purge found no worker left, [executePhase] returns that one
      error; no phase is run and nothing is committed;
    - if the barrier never closes, [executePhase] does not return;
    - if the barrier closes with lost workers or errors, [executePhase]
      panics with "phase errors" and [JobInfo] is as it was before the call;
    - otherwise it returns no errors, the three counters of [JobInfo] are
      those accumulated in the phase and [totalSentMsgs] has grown by the
      messages sent in the phase. *)
Theorem executePhase_commits_or_panics (phaseId : Z) (m : Master) (w : World) :
  ∃ r m1 w1,
    purgeFailedWorkers m w = Ret r m1 w1 ∧ m_jobInfo m1 = m_jobInfo m ∧
    match r with
    | Some e => executePhase phaseId m w = Ret [e] m1 w1
    | None =>
        match barrier (workerPool m1) (barrierCh w1) newPhaseInfo with
        | Waiting _ _ =>
            ∃ m' w', executePhase phaseId m w = Blocked m' w' ∧
                     m_jobInfo m' = m_jobInfo m
        | Closed info rest =>
            ∃ m' w', barrierCh w' = rest ∧
              if decide (lostWorkers info = [] ∧ errors info = []) then
                executePhase phaseId m w = Ret [] m' w' ∧
                activeVerts (j_phaseInfo (m_jobInfo m')) = activeVerts info ∧
                numVerts (j_phaseInfo (m_jobInfo m')) = numVerts info ∧
                sentMsgs (j_phaseInfo (m_jobInfo m')) = sentMsgs info ∧
                totalSentMsgs (m_jobInfo m') =
                  GoInt.uint64 (totalSentMsgs (m_jobInfo m) + sentMsgs info) ∧
                lastCheckpoint (m_jobInfo m') = lastCheckpoint (m_jobInfo m) ∧
                superstep (m_jobInfo m') = superstep (m_jobInfo m)
              else
                executePhase phaseId m w = Panic "phase errors" m' w' ∧
                m_jobInfo m' = m_jobInfo m
        end
    end.
Proof.
  destruct (purgeFailedWorkers_frame m w)
    as (r & m1 & w1 & Hp & (HC & HJ & _) & _ & _).
  exists r, m1, w1. split; [done|]. split; [done|].
  unfold executePhase. munfold. rewrite Hp.
  destruct r as [e|]; [done|].
  unfold sendExecToAllWorkers, awaitBarrier. munfold. simpl.
  destruct (barrier (workerPool m1) (barrierCh w1) newPhaseInfo)
    as [info rest|outstanding info] eqn:Hb.
  - destruct (decide (lostWorkers info = [] ∧ errors info = [])) as [Hnil|Hne].
    + apply collectPhaseErrors_nil in Hnil. rewrite Hnil. simpl.
      eexists _, _. split; cycle 1.
      * split; [reflexivity|]. simpl. rewrite HJ. by repeat split.
      * done.
    + rewrite decide_True.
      * eexists _, _. split; cycle 1; [split; [reflexivity|done]|done].
      * destruct (collectPhaseErrors info) eqn:E; simpl; [|lia].
        by apply collectPhaseErrors_nil in E.
  - eexists _, _. split; [reflexivity|done].
Qed.

(** C3, the claim as the specification words it, fails: when the one worker
    of the sample master is lost in the phase, [executePhase] panics and so
    does not return the errors. *)
Lemma executePhase_lost_worker_panics :
  ¬ returnsPhaseErrors PHASE_SUPERSTEP sampleMaster lostWorld.
Proof.
  intros H.
  assert (Hp : purgeFailedWorkers sampleMaster lostWorld
               = Ret None sampleMaster lostWorld) by (vm_compute; reflexivity).
  assert (Hb : barrier (workerPool sampleMaster) (barrierCh lostWorld) newPhaseInfo
               = Closed (set_lostWorkers ["a:1"%string] newPhaseInfo) [])
    by (vm_compute; reflexivity).
  destruct (H _ _ _ _ Hp Hb) as (m' & w' & Hx & _); [by left|].
  vm_compute in Hx. discriminate Hx.
Qed.

(** ** Registration *)






Lemma RegisterWorker_returns h p m w :
  ∃ r m' w', RegisterWorker Unlocked h p m w = Ret r m' w' ∧
    Config m' = Config m ∧ m_jobInfo m' = m_jobInfo m.
Proof.
  unfold RegisterWorker. munfold. simpl.
  destruct (negb (canRegister (m_jobInfo m))); [by eexists _, _, _|].
  destruct (workerPool m !! JoinHostPort h p); by eexists _, _, _.
Qed.

Lemma serve_returns calls m w :
  ∃ m' w', serve calls m w = Ret tt m' w' ∧
    Config m' = Config m ∧ m_jobInfo m' = m_jobInfo m.
Proof.
  revert m w. induction calls as [|[h p] calls IH]; intros m w; simpl.
  - by exists m, w.
  - destruct (RegisterWorker_returns h p m w) as (r & m1 & w1 & Hr & HC & HJ).
    munfold. rewrite Hr.
    destruct (IH m1 w1) as (m' & w' & -> & HC' & HJ').
    exists m', w'. split; [done|]. split; congruence.
Qed.

Lemma sleepOneSecond_returns m w :
  ∃ m' w', sleepOneSecond m w = Ret tt m' w' ∧
    Config m' = Config m ∧ m_jobInfo m' = m_jobInfo m.
Proof.
  unfold sleepOneSecond. destruct (registrations w) as [|calls rest].
  - by exists m, w.
  - apply serve_returns.
Qed.

Lemma afterSeconds_frame n m w :
  Config (afterSeconds n m w).1 = Config m ∧
  m_jobInfo (afterSeconds n m w).1 = m_jobInfo m.
Proof.
  revert m w. induction n as [|n IH]; intros m w; simpl; [done|].
  destruct (sleepOneSecond_returns m w) as (m1 & w1 & -> & HC & HJ). simpl.
  destruct (IH m1 w1) as [? ?]. split; congruence.
Qed.

Lemma closesAt_S n t m w m1 w1 :
  sleepOneSecond m w = Ret tt m1 w1 →
  closesAt (S n) t m w ↔
  stillWaiting m t ∧ closesAt n (GoInt.int64 (t + 1 * 10 ^ 9)) m1 w1.
Proof.
  intros Hs. unfold closesAt. cbn [seq]. rewrite Forall_cons.
  rewrite <- fmap_S_seq, Forall_fmap. simpl. rewrite Hs. simpl.
  unfold compose. simpl. rewrite Hs. simpl. tauto.
Qed.

Lemma registerLoop_closes n fuel t m w :
  n < fuel → closesAt n t m w →
  registerLoop fuel t m w =
    Ret tt (afterSeconds n m w).1 (afterSeconds n m w).2.
Proof.
  revert fuel t m w. induction n as [|n IH]; intros [|fuel] t m w Hlt Hc;
    try lia; simpl.
  - destruct Hc as [_ Hc]. simpl in Hc. munfold. by rewrite decide_False.
  - destruct (sleepOneSecond_returns m w) as (m1 & w1 & Hs & _).
    destruct (proj1 (closesAt_S n t m w m1 w1 Hs) Hc) as [Hw Hc'].
    munfold. rewrite decide_True by done. rewrite Hs. simpl.
    apply IH; [lia|done].
Qed.

Lemma registerLoop_returns fuel t m w m' w' :
  registerLoop fuel t m w = Ret tt m' w' →
  ∃ n, n < fuel ∧ closesAt n t m w ∧ afterSeconds n m w = (m', w').
Proof.
  revert t m w. induction fuel as [|fuel IH]; intros t m w; simpl; [done|].
  munfold. destruct (decide (stillWaiting m t)) as [Hw|Hw].
  - destruct (sleepOneSecond_returns m w) as (m1 & w1 & Hs & _).
    rewrite Hs. intros Hl. destruct (IH _ _ _ Hl) as (n & Hn & Hc & Ha).
    exists (S n). split; [lia|]. split.
    + by apply (closesAt_S _ _ _ _ _ _ Hs).
    + simpl. by rewrite Hs.
  - intros [= <- <-]. exists 0. split; [lia|]. split; [|done].
    split; [constructor|done].
Qed.

Lemma registerLoop_no_panic fuel t m w :
  match registerLoop fuel t m w with
  | Ret _ _ _ | Running _ _ => True
  | _ => False
  end.
Proof.
  revert t m w. induction fuel as [|fuel IH]; intros t m w; simpl; [done|].
  munfold. destruct (decide (stillWaiting m t)); [|done].
  destruct (sleepOneSecond_returns m w) as (m1 & w1 & -> & _). apply IH.
Qed.

(** While fewer workers than a positive [MinWorkers] are registered and no
    call is left to serve, the loop sleeps on. *)
Lemma registerLoop_waits_below_MinWorkers fuel t m w :
  registrations w = [] →
  (0 < MinWorkers (Config m))%Z →
  (GoInt.uint64 (Z.of_nat (size (workerPool m))) < MinWorkers (Config m))%Z →
  registerLoop fuel t m w = Running m w.
Proof.
  intros Hregs Hmin Hbelow. revert t.
  induction fuel as [|fuel IH]; intros t; simpl; [done|].
  munfold. rewrite decide_True by (by left).
  unfold sleepOneSecond. rewrite Hregs. apply IH.
Qed.

(** C6, at an input on which the code departs from the claim.  In scenario 2
    of the specification (three workers wanted, a wait of two seconds, two
    workers registered) [registerWorkers] never returns, with an error or
    without: the loop sleeps on with registration open, however long it is
    given.  The test after the loop does ask whether the pool is below
    [MinWorkers] after a positive wait, but whenever the loop has ended the
    pool is not below [MinWorkers]: that part of the test is never true, and
    the error is returned exactly when the pool is empty. *)
Theorem registerWorkers_waits_below_MinWorkers :
  (∀ fuel, ∃ m' w',
     registerWorkers fuel shortHandedMaster twoRegistrants = Running m' w' ∧
     canRegister (m_jobInfo m') = true ∧
     (0 < fuel → size (workerPool m') = 2)) ∧
  (∀ fuel m w r m' w',
     registerWorkers fuel m w = Ret r m' w' →
     (is_Some r ↔ size (workerPool m') = 0) ∧
     ¬ ((GoInt.uint64 (Z.of_nat (size (workerPool m')))
           < MinWorkers (Config m'))%Z ∧
        (0 < RegisterWait (Config m'))%Z)).
Proof.
  split.
  - intros [|fuel].
    { eexists _, _. split; [reflexivity|]. split; [reflexivity|lia]. }
    unfold registerWorkers. munfold. fold (registering shortHandedMaster).
    cbn [registerLoop]. munfold.
    rewrite decide_True by (left; vm_compute; done).
    destruct (sleepOneSecond_returns (registering shortHandedMaster)
                twoRegistrants) as (m1 & w1 & Hs & _).
    rewrite Hs. pose proof Hs as Hs'. vm_compute in Hs'.
    injection Hs' as Hm1 Hw1.
    rewrite (registerLoop_waits_below_MinWorkers fuel _ m1 w1).
    + exists m1, w1. split; [done|]. rewrite <- Hm1.
      split; [reflexivity|]. intros _. vm_compute. reflexivity.
    + by rewrite <- Hw1.
    + rewrite <- Hm1. vm_compute. reflexivity.
    + rewrite <- Hm1. vm_compute. reflexivity.
  - intros fuel m w r m' w'. unfold registerWorkers. munfold.
    fold (registering m).
    destruct (registerLoop fuel 0 (registering m) w) as [[] m1 w1| | |] eqn:Hl;
      try done.
    destruct (registerLoop_returns _ _ _ _ _ _ Hl) as (n & _ & [_ Hc] & Ha).
    rewrite Ha in Hc. simpl in Hc.
    assert (Hfull : ¬ (GoInt.uint64 (Z.of_nat (size (workerPool m1)))
                         < MinWorkers (Config m1))%Z).
    { intros Hlt. apply Hc. left. split; [|done].
      assert (0 ≤ GoInt.uint64 (Z.of_nat (size (workerPool m1))))%Z; [|lia].
      unfold GoInt.uint64, GoInt.two64. apply Z.mod_pos_bound. lia. }
    destruct (decide (notEnoughWorkers _)) as [He|He];
      intros Hret; injection Hret as <- <- <-; simpl.
    + split; [|by intros [? _]].
      split; [|by eauto]. intros _.
      destruct He as [?|[? _]]; [done|]. by destruct Hfull.
    + split; [|by intros [? _]].
      split; [by intros [? [=]]|]. intros Hz. destruct He. by left.
Qed.

(** [registerWorkers] returns only when the window has closed, and never
    panics. *)
Lemma registerWorkers_returns_only_closed fuel m w :
  match registerWorkers fuel m w with
  | Ret _ _ _ => ∃ n, n < fuel ∧ closesAt n 0 (registering m) w
  | Running _ _ => True
  | _ => False
  end.
Proof.
  unfold registerWorkers. munfold. fold (registering m).
  pose proof (registerLoop_no_panic fuel 0 (registering m) w) as Hnp.
  destruct (registerLoop fuel 0 (registering m) w) as [[] m1 w1| | |] eqn:Hl;
    try done.
  destruct (registerLoop_returns _ _ _ _ _ _ Hl) as (n & Hn & Hc & _).
  destruct (decide (notEnoughWorkers _)); eauto.
Qed.

(** ** Summaries of another job or phase *)

(** C5, as the code has it.  The earlier barrier compares every summary it
    receives with the configured job id and the current phase, and a mismatch
    of either is fatal before anything is counted.  The later barrier compares
    neither: a summary of a worker it still waits for is counted, its
    counters added to the accumulator and the worker taken off the
    outstanding set, whatever its job id and phase id are. *)
Theorem barrier_mismatch_fatal_only_in_earlier_master :
  (∀ bmap m ps ch,
     Legacy.JobId ps ≠ Legacy.ConfigJobId m ∨
     Legacy.PhaseId ps ≠ Legacy.currPhase m →
     ∃ msg, Legacy.barrierLoop bmap m (ps :: ch) = Legacy.Fatal msg) ∧
  (∀ b info ps ch,
     WorkerId ps ∈ b →
     barrierLoop b info (Summary ps :: ch) =
       if decide (size (b ∖ {[WorkerId ps]}) = 0)
       then Closed (collectSummaryInfo info ps) ch
       else barrierLoop (b ∖ {[WorkerId ps]}) (collectSummaryInfo info ps) ch).
Proof.
  split.
  - intros bmap m ps ch Hne. simpl.
    destruct (decide (Legacy.ConfigJobId m ≠ Legacy.JobId ps)) as [|Hj];
      [by eauto|].
    destruct (decide (Legacy.currPhase m ≠ Legacy.PhaseId ps)) as [|Hp];
      [by eauto|].
    apply dec_stable in Hj, Hp. destruct Hne; congruence.
  - intros b info ps ch Hin. simpl. by rewrite decide_True.
Qed.

(** C5, the claim as the specification words it, fails for the later master:
    the summary of another job and phase is counted and the phase returns
    with its counters committed. *)
Lemma executePhase_counts_stranger_summary :
  ¬ rejectsMismatched PHASE_SUPERSTEP sampleMaster
      (quietWorld [Summary strangerSummary]).
Proof.
  intros H.
  eapply (H strangerSummary [] eq_refl).
  - left. discriminate.
  - vm_compute. reflexivity.
Qed.

(** ** Removing an out-edge *)

(** C10, at an input on which the code departs from the claim: of two edges
    to ["t"] followed by an edge to ["x"], [removeOutEdge "t"] removes the
    first only; the second edge to ["t"] is still in the list. *)
Theorem removeOutEdge_keeps_second_duplicate :
  ∃ v', Vertex.removeOutEdge "t" twoThenOther = Vertex.Done v' ∧
        Vertex.OutEdges v' = [edgeT2; edgeX] ∧
        ∃ e, e ∈ Vertex.OutEdges v' ∧ Vertex.Target e = "t"%string.
Proof.
  eexists. split; [vm_compute; reflexivity|]. split; [reflexivity|].
  exists edgeT2. split; [|reflexivity]. vm_compute. left.
Qed.

(** When the two edges to the target come last, the second is read from the
    stale end of the array and the re-slicing panics. *)
Lemma removeOutEdge_panics_on_trailing_duplicates :
  Vertex.removeOutEdge "t" otherThenTwo =
    Vertex.Panicked "slice bounds out of range".
Proof. vm_compute. reflexivity. Qed.

(** ** The compute loop *)

Lemma loopFrame_refl m w : loopFrame m w m w.
Proof. by repeat split. Qed.

Lemma loopFrame_trans m1 w1 m2 w2 m3 w3 :
  loopFrame m1 w1 m2 w2 → loopFrame m2 w2 m3 w3 → loopFrame m1 w1 m3 w3.
Proof.
  unfold loopFrame. intros (?&?&?&?&?) (?&?&?&?&?).
  repeat split; try congruence. by etrans.
Qed.

(** A phase keeps the frame of the loop and the superstep, and it is never
    cut short by a lack of fuel. *)
Lemma executePhase_frame phaseId m w :
  loopFrame m w (stateOf (executePhase phaseId m w)).1
                (stateOf (executePhase phaseId m w)).2 ∧
  superstep (m_jobInfo (stateOf (executePhase phaseId m w)).1)
    = superstep (m_jobInfo m) ∧
  ∀ m' w', executePhase phaseId m w ≠ Running m' w'.
Proof.
  destruct (purgeFailedWorkers_frame m w)
    as (r & m1 & w1 & Hp & (HC & HJ & _ & HF & HP & _ & HT & _) & _ & _).
  unfold executePhase. munfold. rewrite Hp.
  destruct r as [e|]; simpl.
  { repeat split; simpl; try congruence. by rewrite HT. }
  unfold sendExecToAllWorkers, awaitBarrier. munfold. simpl.
  destruct (barrier (workerPool m1) (barrierCh w1) newPhaseInfo)
    as [info rest|outstanding info]; simpl.
  - destruct (decide (0 < length (collectPhaseErrors info))); simpl.
    + repeat split; simpl; try congruence. rewrite HT. by apply prefix_app_r.
    + repeat split; simpl; try congruence. rewrite HT. by apply prefix_app_r.
  - repeat split; simpl; try congruence. rewrite HT. by apply prefix_app_r.
Qed.

Lemma persistMaster_eq m w :
  persistMaster m w =
    Ret (PersistMaster (persister m) (superstep (m_jobInfo m)) (partitionMap m))
        m (persisted m w).
Proof. reflexivity. Qed.

(** The body of the loop, by the way its two phases end. *)
Lemma superstepBody_eq m w :
  superstepBody m w =
    match executePhase PHASE_STEP_PREPARE m w with
    | Ret _ m1 w1 =>
        match executePhase PHASE_SUPERSTEP m1 w1 with
        | Ret _ m2 w2 =>
            if checkpointFn m2 (superstep (m_jobInfo m2)) then
              Ret (PersistMaster (persister m2) (superstep (m_jobInfo m2))
                     (partitionMap m2)) m2 (persisted m2 w2)
            else Ret None m2 w2
        | Panic msg m2 w2 => Panic msg m2 w2
        | Blocked m2 w2 => Blocked m2 w2
        | Running m2 w2 => Running m2 w2
        end
    | Panic msg m1 w1 => Panic msg m1 w1
    | Blocked m1 w1 => Blocked m1 w1
    | Running m1 w1 => Running m1 w1
    end.
Proof.
  unfold superstepBody. munfold.
  destruct (executePhase PHASE_STEP_PREPARE m w) as [e1 m1 w1| | |]; try done.
  destruct (executePhase PHASE_SUPERSTEP m1 w1) as [e2 m2 w2| | |]; try done.
  by destruct (checkpointFn m2 (superstep (m_jobInfo m2))).
Qed.

Lemma superstepBody_frame m w :
  loopFrame m w (stateOf (superstepBody m w)).1 (stateOf (superstepBody m w)).2 ∧
  superstep (m_jobInfo (stateOf (superstepBody m w)).1) = superstep (m_jobInfo m) ∧
  (∀ m' w', superstepBody m w ≠ Running m' w') ∧
  (∀ r m' w', superstepBody m w = Ret r m' w' →
     if checkpointFn m (superstep (m_jobInfo m)) then
       r = PersistMaster (persister m') (superstep (m_jobInfo m')) (partitionMap m') ∧
       ∃ w2, w' = persisted m' w2 ∧ trace w `prefix_of` trace w2
     else r = None).
Proof.
  rewrite superstepBody_eq.
  destruct (executePhase_frame PHASE_STEP_PREPARE m w) as (Hf1 & Hs1 & Hr1).
  destruct (executePhase PHASE_STEP_PREPARE m w)
    as [e1 m1 w1|msg1 m1 w1|m1 w1|m1 w1]; simpl in *.
  2, 3: by split_and!.
  2: by destruct (Hr1 m1 w1).
  destruct (executePhase_frame PHASE_SUPERSTEP m1 w1) as (Hf2 & Hs2 & Hr2).
  pose proof (loopFrame_trans _ _ _ _ _ _ Hf1 Hf2) as Hf.
  destruct (executePhase PHASE_SUPERSTEP m1 w1)
    as [e2 m2 w2|msg2 m2 w2|m2 w2|m2 w2]; simpl in *.
  2, 3: by (split_and!; try congruence).
  2: by destruct (Hr2 m2 w2).
  assert (Hcp : checkpointFn m2 (superstep (m_jobInfo m2))
                = checkpointFn m (superstep (m_jobInfo m))).
  { destruct Hf as (_ & -> & _). congruence. }
  rewrite Hcp. destruct (checkpointFn m (superstep (m_jobInfo m))); simpl.
  - split; [|split; [congruence|split; [done|]]].
    + destruct Hf as (?&?&?&?&?). repeat split; try done.
      etrans; [done|]. by apply prefix_app_r.
    + intros r m' w' [= <- <- <-]. split; [done|].
      exists w2. split; [done|]. by destruct Hf as (_&_&_&_&?).
  - split; [done|]. split; [congruence|]. split; [done|].
    by intros r m' w' [= <- <- <-].
Qed.

Lemma addedTrace_app w w' :
  trace w `prefix_of` trace w' → trace w' = trace w ++ addedTrace w w'.
Proof.
  intros [k Hk]. unfold addedTrace. rewrite Hk.
  by rewrite drop_app_length.
Qed.

Lemma addedTrace_later w w1 w2 a :
  trace w `prefix_of` trace w1 → trace w1 `prefix_of` trace w2 →
  a ∈ addedTrace w1 w2 → a ∈ addedTrace w w2.
Proof.
  intros [k1 Hk1] [k2 Hk2]. unfold addedTrace. rewrite Hk2, Hk1.
  rewrite <- app_assoc, !drop_app_length. rewrite app_assoc, drop_app_length.
  intros Ha. apply elem_of_app. by right.
Qed.

Lemma addedTrace_earlier w w1 w2 a :
  trace w `prefix_of` trace w1 → trace w1 `prefix_of` trace w2 →
  a ∈ addedTrace w w1 → a ∈ addedTrace w w2.
Proof.
  intros [k1 Hk1] [k2 Hk2]. unfold addedTrace. rewrite Hk2, Hk1.
  rewrite <- app_assoc, !drop_app_length.
  intros Ha. apply elem_of_app. by left.
Qed.

Lemma uint64_succ_le s : (0 ≤ s → 0 ≤ GoInt.uint64 (s + 1) ≤ s + 1)%Z.
Proof.
  intros Hs. unfold GoInt.uint64, GoInt.two64. split.
  - apply Z.mod_pos_bound. lia.
  - apply Z.mod_le; lia.
Qed.

Lemma computeLoop_run fuel m w : runFacts m w (computeLoop fuel m w).
Proof.
  revert m w. induction fuel as [|fuel IH]; intros m w; simpl.
  { split; [apply loopFrame_refl|]. split; [simpl; lia|done]. }
  munfold.
  destruct (decide (workLeft m)) as [Hwork|Hwork]; cycle 1.
  { split; [apply loopFrame_refl|]. split; [simpl; lia|]. by left. }
  destruct (decide (hitMaxSteps m)) as [Hmax|Hmax].
  { split; [apply loopFrame_refl|]. split; [simpl; lia|]. by right. }
  destruct (superstepBody_frame m w) as (Hf & Hs & Hrun & Hret).
  destruct (superstepBody m w) as [r m2 w2|msg m2 w2|m2 w2|m2 w2] eqn:Hbody;
    simpl in *.
  2, 3: by (split; [done|]; split; [simpl; lia|done]).
  2: by destruct (Hrun m2 w2).
  specialize (Hret _ _ _ eq_refl).
  assert (Hcp : checkpointFn m2 = checkpointFn m) by by destruct Hf as (_&?&_).
  assert (Hcalled : checkpointFn m (superstep (m_jobInfo m)) = true →
            ∃ pmap, CallPersistMaster (superstep (m_jobInfo m)) pmap
                      ∈ addedTrace w w2).
  { intros Hc. rewrite Hc in Hret. destruct Hret as (_ & w1 & -> & [k Hk]).
    exists (partitionMap m2). unfold addedTrace, persisted. simpl.
    rewrite Hk, <- app_assoc, drop_app_length, Hs.
    apply elem_of_app. right. constructor. }
  assert (Hpre : trace w `prefix_of` trace w2) by by destruct Hf as (_&_&_&_&?).
  destruct r as [e|].
  - split; [done|]. split; [simpl; lia|]. simpl.
    destruct (checkpointFn m (superstep (m_jobInfo m))) eqn:Hc; [|done].
    destruct Hret as (-> & _). split; [|done]. by rewrite Hcp, Hs.
  - unfold nextSuperstep. munfold. fold (stepped m2).
    assert (Hs1 : (0 ≤ superstep (m_jobInfo m) →
                   0 ≤ superstep (m_jobInfo (stepped m2))
                     ≤ superstep (m_jobInfo m) + 1)%Z).
    { intros ?. simpl. rewrite Hs. by apply uint64_succ_le. }
    destruct (IH (stepped m2) w2) as (Hf' & Hcalls & Hend).
    set (o := computeLoop fuel (stepped m2) w2) in *.
    assert (Hpre' : trace w2 `prefix_of` trace (stateOf o).2)
      by by destruct Hf' as (_&_&_&_&?).
    split; [|split].
    + eapply loopFrame_trans; [exact Hf|].
      destruct Hf' as (?&?&?&?&?). by split_and!.
    + intros s Hrange Hlt Hc.
      destruct (decide (s = superstep (m_jobInfo m))) as [->|Hne].
      * destruct (Hcalled Hc) as [pmap Hin]. exists pmap.
        by eapply addedTrace_earlier.
      * destruct (Hcalls s) as [pmap Hin]; [lia|done|simpl; by rewrite Hcp|].
        exists pmap. by eapply addedTrace_later.
    + done.
Qed.

Lemma not_loopDone m : ¬ loopDone m → workLeft m ∧ ¬ hitMaxSteps m.
Proof.
  unfold loopDone. intros H. split.
  - destruct (decide (workLeft m)); [done|]. destruct H. by left.
  - intros ?. destruct H. by right.
Qed.

Lemma computeLoop_body fuel m w :
  ¬ loopDone m → computeLoop (S fuel) m w = afterPhases fuel m w.
Proof.
  intros [Hwork Hmax]%not_loopDone. simpl. munfold.
  rewrite decide_True, decide_False by done.
  rewrite superstepBody_eq. unfold afterPhases, afterSuperstep.
  destruct (executePhase PHASE_STEP_PREPARE m w) as [e1 m1 w1| | |]; try done.
  destruct (executePhase PHASE_SUPERSTEP m1 w1) as [e2 m2 w2| | |]; try done.
  destruct (checkpointFn m2 (superstep (m_jobInfo m2))); [|done].
  by destruct (PersistMaster _ _ _).
Qed.

(** C1, as the code has it.  At a test of its condition the loop leaves,
    returning no error, exactly when no work is left (the committed
    [activeVerts] and [sentMsgs] are both 0) or a limit is set
    ([MaxSteps > 0]) and the superstep has reached it.  Otherwise the
    iteration runs [executePhase(STEP_PREPARE)] and then
    [executePhase(SUPERSTEP)] from the state the first left, and after them
    the checkpoint and the next test.  A run that returns does so with no
    error in a state where the loop is done in this sense, or with the error
    of a [PersistMaster] call that [checkpointFn] asked for. *)
Theorem computeLoop_exits_iff_done :
  (∀ fuel m w, loopDone m ↔ computeLoop (S fuel) m w = Ret None m w) ∧
  (∀ fuel m w, ¬ loopDone m →
     computeLoop (S fuel) m w = afterPhases fuel m w) ∧
  (∀ fuel m w r m' w',
     compute fuel m w = Ret r m' w' →
     match r with
     | None => loopDone m'
     | Some e =>
         checkpointFn m' (superstep (m_jobInfo m')) = true ∧
         PersistMaster (persister m') (superstep (m_jobInfo m'))
           (partitionMap m') = Some e
     end).
Proof.
  split; [|split].
  - intros fuel m w. split.
    + intros Hdone. simpl. munfold.
      destruct (decide (workLeft m)) as [Hwork|Hwork]; [|done].
      destruct (decide (hitMaxSteps m)) as [Hmax|Hmax]; [done|].
      by destruct Hdone.
    + intros Hret. pose proof (computeLoop_run (S fuel) m w) as (_ & _ & Hend).
      by rewrite Hret in Hend.
  - intros fuel m w. apply computeLoop_body.
  - intros fuel m w r m' w' Hret. unfold compute in Hret. munfold.
    pose proof (computeLoop_run fuel
      (set_jobInfo (set_superstep 0 (m_jobInfo m)) m) w) as (_ & _ & Hend).
    rewrite Hret in Hend. by destruct r.
Qed.

(** C1, the claim as the specification words it, fails: with [MaxSteps = 0]
    the superstep has reached [MaxSteps] from the start, yet the loop of the
    sample master with an active vertex goes into its body. *)
Lemma computeLoop_unlimited_when_MaxSteps_zero :
  ¬ exitsAtMaxSteps 0 busyMaster twoSupersteps.
Proof.
  unfold exitsAtMaxSteps. intros [H _].
  assert (Hreached : ¬ workLeft busyMaster ∨
            (MaxSteps (Config busyMaster) ≤ superstep (m_jobInfo busyMaster))%Z).
  { right. vm_compute. discriminate. }
  specialize (H Hreached). vm_compute in H. discriminate H.
Qed.

(** ** Checkpoints *)

Lemma legacy_barrierLoop_frame bmap m ch m' ch' :
  Legacy.barrierLoop bmap m ch = Legacy.Done (m', ch') →
  Legacy.failedWorkers m' = Legacy.failedWorkers m ∧
  Legacy.checkpointFn m' = Legacy.checkpointFn m ∧
  Legacy.superstep m' = Legacy.superstep m ∧
  Legacy.currPhase m' = Legacy.currPhase m ∧
  Legacy.lastCheckpoint (Legacy.m_jobInfo m')
    = Legacy.lastCheckpoint (Legacy.m_jobInfo m).
Proof.
  revert bmap m. induction ch as [|ps ch IH]; intros bmap m; simpl; [done|].
  destruct (decide (Legacy.ConfigJobId m ≠ Legacy.JobId ps)); [done|].
  destruct (decide (Legacy.currPhase m ≠ Legacy.PhaseId ps)); [done|].
  destruct (Legacy.Error ps) as [[msg|msg]|]; simpl; try done.
  - destruct (decide (_ = _)).
    + by intros [= <- <-].
    + intros Hl. by destruct (IH _ _ Hl) as (?&?&?&?&?).
  - destruct (decide (_ = _)).
    + by intros [= <- <-].
    + intros Hl. by destruct (IH _ _ Hl) as (?&?&?&?&?).
Qed.

(** C7, as the code has it.  In the master that has a persister:
    - an iteration whose two phases return, at a superstep [s] of which
      [checkpointFn] holds, calls [PersistMaster(s, partitionMap)] next, with
      the partition map as the superstep phase left it; the loop returns the
      error of the call, if any, and goes round otherwise;
    - in every run of [compute], however it ends, each superstep below the
      final one of which [checkpointFn] holds has been persisted during the
      run, and [lastCheckpoint] is what it was before the run.
    In the earlier master, which has no persister, [executePhase] of the
    superstep phase without failed workers sets [lastCheckpoint] to the
    superstep when [checkpointFn] holds of it. *)
Theorem compute_persists_and_keeps_lastCheckpoint :
  (∀ fuel m w e1 m1 w1 e2 m2 w2,
     ¬ loopDone m →
     executePhase PHASE_STEP_PREPARE m w = Ret e1 m1 w1 →
     executePhase PHASE_SUPERSTEP m1 w1 = Ret e2 m2 w2 →
     checkpointFn m (superstep (m_jobInfo m)) = true →
     superstep (m_jobInfo m2) = superstep (m_jobInfo m) ∧
     trace (persisted m2 w2) =
       trace w2 ++ [CallPersistMaster (superstep (m_jobInfo m)) (partitionMap m2)] ∧
     computeLoop (S fuel) m w =
       match PersistMaster (persister m) (superstep (m_jobInfo m))
               (partitionMap m2) with
       | Some e => Ret (Some e) m2 (persisted m2 w2)
       | None => computeLoop fuel (stepped m2) (persisted m2 w2)
       end) ∧
  (∀ fuel m w,
     lastCheckpoint (m_jobInfo (stateOf (compute fuel m w)).1)
       = lastCheckpoint (m_jobInfo m) ∧
     ∀ s, (0 ≤ s < superstep (m_jobInfo (stateOf (compute fuel m w)).1))%Z →
          checkpointFn m s = true →
          ∃ pmap, CallPersistMaster s pmap
                    ∈ addedTrace w (stateOf (compute fuel m w)).2) ∧
  (∀ orders m ch m' ch',
     Legacy.executePhase orders Legacy.phaseSUPERSTEP m ch = Legacy.Done (m', ch') →
     Legacy.failedWorkers m = [] →
     Legacy.checkpointFn m (Legacy.superstep m) = true →
     Legacy.lastCheckpoint (Legacy.m_jobInfo m') = Legacy.superstep m).
Proof.
  split; [|split].
  - intros fuel m w e1 m1 w1 e2 m2 w2 Hgo H1 H2 Hc.
    destruct (executePhase_frame PHASE_STEP_PREPARE m w) as (Hf1 & Hs1 & _).
    destruct (executePhase_frame PHASE_SUPERSTEP m1 w1) as (Hf2 & Hs2 & _).
    rewrite H1 in Hf1, Hs1. rewrite H2 in Hf2, Hs2.
    simpl in Hf1, Hs1, Hf2, Hs2.
    destruct (loopFrame_trans _ _ _ _ _ _ Hf1 Hf2) as (_ & Hcp & Hp & _).
    assert (Hs : superstep (m_jobInfo m2) = superstep (m_jobInfo m))
      by congruence.
    split; [done|]. split; [unfold persisted; simpl; by rewrite Hs|].
    rewrite computeLoop_body by done. unfold afterPhases, afterSuperstep.
    by rewrite H1, H2, Hcp, Hp, Hs, Hc.
  - intros fuel m w. unfold compute. munfold.
    pose proof (computeLoop_run fuel
      (set_jobInfo (set_superstep 0 (m_jobInfo m)) m) w) as (Hf & Hcalls & _).
    split; [by destruct Hf as (_&_&_&?&_)|].
    intros s Hs Hc. apply Hcalls; simpl; [lia|lia|done].
  - intros orders m ch m' ch'. unfold Legacy.executePhase, Legacy.barrier.
    destruct (Legacy.barrierLoop _ _ ch) as [[mb chb]| | |] eqn:Hb; try done.
    apply legacy_barrierLoop_frame in Hb as (Hfw & Hcp & Hs & Hph & _).
    simpl in Hfw, Hcp, Hs, Hph.
    intros Hx Hnil Hc. rewrite Hfw, Hnil in Hx.
    rewrite decide_False in Hx by (simpl; lia).
    rewrite decide_True in Hx by done.
    rewrite Hcp, Hs, Hc in Hx. by injection Hx as <- <-.
Qed.

(** C7, the claim as the specification words it, fails: the sample master
    that checkpoints every superstep completes supersteps 0 and 1 and
    returns, and [lastCheckpoint] still has its first value 0, not 1. *)
Lemma compute_never_sets_lastCheckpoint :
  ¬ checkpointRecorded 3 checkpointingMaster twoSupersteps.
Proof.
  intros H.
  destruct (compute 3 checkpointingMaster twoSupersteps)
    as [r m' w'| | |] eqn:E.
  - pose proof E as E0. vm_compute in E0. injection E0 as Hr Hm Hw.
    destruct (H r m' w' 1%Z E) as [_ Hlast].
    + rewrite <- Hm. reflexivity.
    + reflexivity.
    + rewrite <- Hm in Hlast. vm_compute in Hlast. discriminate Hlast.
  - vm_compute in E. discriminate E.
  - vm_compute in E. discriminate E.
  - vm_compute in E. discriminate E.
Qed.

(** ** Failure purge *)

Lemma purgeScan_spec order acc pool :
  NoDup order →
  (∀ hp, (purgeScan order acc pool).2 !! hp =
     match pool !! hp with
     | Some info =>
         if failed info && bool_decide (hp ∈ order) then None else Some info
     | None => None
     end) ∧
  (∀ info, info ∈ (purgeScan order acc pool).1 ↔
     info ∈ acc ∨ ∃ hp, hp ∈ order ∧ pool !! hp = Some info ∧ failed info = true).
Proof.
  revert acc pool. induction order as [|hp order IH]; intros acc pool Hnd; simpl.
  - split.
    + intros hp. destruct (pool !! hp) as [info|]; [|done].
      by rewrite andb_false_r.
    + intros info. split; [by left|]. intros [?|(?&?%elem_of_nil&_)]; done.
  - apply NoDup_cons in Hnd as [Hnotin Hnd].
    destruct (pool !! hp) as [info|] eqn:Hhp; [destruct (failed info) eqn:Hf|].
    + destruct (IH (acc ++ [info]) (delete hp pool) Hnd) as [IH1 IH2]. split.
      * intros k. rewrite IH1. destruct (decide (k = hp)) as [->|Hne].
        -- rewrite lookup_delete_eq, Hhp, Hf. simpl.
           by rewrite bool_decide_eq_true_2 by left.
        -- rewrite lookup_delete_ne by done.
           destruct (pool !! k) as [i|]; [|done].
           by rewrite (bool_decide_ext (k ∈ hp :: order) (k ∈ order))
             by set_solver.
      * intros i. rewrite IH2, elem_of_app, list_elem_of_singleton. split.
        -- intros [[?| ->]|(k & Hk & Hl & Hfk)]; [by left| |].
           ++ right. exists hp. split; [left|done].
           ++ right. exists k. split; [by right|].
              destruct (decide (k = hp)) as [->|Hne]; [done|].
              by rewrite lookup_delete_ne in Hl.
        -- intros [?|(k & Hk & Hl & Hfk)]; [by left; left|].
           apply elem_of_cons in Hk as [->|Hk].
           ++ left. right. congruence.
           ++ right. exists k. split; [done|].
              rewrite lookup_delete_ne; [done|]. by intros ->.
    + destruct (IH acc pool Hnd) as [IH1 IH2]. split.
      * intros k. rewrite IH1. destruct (pool !! k) as [i|] eqn:Hk; [|done].
        destruct (decide (k = hp)) as [->|Hne].
        -- assert (i = info) as -> by congruence. by rewrite Hf.
        -- by rewrite (bool_decide_ext (k ∈ hp :: order) (k ∈ order))
             by set_solver.
      * intros i. rewrite IH2. split.
        -- intros [?|(k & Hk & Hl & Hfk)]; [by left|].
           right. exists k. split; [by right|done].
        -- intros [?|(k & Hk & Hl & Hfk)]; [by left|].
           apply elem_of_cons in Hk as [->|Hk]; [congruence|].
           right. by exists k.
    + destruct (IH acc pool Hnd) as [IH1 IH2]. split.
      * intros k. rewrite IH1. destruct (pool !! k) as [i|] eqn:Hk; [|done].
        destruct (decide (k = hp)) as [->|Hne]; [congruence|].
        by rewrite (bool_decide_ext (k ∈ hp :: order) (k ∈ order))
          by set_solver.
      * intros i. rewrite IH2. split.
        -- intros [?|(k & Hk & Hl & Hfk)]; [by left|].
           right. exists k. split; [by right|done].
        -- intros [?|(k & Hk & Hl & Hfk)]; [by left|].
           apply elem_of_cons in Hk as [->|Hk]; [congruence|].
           right. by exists k.
Qed.

Lemma range_keys (pool : gmap string workerInfo) order :
  order ≡ₚ (map_to_list pool).*1 →
  NoDup order ∧ ∀ hp, hp ∈ order ↔ is_Some (pool !! hp).
Proof.
  intros Hperm. split.
  - rewrite Hperm. apply NoDup_fst_map_to_list.
  - intros hp. rewrite Hperm, list_elem_of_fmap. split.
    + intros ([k info] & -> & Hin). apply elem_of_map_to_list in Hin. by eexists.
    + intros [info Hl]. exists (hp, info). split; [done|].
      by apply elem_of_map_to_list.
Qed.

Lemma pickNewOwner_elem order moveId :
  order ≠ [] → moveId ∉ order → pickNewOwner order moveId ∈ order.
Proof.
  destruct order as [|hp order]; [done|]. intros _ Hout. simpl.
  rewrite decide_True; [left|]. intros ->. apply Hout. left.
Qed.

Lemma moveAll_owners failedWorkers m w :
  workerPool m ≠ ∅ →
  (∀ hp, hp ∈ namesOf failedWorkers → workerPool m !! hp = None) →
  ∃ m' w', moveAll failedWorkers m w = Ret None m' w' ∧
    workerPool m' = workerPool m ∧
    ∀ pid,
      match partitionMap m !! pid with
      | None => partitionMap m' !! pid = None
      | Some wid =>
          ∃ wid', partitionMap m' !! pid = Some wid' ∧
            if decide (wid ∈ namesOf failedWorkers)
            then is_Some (workerPool m !! wid') else wid' = wid
      end.
Proof.
  revert m w. induction failedWorkers as [|info rest IH]; intros m w Hne Hgone.
  - exists m, w. split; [done|]. split; [done|]. intros pid.
    destruct (partitionMap m !! pid) as [wid|]; [|done].
    exists wid. split; [done|]. rewrite decide_False; [done|]. set_solver.
  - simpl. set (moveId := JoinHostPort (host info) (port info)).
    destruct (movePartitions_spec moveId m w) as (order & w1 & Hmv & Hperm & _).
    munfold. rewrite Hmv.
    destruct (range_keys _ _ Hperm) as [_ Hkeys].
    assert (Hnew : is_Some (workerPool m !! pickNewOwner order moveId)).
    { apply Hkeys, pickNewOwner_elem.
      - intros ->. apply Hne. apply map_eq. intros k. rewrite lookup_empty.
        destruct (workerPool m !! k) eqn:Hk; [|done].
        assert (k ∈ @nil string) as Hin by (apply Hkeys; eauto).
        by apply elem_of_nil in Hin.
      - intros Hin. apply Hkeys in Hin as [i Hi].
        rewrite Hgone in Hi; [done|]. unfold namesOf. simpl. left. }
    set (m1 := set_partitionMap _ m).
    destruct (IH m1 w1) as (m' & w' & Hall & Hpool & Hown); [done| |].
    { intros hp Hin. apply Hgone. unfold namesOf. simpl. by right. }
    exists m', w'. split; [done|]. split; [done|]. intros pid.
    specialize (Hown pid). subst m1. simpl in Hown.
    rewrite lookup_fmap in Hown.
    destruct (partitionMap m !! pid) as [wid|]; simpl in *; [|done].
    destruct Hown as (wid' & Hl & Hcase). exists wid'. split; [done|].
    destruct (decide (wid = moveId)) as [->|Hneq].
    + rewrite decide_True by (unfold namesOf; simpl; left).
      destruct (decide (_ ∈ namesOf rest)) as [Hin|Hout]; [done|].
      by rewrite Hcase.
    + destruct (decide (wid ∈ namesOf rest)) as [Hin|Hout].
      * rewrite decide_True; [done|]. unfold namesOf. simpl. by right.
      * rewrite decide_False; [done|]. unfold namesOf. simpl.
        intros [?|?]%elem_of_cons; done.
Qed.

(** C8.  Let [m1] be the master once [purgeFailedWorkers] holds the pool
    lock, with its records filed under their host and port.  The purge
    returns, and the pool it leaves holds exactly the records of [m1] that
    are not marked failed (the live workers).
    - If no live worker remains, the error "no workers left" is returned and
      the partition map is as it was.
    - Otherwise no error is returned; the map has the same partitions; every
      partition that a worker of the pool owned is owned by a live worker
      (so if every partition was owned by a worker of the pool, every
      partition is owned by a live worker afterwards); and every partition
      whose owner was not a failed worker keeps its owner. *)
Theorem purgeFailedWorkers_reassigns (m : Master) (w : World)
    (m1 : Master) (w1 : World) :
  poolLock_Lock m w = Ret tt m1 w1 →
  wfPool (workerPool m1) →
  ∃ r m' w',
    purgeFailedWorkers m w = Ret r m' w' ∧
    (∀ hp info, workerPool m' !! hp = Some info ↔
                workerPool m1 !! hp = Some info ∧ failed info = false) ∧
    (workerPool m' = ∅ →
       r = Some "no workers left"%string ∧ partitionMap m' = partitionMap m1) ∧
    (workerPool m' ≠ ∅ →
       r = None ∧
       (∀ pid, is_Some (partitionMap m' !! pid) ↔
               is_Some (partitionMap m1 !! pid)) ∧
       (∀ pid wid, partitionMap m1 !! pid = Some wid →
          is_Some (workerPool m1 !! wid) →
          ∃ wid', partitionMap m' !! pid = Some wid' ∧
                  is_Some (workerPool m' !! wid')) ∧
       (ownersIn (partitionMap m1) (workerPool m1) →
        ownersIn (partitionMap m') (workerPool m')) ∧
       (∀ pid wid, partitionMap m1 !! pid = Some wid →
          ¬ failedIn (workerPool m1) wid →
          partitionMap m' !! pid = Some wid)).
Proof.
  intros Hlock Hwf. unfold purgeFailedWorkers. munfold. rewrite Hlock.
  destruct (rangeWorkerPool_spec m1 w1) as (order & w2 & -> & Hperm & _).
  destruct (range_keys _ _ Hperm) as [Hnd Hkeys].
  destruct (purgeScan_spec order [] (workerPool m1) Hnd) as [Hpool Hfw].
  destruct (purgeScan order [] (workerPool m1)) as [fw pool] eqn:Hscan.
  simpl in Hpool, Hfw.
  assert (Hlive : ∀ hp info, pool !! hp = Some info ↔
            workerPool m1 !! hp = Some info ∧ failed info = false).
  { intros hp info. rewrite Hpool.
    destruct (workerPool m1 !! hp) as [i|] eqn:Hi;
      [|split; [done|by intros [? _]]].
    rewrite bool_decide_eq_true_2 by (apply Hkeys; eauto).
    destruct (failed i) eqn:Hf; simpl.
    - split; [done|]. intros [[= ->] ?]. congruence.
    - split; [by intros [= ->]|by intros [? _]]. }
  assert (Hnames : ∀ hp, hp ∈ namesOf fw ↔ failedIn (workerPool m1) hp).
  { intros hp. unfold namesOf, failedIn. rewrite list_elem_of_fmap. split.
    - intros (info & -> & Hin). apply Hfw in Hin as [Hin|(k & _ & Hk & Hf)].
      + by apply elem_of_nil in Hin.
      + exists info. by rewrite (Hwf k info Hk).
    - intros (info & Hl & Hf). exists info. split; [by rewrite (Hwf hp info Hl)|].
      apply Hfw. right. exists hp. split; [apply Hkeys; eauto|done]. }
  destruct (decide (size pool = 0)) as [Hz|Hnz].
  - apply map_size_empty_iff in Hz as ->.
    eexists _, _, _. split; [reflexivity|]. simpl.
    split; [done|]. split; [done|]. by intros [].
  - assert (Hne : pool ≠ ∅) by (by intros ->).
    destruct (moveAll_owners fw (set_workerPool pool m1) w2)
      as (m' & w' & Hmv & Hp' & Hown); [done| |].
    { simpl. intros hp (info & Hl & Hf)%Hnames.
      destruct (pool !! hp) as [i|] eqn:Hi; [|done].
      apply Hlive in Hi as [Hi Hfi]. congruence. }
    simpl in Hp', Hown. exists None, m', w'. split; [done|].
    rewrite Hp'. split; [done|]. split; [done|]. intros _. split; [done|].
    assert (Hmoved : ∀ pid wid, partitionMap m1 !! pid = Some wid →
              ∃ wid', partitionMap m' !! pid = Some wid' ∧
                (failedIn (workerPool m1) wid → is_Some (pool !! wid')) ∧
                (¬ failedIn (workerPool m1) wid → wid' = wid)).
    { intros pid wid Hl. specialize (Hown pid). rewrite Hl in Hown.
      destruct Hown as (wid' & Hl' & Hcase). exists wid'. split; [done|].
      destruct (decide (wid ∈ namesOf fw)) as [Hin|Hout].
      - split; [done|]. intros Hnf. by apply Hnames in Hin.
      - split; [|done]. intros Hf. by apply Hnames in Hf. }
    assert (Hone : ∀ pid wid, partitionMap m1 !! pid = Some wid →
              is_Some (workerPool m1 !! wid) →
              ∃ wid', partitionMap m' !! pid = Some wid' ∧ is_Some (pool !! wid')).
    { intros pid wid Hl [info Hinfo].
      destruct (Hmoved pid wid Hl) as (wid' & Hl' & Hfailed & Hkept).
      exists wid'. split; [done|].
      destruct (failed info) eqn:Hf.
      - apply Hfailed. by exists info.
      - rewrite Hkept.
        + exists info. by apply Hlive.
        + intros (i & Hi & Hfi). congruence. }
    split; [|split; [done|split]].
    + intros pid. specialize (Hown pid).
      destruct (partitionMap m1 !! pid) as [wid|].
      * destruct Hown as (wid' & -> & _). split; eauto.
      * rewrite Hown. done.
    + intros Hall pid wid' Hl'.
      destruct (partitionMap m1 !! pid) as [wid|] eqn:Hl.
      * destruct (Hone pid wid Hl (Hall pid wid Hl)) as (wid'' & Hl'' & Hin).
        congruence.
      * specialize (Hown pid). rewrite Hl in Hown. congruence.
    + intros pid wid Hl Hnf.
      destruct (Hmoved pid wid Hl) as (wid' & Hl' & _ & Hkept).
      by rewrite Hl', Hkept.
Qed.

(** The theorem at the master with one live and one failed worker. *)
Lemma purgeFailedWorkers_reassigns_witness :
  poolLock_Lock halfFailedMaster (quietWorld [])
    = Ret tt halfFailedMaster (quietWorld []) ∧
  wfPool (workerPool halfFailedMaster) ∧
  ∃ r m' w',
    purgeFailedWorkers halfFailedMaster (quietWorld []) = Ret r m' w' ∧
    (∀ hp info, workerPool m' !! hp = Some info ↔
                workerPool halfFailedMaster !! hp = Some info ∧
                failed info = false) ∧
    (workerPool m' = ∅ →
       r = Some "no workers left"%string ∧
       partitionMap m' = partitionMap halfFailedMaster) ∧
    (workerPool m' ≠ ∅ →
       r = None ∧
       (∀ pid, is_Some (partitionMap m' !! pid) ↔
               is_Some (partitionMap halfFailedMaster !! pid)) ∧
       (∀ pid wid, partitionMap halfFailedMaster !! pid = Some wid →
          is_Some (workerPool halfFailedMaster !! wid) →
          ∃ wid', partitionMap m' !! pid = Some wid' ∧
                  is_Some (workerPool m' !! wid')) ∧
       (ownersIn (partitionMap halfFailedMaster) (workerPool halfFailedMaster) →
        ownersIn (partitionMap m') (workerPool m')) ∧
       (∀ pid wid, partitionMap halfFailedMaster !! pid = Some wid →
          ¬ failedIn (workerPool halfFailedMaster) wid →
          partitionMap m' !! pid = Some wid)).
Proof.
  assert (Hwf : wfPool (workerPool halfFailedMaster)).
  { apply (bool_decide_unpack _). vm_compute. exact I. }
  split; [reflexivity|]. split; [exact Hwf|].
  apply (purgeFailedWorkers_reassigns halfFailedMaster (quietWorld [])
           halfFailedMaster (quietWorld [])); [reflexivity|exact Hwf].
Defined.

(** ** Partition assignment *)




Lemma ownedBy_insert_fresh pmap pid x hp :
  pmap !! pid = None →
  ownedBy (<[pid := x]> pmap) hp =
    ownedBy pmap hp + (if decide (x = hp) then 1 else 0).
Proof.
  intros Hfresh. unfold ownedBy. destruct (decide (x = hp)) as [->|Hne].
  - rewrite map_filter_insert_True by done.
    rewrite map_size_insert_None; [lia|].
    apply map_lookup_filter_None. by left.
  - rewrite map_filter_insert_False by done.
    rewrite delete_id by done. lia.
Qed.

Lemma assignPass_spec order c pmap :
  (0 ≤ c)%Z → (c + Z.of_nat (length order) ≤ GoInt.two64)%Z →
  (∀ pid, (c ≤ pid)%Z → pmap !! pid = None) →
  (assignPass order (GoInt.int64 c) pmap).1
    = GoInt.int64 (c + Z.of_nat (length order)) ∧
  (∀ pid, (pid < c)%Z →
     (assignPass order (GoInt.int64 c) pmap).2 !! pid = pmap !! pid) ∧
  (∀ pid, (c + Z.of_nat (length order) ≤ pid)%Z →
     (assignPass order (GoInt.int64 c) pmap).2 !! pid = None) ∧
  (∀ j : nat, j < length order →
     (assignPass order (GoInt.int64 c) pmap).2 !! (c + Z.of_nat j)%Z
       = order !! j) ∧
  (∀ hp, ownedBy (assignPass order (GoInt.int64 c) pmap).2 hp =
     ownedBy pmap hp + length (filter (λ x, x = hp) order)).
Proof.
  revert c pmap. induction order as [|x order IH]; intros c pmap Hc Hmax Hfresh.
  - simpl. rewrite Z.add_0_r. split_and!; try done.
    intros j Hj. lia.
  - cbn [assignPass]. rewrite int64_int64_succ, uint64_int64.
    cbn [length] in *. rewrite uint64_small by (unfold GoInt.two64 in *; lia).
    destruct (IH (c + 1)%Z (<[c := x]> pmap)) as (H1 & H2 & H3 & H4 & H5);
      [lia|lia| |].
    { intros pid Hpid. rewrite lookup_insert_ne by lia. apply Hfresh. lia. }
    split_and!.
    + rewrite H1. f_equal. lia.
    + intros pid Hpid. rewrite H2 by lia. by rewrite lookup_insert_ne by lia.
    + intros pid Hpid. apply H3. lia.
    + intros [|j] Hj.
      * rewrite Z.add_0_r, H2 by lia. by rewrite lookup_insert_eq.
      * replace (c + Z.of_nat (S j))%Z with (c + 1 + Z.of_nat j)%Z by lia.
        rewrite H4 by lia. done.
    + intros hp. rewrite H5, ownedBy_insert_fresh by (apply Hfresh; lia).
      rewrite filter_cons. destruct (decide (x = hp)); simpl; lia.
Qed.

Lemma filter_eq_NoDup (l : list string) x :
  NoDup l →
  length (filter (λ y, y = x) l) = if decide (x ∈ l) then 1 else 0.
Proof.
  induction 1 as [|y l Hy Hnd IH]; [done|].
  rewrite filter_cons. destruct (decide (y = x)) as [->|Hne]; simpl.
  - rewrite IH, decide_False, decide_True by set_solver. done.
  - rewrite IH. destruct (decide (x ∈ l)).
    + by rewrite decide_True by set_solver.
    + by rewrite decide_False by set_solver.
Qed.


Lemma range_length (pool : gmap string workerInfo) order :
  order ≡ₚ (map_to_list pool).*1 → length order = size pool.
Proof.
  intros ->. by rewrite length_fmap, length_map_to_list.
Qed.

Lemma assignPasses_spec n c m w :
  (0 ≤ c)%Z →
  (c + Z.of_nat n * Z.of_nat (size (workerPool m)) ≤ GoInt.two64)%Z →
  (∀ pid, (c ≤ pid)%Z → partitionMap m !! pid = None) →
  ∃ m' w',
    assignPasses n (GoInt.int64 c) m w = Ret tt m' w' ∧
    workerPool m' = workerPool m ∧
    (∀ pid, (pid < c)%Z → partitionMap m' !! pid = partitionMap m !! pid) ∧
    (∀ pid, (c + Z.of_nat n * Z.of_nat (size (workerPool m)) ≤ pid)%Z →
       partitionMap m' !! pid = None) ∧
    (∀ pid, (c ≤ pid < c + Z.of_nat n * Z.of_nat (size (workerPool m)))%Z →
       ∃ hp, partitionMap m' !! pid = Some hp ∧ is_Some (workerPool m !! hp)) ∧
    (∀ (i : nat) hp, i < n → is_Some (workerPool m !! hp) →
       ∃ pid,
         (c + Z.of_nat i * Z.of_nat (size (workerPool m)) ≤ pid
            < c + (Z.of_nat i + 1) * Z.of_nat (size (workerPool m)))%Z ∧
         partitionMap m' !! pid = Some hp) ∧
    (∀ hp, ownedBy (partitionMap m') hp =
       ownedBy (partitionMap m) hp +
       (if decide (is_Some (workerPool m !! hp)) then n else 0)).
Proof.
  revert c m w. induction n as [|n IH]; intros c m w Hc Hmax Hfresh.
  - exists m, w. simpl. split_and!; try done.
    + intros pid Hpid. apply Hfresh. lia.
    + intros pid Hpid. lia.
    + intros i hp Hi. lia.
    + intros hp. case_decide; lia.
  - cbn [assignPasses]. munfold.
    destruct (rangeWorkerPool_spec m w) as (order & w1 & -> & Hperm & _).
    destruct (range_keys _ _ Hperm) as [Hnd Hkeys].
    pose proof (range_length _ _ Hperm) as Hlen.
    set (W := size (workerPool m)) in *.
    destruct (assignPass_spec order c (partitionMap m))
      as (H1 & H2 & H3 & H4 & H5); [done|nia|done|].
    destruct (assignPass order (GoInt.int64 c) (partitionMap m))
      as [p' pm1] eqn:Hpass.
    simpl in H1, H2, H3, H4, H5. subst p'. rewrite Hlen in *.
    destruct (IH (c + Z.of_nat W)%Z (set_partitionMap pm1 m) w1)
      as (m' & w' & Hrun & Hpool & I1 & I2 & I3 & I4 & I5);
      [lia|simpl; fold W; nia|done|].
    simpl in Hpool, I1, I2, I3, I4, I5. fold W in I2, I3, I4.
    exists m', w'. split; [done|]. split; [done|].
    assert (Hblock : ∀ pid, (c ≤ pid < c + Z.of_nat W)%Z →
              partitionMap m' !! pid = order !! Z.to_nat (pid - c)).
    { intros pid Hpid. rewrite I1 by lia.
      replace pid with (c + Z.of_nat (Z.to_nat (pid - c)))%Z at 1 by lia.
      apply H4. lia. }
    split_and!.
    + intros pid Hpid. rewrite I1, H2 by lia. done.
    + intros pid Hpid. apply I2. nia.
    + intros pid Hpid. destruct (decide (pid < c + Z.of_nat W)%Z) as [Hlt|Hge].
      * rewrite Hblock by lia.
        destruct (lookup_lt_is_Some_2 order (Z.to_nat (pid - c))) as [hp Hhp];
          [lia|].
        exists hp. split; [done|]. apply Hkeys. by eapply list_elem_of_lookup_2.
      * apply I3. nia.
    + intros [|i] hp Hi Hhp.
      * apply Hkeys in Hhp. apply list_elem_of_lookup_1 in Hhp as [j Hj].
        pose proof (lookup_lt_Some _ _ _ Hj) as Hjlt.
        exists (c + Z.of_nat j)%Z. split; [lia|].
        rewrite Hblock by lia. by replace (Z.to_nat (c + Z.of_nat j - c)) with j by lia.
      * destruct (I4 i hp) as (pid & Hpid & Hl); [lia|done|].
        exists pid. split; [nia|done].
    + intros hp. rewrite I5, H5, filter_eq_NoDup by done.
      destruct (decide (is_Some (workerPool m !! hp))) as [Hin|Hout].
      * rewrite decide_True by (by apply Hkeys). lia.
      * rewrite decide_False by (by rewrite Hkeys). lia.
Qed.

(** C9, as the code has it.  For a non-empty pool of [W] workers and
    [MinPartitionsPerWorker = k] with [k < 2^63] (the loop bound is [int(k)])
    and [k × W ≤ 2^64] (the partition counter does not wrap),
    [determinePartitions] leaves a partition map whose keys are exactly the
    integers of [[0, k × W)]; each of the [k] passes gives the [W] partitions
    that follow to the workers of the pool, one each; so every worker owns
    exactly [k] partitions, and every partition is owned by a worker of the
    pool. *)
Theorem determinePartitions_round_robin (m : Master) (w : World) :
  (0 ≤ MinPartitionsPerWorker (Config m) < GoInt.two63)%Z →
  workerPool m ≠ ∅ →
  (MinPartitionsPerWorker (Config m) * Z.of_nat (size (workerPool m))
     ≤ GoInt.two64)%Z →
  ∃ m' w',
    determinePartitions m w = Ret tt m' w' ∧
    workerPool m' = workerPool m ∧
    (∀ pid, is_Some (partitionMap m' !! pid) ↔
       (0 ≤ pid < MinPartitionsPerWorker (Config m)
                  * Z.of_nat (size (workerPool m)))%Z) ∧
    (∀ i hp, (0 ≤ i < MinPartitionsPerWorker (Config m))%Z →
       is_Some (workerPool m !! hp) →
       ∃ pid,
         (i * Z.of_nat (size (workerPool m)) ≤ pid
            < (i + 1) * Z.of_nat (size (workerPool m)))%Z ∧
         partitionMap m' !! pid = Some hp) ∧
    (∀ hp, is_Some (workerPool m !! hp) →
       Z.of_nat (ownedBy (partitionMap m') hp)
         = MinPartitionsPerWorker (Config m)) ∧
    ownersIn (partitionMap m') (workerPool m').
Proof.
  intros Hk Hne Hmax. unfold determinePartitions. munfold. simpl.
  set (k := MinPartitionsPerWorker (Config m)) in *.
  rewrite (int64_small k) by (unfold GoInt.two63 in *; lia).
  change 0%Z with (GoInt.int64 0) at 1.
  destruct (assignPasses_spec (Z.to_nat k) 0 (set_partitionMap ∅ m) w)
    as (m' & w' & Hrun & Hpool & I1 & I2 & I3 & I4 & I5);
    [done|simpl; lia|done|].
  simpl in Hpool, I1, I2, I3, I4, I5.
  rewrite Z2Nat.id in I2, I3 by lia.
  assert (Hdom : ∀ pid, is_Some (partitionMap m' !! pid) →
            (0 ≤ pid < k * Z.of_nat (size (workerPool m)))%Z).
  { intros pid [hp Hhp].
    destruct (decide (pid < 0)%Z) as [Hneg|Hpos].
    { by rewrite I1, lookup_empty in Hhp by done. }
    destruct (decide (pid < k * Z.of_nat (size (workerPool m)))%Z)
      as [Hlt|Hge]; [lia|].
    rewrite I2 in Hhp by lia. done. }
  exists m', w'. split; [done|]. split; [done|]. split_and!.
  - intros pid. split; [apply Hdom|].
    intros Hpid. destruct (I3 pid) as (hp & Hhp & _); [lia|]. by eexists.
  - intros i hp Hi Hhp.
    destruct (I4 (Z.to_nat i) hp) as (pid & Hpid & Hl); [lia|done|].
    exists pid. split; [|done]. rewrite Z2Nat.id in Hpid by lia. lia.
  - intros hp Hhp. rewrite I5. unfold ownedBy at 1.
    rewrite map_filter_empty, map_size_empty, decide_True by done. lia.
  - intros pid hp Hl. rewrite Hpool.
    destruct (I3 pid) as (hp' & Hhp' & Hin); [apply Hdom; by eexists|].
    congruence.
Qed.

(** The theorem at a master with two workers and two partitions per
    worker. *)
Lemma determinePartitions_round_robin_witness :
  (0 ≤ MinPartitionsPerWorker (Config halfFailedMaster) < GoInt.two63)%Z ∧
  workerPool halfFailedMaster ≠ ∅ ∧
  (MinPartitionsPerWorker (Config halfFailedMaster)
     * Z.of_nat (size (workerPool halfFailedMaster)) ≤ GoInt.two64)%Z ∧
  ∃ m' w',
    determinePartitions halfFailedMaster (quietWorld []) = Ret tt m' w' ∧
    workerPool m' = workerPool halfFailedMaster ∧
    (∀ pid, is_Some (partitionMap m' !! pid) ↔
       (0 ≤ pid < MinPartitionsPerWorker (Config halfFailedMaster)
                  * Z.of_nat (size (workerPool halfFailedMaster)))%Z) ∧
    (∀ i hp, (0 ≤ i < MinPartitionsPerWorker (Config halfFailedMaster))%Z →
       is_Some (workerPool halfFailedMaster !! hp) →
       ∃ pid,
         (i * Z.of_nat (size (workerPool halfFailedMaster)) ≤ pid
            < (i + 1) * Z.of_nat (size (workerPool halfFailedMaster)))%Z ∧
         partitionMap m' !! pid = Some hp) ∧
    (∀ hp, is_Some (workerPool halfFailedMaster !! hp) →
       Z.of_nat (ownedBy (partitionMap m') hp)
         = MinPartitionsPerWorker (Config halfFailedMaster)) ∧
    ownersIn (partitionMap m') (workerPool m').
Proof.
  assert (H1 : (0 ≤ MinPartitionsPerWorker (Config halfFailedMaster)
                  < GoInt.two63)%Z) by (vm_compute; split; [discriminate|reflexivity]).
  assert (H2 : workerPool halfFailedMaster ≠ ∅).
  { intros H. apply (f_equal size) in H. vm_compute in H. discriminate H. }
  assert (H3 : (MinPartitionsPerWorker (Config halfFailedMaster)
     * Z.of_nat (size (workerPool halfFailedMaster)) ≤ GoInt.two64)%Z)
    by (vm_compute; discriminate).
  split; [exact H1|]. split; [exact H2|]. split; [exact H3|].
  apply (determinePartitions_round_robin halfFailedMaster (quietWorld []));
    [exact H1|exact H2|exact H3].
Defined.

(** C9, the claim as the specification words it, fails: [2^63] is a [uint64]
    but its conversion to [int] is negative, so the loop body never runs and
    the partition map stays empty; partition 0 is not in it. *)
Lemma determinePartitions_empty_for_huge_count :
  ¬ assignsAll greedyMaster (quietWorld []).
Proof.
  intros H.
  destruct (determinePartitions greedyMaster (quietWorld []))
    as [[] m' w'| | |] eqn:E.
  - assert (Hsome : is_Some (partitionMap m' !! 0%Z)).
    { apply (H m' w' E). vm_compute. split; [discriminate|reflexivity]. }
    vm_compute in E. injection E as Hm Hw.
    rewrite <- Hm in Hsome. vm_compute in Hsome. by destruct Hsome.
  - vm_compute in E. discriminate E.
  - vm_compute in E. discriminate E.
  - vm_compute in E. discriminate E.
Qed.

(** ** The pool invariant

    The records of the pool are filed under their host and port from the
    start of registration on: this is the premise of the purge theorem. *)

Lemma RegisterWorker_wfPool h p m w r m' w' :
  wfPool (workerPool m) →
  RegisterWorker Unlocked h p m w = Ret r m' w' →
  wfPool (workerPool m').
Proof.
  intros Hwf. unfold RegisterWorker. munfold. simpl.
  destruct (negb (canRegister (m_jobInfo m))); [by intros [= _ <- _]|].
  destruct (workerPool m !! JoinHostPort h p) eqn:Hl; [by intros [= _ <- _]|].
  intros [= _ <- _]. simpl. by apply map_Forall_insert_2.
Qed.

Lemma serve_wfPool calls m w m' w' :
  wfPool (workerPool m) → serve calls m w = Ret tt m' w' →
  wfPool (workerPool m').
Proof.
  revert m w. induction calls as [|[h p] calls IH]; intros m w Hwf; simpl.
  - by intros [= <- _].
  - munfold.
    destruct (RegisterWorker Unlocked h p m w) as [r m1 w1| | |] eqn:Hr;
      try done.
    apply IH. by eapply RegisterWorker_wfPool.
Qed.

Lemma registerLoop_wfPool fuel t m w m' w' :
  wfPool (workerPool m) → registerLoop fuel t m w = Ret tt m' w' →
  wfPool (workerPool m').
Proof.
  revert t m w. induction fuel as [|fuel IH]; intros t m w Hwf; simpl; [done|].
  munfold. destruct (decide (stillWaiting m t)); [|by intros [= <- _]].
  destruct (sleepOneSecond m w) as [[] m1 w1| | |] eqn:Hs; try done.
  apply IH. unfold sleepOneSecond in Hs.
  destruct (registrations w); [by injection Hs as <- _|].
  by eapply serve_wfPool.
Qed.

Lemma registerWorkers_wfPool fuel m w r m' w' :
  registerWorkers fuel m w = Ret r m' w' → wfPool (workerPool m').
Proof.
  unfold registerWorkers. munfold. fold (registering m).
  destruct (registerLoop fuel 0 (registering m) w) as [[] m1 w1| | |] eqn:Hl;
    try done.
  apply registerLoop_wfPool in Hl; [|by apply map_Forall_empty].
  destruct (decide (notEnoughWorkers _)); by intros [= _ <- _].
Qed.

Lemma markWorkerFailed_wfPool hp msg m :
  wfPool (workerPool m) → wfPool (workerPool (markWorkerFailed hp msg m).1).
Proof.
  intros Hwf. unfold markWorkerFailed.
  destruct (workerPool m !! hp) as [info|] eqn:Hl; [|done]. simpl.
  apply map_Forall_insert_2; [|done]. simpl. by apply (Hwf hp info).
Qed.

Lemma poolLock_Lock_wfPool m w m1 w1 :
  wfPool (workerPool m) → poolLock_Lock m w = Ret tt m1 w1 →
  wfPool (workerPool m1).
Proof.
  intros Hwf. unfold poolLock_Lock.
  destruct (failures w) as [|marks rest]; [by intros [= <- _]|].
  intros [= <- _]. clear rest. revert m Hwf.
  induction marks as [|[hp msg] marks IH]; intros m Hwf; simpl; [done|].
  apply IH. by apply markWorkerFailed_wfPool.
Qed.

(** ** Removing an out-edge, where it works *)

Lemma removeLoop_no_match target n i ranged edges :
  i + n ≤ length ranged →
  (∀ j e, i ≤ j < i + n → ranged !! j = Some e → Vertex.Target e ≠ target) →
  Vertex.removeLoop target n i ranged edges = Vertex.Done edges.
Proof.
  revert i. induction n as [|n IH]; intros i Hlen Hno; simpl; [done|].
  destruct (lookup_lt_is_Some_2 ranged i) as [e He]; [lia|]. rewrite He.
  rewrite decide_False by (eapply Hno; [|done]; lia).
  apply IH; [lia|]. intros j e' Hj. apply Hno. lia.
Qed.

Lemma removeLoop_skip target k n i ranged edges :
  i + k ≤ length ranged →
  (∀ j e, i ≤ j < i + k → ranged !! j = Some e → Vertex.Target e ≠ target) →
  Vertex.removeLoop target (k + n) i ranged edges =
  Vertex.removeLoop target n (i + k) ranged edges.
Proof.
  revert i. induction k as [|k IH]; intros i Hlen Hno; simpl.
  - by rewrite Nat.add_0_r.
  - destruct (lookup_lt_is_Some_2 ranged i) as [e He]; [lia|]. rewrite He.
    rewrite decide_False by (eapply Hno; [|done]; lia).
    rewrite IH; [f_equal; lia|lia|]. intros j e' Hj. apply Hno. lia.
Qed.

(** When no edge has the target, the edges stay as they are; when exactly one
    has, it is removed and the others keep their order. *)
Lemma removeOutEdge_absent target id l active :
  Forall (λ e, Vertex.Target e ≠ target) l →
  Vertex.removeOutEdge target
    {| Vertex.Id := id; Vertex.Edges := Vertex.fromList l;
       Vertex.Active := active |} =
  Vertex.Done {| Vertex.Id := id; Vertex.Edges := Vertex.fromList l;
                 Vertex.Active := active |}.
Proof.
  intros Hno. unfold Vertex.removeOutEdge. simpl.
  rewrite removeLoop_no_match; [done|simpl; lia|].
  intros j e _ He. rewrite Forall_forall in Hno. apply Hno.
  by eapply list_elem_of_lookup_2.
Qed.

Lemma removeOutEdge_single target id l1 e l2 active :
  Vertex.Target e = target →
  Forall (λ e, Vertex.Target e ≠ target) l1 →
  Forall (λ e, Vertex.Target e ≠ target) l2 →
  ∃ v',
    Vertex.removeOutEdge target
      {| Vertex.Id := id; Vertex.Edges := Vertex.fromList (l1 ++ e :: l2);
         Vertex.Active := active |} = Vertex.Done v' ∧
    Vertex.OutEdges v' = l1 ++ l2.
Proof.
  intros Ht Hl1 Hl2. rewrite Forall_forall in Hl1, Hl2.
  unfold Vertex.removeOutEdge, Vertex.fromList.
  cbn [Vertex.Edges Vertex.len Vertex.arr Vertex.Id Vertex.Active].
  set (arr := l1 ++ e :: l2).
  assert (Hlen : length arr = length l1 + S (length l2))
    by (unfold arr; rewrite length_app; simpl; lia).
  rewrite Hlen.
  rewrite (removeLoop_skip target (length l1) (S (length l2)) 0); cycle 1.
  { lia. }
  { intros j x Hj Hx. apply Hl1. unfold arr in Hx.
    rewrite lookup_app_l in Hx by lia. by eapply list_elem_of_lookup_2. }
  cbn [Vertex.removeLoop Nat.add].
  assert (He : arr !! length l1 = Some e).
  { unfold arr. by rewrite list_lookup_middle. }
  rewrite He, decide_True by done.
  unfold Vertex.sliceTo, Vertex.sliceFrom, Vertex.cap, Vertex.elems.
  cbn [Vertex.arr Vertex.len].
  rewrite decide_True by lia. rewrite decide_True by lia.
  assert (Hback : drop (length l1 + 1) (take (length l1 + S (length l2)) arr) = l2).
  { rewrite <- Hlen, firstn_all. unfold arr.
    rewrite drop_app_ge by lia.
    replace (length l1 + 1 - length l1) with 1 by lia. done. }
  rewrite Hback. unfold Vertex.append, Vertex.cap. cbn [Vertex.arr Vertex.len].
  rewrite decide_True by lia.
  assert (Hfront : take (length l1) arr = l1).
  { unfold arr. by rewrite take_app_length. }
  rewrite Hfront.
  set (arr' := l1 ++ l2 ++ drop (length l1 + length l2) arr).
  rewrite removeLoop_no_match.
  - eexists. split; [reflexivity|].
    unfold Vertex.OutEdges, Vertex.elems. cbn [Vertex.Edges Vertex.arr Vertex.len].
    unfold arr'. rewrite app_assoc. apply take_app_length'.
    by rewrite length_app.
  - cbn [Vertex.arr]. unfold arr'. rewrite !length_app, length_drop. lia.
  - intros j x Hj Hx. cbn [Vertex.arr] in Hx. unfold arr' in Hx.
    rewrite lookup_app_r in Hx by lia.
    destruct (decide (j - length l1 < length l2)) as [Hlt|Hge].
    + rewrite lookup_app_l in Hx by lia. apply Hl2.
      by eapply list_elem_of_lookup_2.
    + rewrite lookup_app_r in Hx by lia. rewrite lookup_drop in Hx.
      unfold arr in Hx. rewrite lookup_app_r in Hx by lia.
      replace (length l1 + length l2 + (j - length l1 - length l2) - length l1)
        with (S (j - length l1 - 1)) in Hx by lia.
      simpl in Hx. apply Hl2. by eapply list_elem_of_lookup_2.
Qed.

(** * Further properties *)

(** ** Barrier accounting *)

Lemma barrierSwitch_info b b' info e :
  (barrierSwitch b info e).2 = (barrierSwitch b' info e).2.
Proof. by destruct e. Qed.

Lemma barrierLoop_duplicate b info pre e post :
  (∃ e0, e0 ∈ pre ∧ worker e0 = worker e) →
  barrierView (barrierLoop b info (pre ++ e :: post)) =
  barrierView (barrierLoop b info (pre ++ post)).
Proof.
  revert b info. induction pre as [|e1 pre IH]; intros b info (e0 & Hin & Hw).
  { by apply elem_of_nil in Hin. }
  destruct (decide (worker e ∈ b)) as [Hb|Hb];
    [|by apply barrierLoop_discards].
  simpl. destruct (decide (worker e1 ∈ b)) as [Hb1|Hb1].
  - destruct (barrierSwitch b info e1) as [b' info1] eqn:Hsw.
    assert (b' = b ∖ {[worker e1]}) as ->.
    { by rewrite <- barrierSwitch_outstanding with (info := info), Hsw. }
    destruct (decide (size (b ∖ {[worker e1]}) = 0)); [done|].
    destruct (decide (worker e1 = worker e)) as [Heq|Hne].
    + apply barrierLoop_discards. set_solver.
    + apply IH. apply elem_of_cons in Hin as [->|Hin]; [congruence|eauto].
  - apply IH. apply elem_of_cons in Hin as [->|Hin]; [congruence|eauto].
Qed.

(** X1.  The barrier counts a worker once: an entry for a worker that has an
    earlier entry on the channel (a second summary, a removal after a
    summary, a summary after a removal) changes neither the outstanding set
    nor the accumulator. *)
Theorem barrier_counts_worker_once
    (pool : gmap string workerInfo) (info : phaseInfo)
    (pre : list barrierEntry) (e : barrierEntry) (post : list barrierEntry) :
  (∃ e0, e0 ∈ pre ∧ worker e0 = worker e) →
  barrierView (barrier pool (pre ++ e :: post) info) =
  barrierView (barrier pool (pre ++ post) info).
Proof.
  intros Hdup. unfold barrier.
  destruct (decide (size (dom pool) = 0)); [done|].
  by apply barrierLoop_duplicate.
Qed.

(** The theorem for a second summary of the worker ["a:1"] that arrives
    while the barrier still waits for ["b:2"]. *)
Lemma barrier_counts_worker_once_witness :
  (∃ e0, e0 ∈ [Summary (summaryOf 1)] ∧
         worker e0 = worker (Summary (summaryOf 5))) ∧
  barrierView (barrier (workerPool halfFailedMaster)
                 ([Summary (summaryOf 1)] ++ Summary (summaryOf 5)
                    :: [Remove {| hostPort := "b:2"; removeError := None |}])
                 newPhaseInfo) =
  barrierView (barrier (workerPool halfFailedMaster)
                 ([Summary (summaryOf 1)]
                    ++ [Remove {| hostPort := "b:2"; removeError := None |}])
                 newPhaseInfo).
Proof.
  assert (H : ∃ e0, e0 ∈ [Summary (summaryOf 1)] ∧
                    worker e0 = worker (Summary (summaryOf 5))).
  { exists (Summary (summaryOf 1)). split; [left|reflexivity]. }
  split; [exact H|].
  apply (barrier_counts_worker_once (workerPool halfFailedMaster) newPhaseInfo
           [Summary (summaryOf 1)] (Summary (summaryOf 5))
           [Remove {| hostPort := "b:2"; removeError := None |}]).
  exact H.
Defined.

Lemma absorbed_cons info e es :
  absorbed info (e :: es) = absorbed (barrierSwitch ∅ info e).2 es.
Proof. done. Qed.

Lemma barrierLoop_onePerWorker seen b info rest :
  b ≠ ∅ → onePerWorker b seen →
  barrierLoop b info (seen ++ rest) = Closed (absorbed info seen) rest.
Proof.
  revert b info. induction seen as [|e seen IH]; intros b info Hne [Hnd Hb].
  { simpl in Hb. by rewrite Hb in Hne. }
  simpl in Hnd, Hb. apply NoDup_cons in Hnd as [Hfresh Hnd].
  cbn [app barrierLoop]. rewrite decide_True by (rewrite Hb; set_solver).
  destruct (barrierSwitch b info e) as [b' info1] eqn:Hsw.
  assert (b' = b ∖ {[worker e]}) as ->.
  { by rewrite <- barrierSwitch_outstanding with (info := info), Hsw. }
  assert (info1 = (barrierSwitch ∅ info e).2) as ->.
  { by rewrite (barrierSwitch_info ∅ b), Hsw. }
  assert (Hrest : b ∖ {[worker e]} = list_to_set (worker <$> seen)).
  { rewrite Hb. apply set_eq. intros w.
    rewrite elem_of_difference, elem_of_union, elem_of_singleton,
      !elem_of_list_to_set. split; [tauto|]. intros Hw. split; [by right|].
    by intros ->. }
  destruct seen as [|e' seen'].
  - simpl in Hrest. rewrite decide_True by (by rewrite Hrest). done.
  - rewrite decide_False; cycle 1.
    { rewrite size_zero_empty, Hrest. simpl. set_solver. }
    rewrite absorbed_cons. apply IH; [|done].
    rewrite Hrest. simpl. set_solver.
Qed.

Lemma uint64_range z : GoInt.is_uint64 (GoInt.uint64 z).
Proof.
  unfold GoInt.is_uint64, GoInt.uint64, GoInt.two64. apply Z.mod_pos_bound. lia.
Qed.

Lemma uint64_add_l a b : GoInt.uint64 (GoInt.uint64 a + b) = GoInt.uint64 (a + b).
Proof. unfold GoInt.uint64. apply Zplus_mod_idemp_l. Qed.

Lemma absorbed_spec info es :
  countersInRange info →
  activeVerts (absorbed info es)
    = GoInt.uint64 (activeVerts info + total ActiveVerts (summariesOf es)) ∧
  numVerts (absorbed info es)
    = GoInt.uint64 (numVerts info + total NumVerts (summariesOf es)) ∧
  sentMsgs (absorbed info es)
    = GoInt.uint64 (sentMsgs info + total SentMsgs (summariesOf es)) ∧
  lostWorkers (absorbed info es) = lostWorkers info ++ removalsOf es ∧
  errors (absorbed info es)
    = errors info ++ concat (Errors <$> summariesOf es).
Proof.
  revert info. induction es as [|e es IH]; intros info (Ha & Hn & Hs).
  - simpl. rewrite !Z.add_0_r, !uint64_small, !app_nil_r by done. done.
  - rewrite absorbed_cons. destruct e as [ps|r]; simpl.
    + destruct (IH (collectSummaryInfo info ps)) as (I1 & I2 & I3 & I4 & I5).
      { split_and!; apply uint64_range. }
      rewrite I1, I2, I3, I4, I5. simpl.
      rewrite !uint64_add_l, !Z.add_assoc, <- !app_assoc. done.
    + destruct (IH (set_lostWorkers (lostWorkers info ++ [hostPort r]) info))
        as (I1 & I2 & I3 & I4 & I5); [done|].
      rewrite I1, I2, I3, I4, I5. simpl. rewrite <- !app_assoc. done.
Qed.

(** X2.  When the entries received are one for each worker of the pool, the
    barrier closes on the last of them, leaving the rest of the channel, and
    the accumulator holds: in each counter the [uint64] sum of what it held
    and the counter of every summary; the removed workers appended to
    [lostWorkers] in order of arrival; the errors of the summaries appended
    to [errors] in order of arrival. *)
Theorem barrier_accumulates_sums
    (pool : gmap string workerInfo) (info : phaseInfo)
    (seen rest : list barrierEntry) :
  countersInRange info →
  onePerWorker (dom pool) seen →
  ∃ info',
    barrier pool (seen ++ rest) info = Closed info' rest ∧
    activeVerts info'
      = GoInt.uint64 (activeVerts info + total ActiveVerts (summariesOf seen)) ∧
    numVerts info'
      = GoInt.uint64 (numVerts info + total NumVerts (summariesOf seen)) ∧
    sentMsgs info'
      = GoInt.uint64 (sentMsgs info + total SentMsgs (summariesOf seen)) ∧
    lostWorkers info' = lostWorkers info ++ removalsOf seen ∧
    errors info' = errors info ++ concat (Errors <$> summariesOf seen).
Proof.
  intros Hrange Hone. exists (absorbed info seen).
  split; [|by apply absorbed_spec].
  unfold barrier. destruct (decide (size (dom pool) = 0)) as [Hz|Hnz].
  - apply size_zero_empty in Hz. destruct Hone as [_ Hdom]. rewrite Hz in Hdom.
    destruct seen as [|e seen]; [done|]. simpl in Hdom. set_solver.
  - rewrite size_zero_empty in Hnz. by apply barrierLoop_onePerWorker.
Qed.

(** The theorem for the pool of two workers, one reporting and one removed. *)
Lemma barrier_accumulates_sums_witness :
  countersInRange newPhaseInfo ∧
  onePerWorker (dom (workerPool halfFailedMaster)) bothAccounted ∧
  ∃ info',
    barrier (workerPool halfFailedMaster) (bothAccounted ++ []) newPhaseInfo
      = Closed info' [] ∧
    activeVerts info'
      = GoInt.uint64 (activeVerts newPhaseInfo
                      + total ActiveVerts (summariesOf bothAccounted)) ∧
    numVerts info'
      = GoInt.uint64 (numVerts newPhaseInfo
                      + total NumVerts (summariesOf bothAccounted)) ∧
    sentMsgs info'
      = GoInt.uint64 (sentMsgs newPhaseInfo
                      + total SentMsgs (summariesOf bothAccounted)) ∧
    lostWorkers info' = lostWorkers newPhaseInfo ++ removalsOf bothAccounted ∧
    errors info'
      = errors newPhaseInfo ++ concat (Errors <$> summariesOf bothAccounted).
Proof.
  assert (H1 : countersInRange newPhaseInfo).
  { apply (bool_decide_unpack _). vm_compute. exact I. }
  assert (H2 : onePerWorker (dom (workerPool halfFailedMaster)) bothAccounted).
  { apply (bool_decide_unpack _). vm_compute. exact I. }
  split; [exact H1|]. split; [exact H2|].
  apply (barrier_accumulates_sums (workerPool halfFailedMaster) newPhaseInfo
           bothAccounted []); [exact H1|exact H2].
Defined.

Lemma total_summariesOf_perm f es1 es2 :
  es1 ≡ₚ es2 → total f (summariesOf es1) = total f (summariesOf es2).
Proof.
  induction 1 as [|e es1 es2 _ IH|e1 e2 es|es1 es2 es3 _ IH1 _ IH2].
  - done.
  - destruct e; simpl; [by rewrite IH|done].
  - destruct e1, e2; simpl; lia.
  - congruence.
Qed.

Lemma onePerWorker_perm S es1 es2 :
  es1 ≡ₚ es2 → onePerWorker S es1 → onePerWorker S es2.
Proof.
  intros Hp [Hnd HS]. split.
  - by rewrite <- Hp.
  - rewrite HS. apply set_eq. intros w. rewrite !elem_of_list_to_set.
    by rewrite Hp.
Qed.

(** X3.  The counters do not depend on the order of arrival: when the
    entries received are one for each worker of the pool, the barrier closes
    with the same three counters for every order in which they arrive, and
    with the same lost workers and the same errors up to their order. *)
Theorem barrier_order_independent
    (pool : gmap string workerInfo) (info : phaseInfo)
    (seen1 seen2 rest : list barrierEntry) :
  countersInRange info →
  onePerWorker (dom pool) seen1 →
  seen1 ≡ₚ seen2 →
  ∃ info1 info2,
    barrier pool (seen1 ++ rest) info = Closed info1 rest ∧
    barrier pool (seen2 ++ rest) info = Closed info2 rest ∧
    activeVerts info1 = activeVerts info2 ∧
    numVerts info1 = numVerts info2 ∧
    sentMsgs info1 = sentMsgs info2 ∧
    lostWorkers info1 ≡ₚ lostWorkers info2 ∧
    errors info1 ≡ₚ errors info2.
Proof.
  intros Hrange Hone Hperm.
  pose proof (onePerWorker_perm _ _ _ Hperm Hone) as Hone2.
  assert (Hclose : ∀ seen, onePerWorker (dom pool) seen →
            barrier pool (seen ++ rest) info = Closed (absorbed info seen) rest).
  { intros seen Hs. unfold barrier.
    destruct (decide (size (dom pool) = 0)) as [Hz|Hnz].
    - apply size_zero_empty in Hz. destruct Hs as [_ Hdom]. rewrite Hz in Hdom.
      destruct seen as [|e seen]; [done|]. simpl in Hdom. set_solver.
    - rewrite size_zero_empty in Hnz. by apply barrierLoop_onePerWorker. }
  exists (absorbed info seen1), (absorbed info seen2).
  split; [by apply Hclose|]. split; [by apply Hclose|].
  destruct (absorbed_spec info seen1 Hrange) as (A1 & A2 & A3 & A4 & A5).
  destruct (absorbed_spec info seen2 Hrange) as (B1 & B2 & B3 & B4 & B5).
  rewrite A1, A2, A3, A4, A5, B1, B2, B3, B4, B5.
  rewrite !(total_summariesOf_perm _ _ _ Hperm).
  split_and!; try done.
  - unfold removalsOf. by rewrite Hperm.
  - unfold summariesOf. by rewrite Hperm.
Qed.

(** The theorem for the two entries of the pool of two workers, swapped. *)
Lemma barrier_order_independent_witness :
  countersInRange newPhaseInfo ∧
  onePerWorker (dom (workerPool halfFailedMaster)) bothAccounted ∧
  bothAccounted ≡ₚ reverse bothAccounted ∧
  ∃ info1 info2,
    barrier (workerPool halfFailedMaster) (bothAccounted ++ []) newPhaseInfo
      = Closed info1 [] ∧
    barrier (workerPool halfFailedMaster) (reverse bothAccounted ++ [])
      newPhaseInfo = Closed info2 [] ∧
    activeVerts info1 = activeVerts info2 ∧
    numVerts info1 = numVerts info2 ∧
    sentMsgs info1 = sentMsgs info2 ∧
    lostWorkers info1 ≡ₚ lostWorkers info2 ∧
    errors info1 ≡ₚ errors info2.
Proof.
  assert (H1 : countersInRange newPhaseInfo).
  { apply (bool_decide_unpack _). vm_compute. exact I. }
  assert (H2 : onePerWorker (dom (workerPool halfFailedMaster)) bothAccounted).
  { apply (bool_decide_unpack _). vm_compute. exact I. }
  assert (H3 : bothAccounted ≡ₚ reverse bothAccounted).
  { vm_compute. apply perm_swap. }
  split; [exact H1|]. split; [exact H2|]. split; [exact H3|].
  apply (barrier_order_independent (workerPool halfFailedMaster) newPhaseInfo
           bothAccounted (reverse bothAccounted) []);
    [exact H1|exact H2|exact H3].
Defined.

(** ** Registration *)

Lemma RegisterWorker_open h p m w :
  canRegister (m_jobInfo m) = true →
  ∃ m' w',
    RegisterWorker Unlocked h p m w = Ret (JobId (Config m), None) m' w' ∧
    Config m' = Config m ∧ m_jobInfo m' = m_jobInfo m ∧
    partitionMap m' = partitionMap m ∧
    registrations w' = registrations w ∧
    barrierCh w' = barrierCh w ∧ failures w' = failures w ∧
    ranges w' = ranges w ∧
    (∀ hp, is_Some (workerPool m' !! hp) ↔
           is_Some (workerPool m !! hp) ∨ hp = JoinHostPort h p) ∧
    (∀ hp info, workerPool m !! hp = Some info →
                workerPool m' !! hp = Some info) ∧
    (wfPool (workerPool m) → wfPool (workerPool m')).
Proof.
  intros Hopen. unfold RegisterWorker. munfold. simpl. rewrite Hopen. simpl.
  destruct (workerPool m !! JoinHostPort h p) as [info|] eqn:Hl.
  - exists m, w. split_and!; try done.
    intros hp. split; [by left|]. intros [?| ->]; [done|by eexists].
  - eexists _, _. split; [reflexivity|]. simpl. split_and!; try done.
    + intros hp. rewrite lookup_insert_is_Some. split.
      * intros [<-|[_ ?]]; [by right|by left].
      * intros [?| ->]; [|by left].
        destruct (decide (JoinHostPort h p = hp)); [by left|by right].
    + intros hp info Hhp. rewrite lookup_insert_ne; [done|]. congruence.
    + intros Hfresh. by apply map_Forall_insert_2.
Qed.

Lemma serve_open calls m w :
  canRegister (m_jobInfo m) = true →
  ∃ m' w',
    serve calls m w = Ret tt m' w' ∧
    Config m' = Config m ∧ m_jobInfo m' = m_jobInfo m ∧
    partitionMap m' = partitionMap m ∧
    registrations w' = registrations w ∧
    barrierCh w' = barrierCh w ∧ failures w' = failures w ∧
    ranges w' = ranges w ∧
    (∀ hp, is_Some (workerPool m' !! hp) ↔
           is_Some (workerPool m !! hp) ∨
           ∃ h p, (h, p) ∈ calls ∧ hp = JoinHostPort h p) ∧
    (∀ hp info, workerPool m !! hp = Some info →
                workerPool m' !! hp = Some info) ∧
    (wfPool (workerPool m) → wfPool (workerPool m')).
Proof.
  revert m w. induction calls as [|[h p] calls IH]; intros m w Hopen.
  - exists m, w. split_and!; try done. intros hp. split; [by left|].
    intros [?|(h & p & Hin & _)]; [done|]. by apply elem_of_nil in Hin.
  - destruct (RegisterWorker_open h p m w Hopen)
      as (m1 & w1 & Hr & HC & HJ & HP & HR & HB & HF & HG & Hk & Hkeep & Hfr).
    destruct (IH m1 w1) as
      (m' & w' & Hs & HC' & HJ' & HP' & HR' & HB' & HF' & HG' & Hk' & Hkeep' & Hfr');
      [congruence|].
    exists m', w'. split.
    { simpl. munfold. by rewrite Hr. }
    split_and!; try congruence.
    + intros hp. rewrite Hk', Hk. split.
      * intros [[?| ->]|(h' & p' & Hin & ->)]; [by left| |].
        -- right. exists h, p. split; [left|done].
        -- right. exists h', p'. split; [by right|done].
      * intros [?|(h' & p' & Hin & ->)]; [by left; left|].
        apply elem_of_cons in Hin as [[= -> ->]|Hin]; [by left; right|].
        right. by exists h', p'.
    + intros hp info Hhp. by apply Hkeep', Hkeep.
    + intros ?. by apply Hfr', Hfr.
Qed.

Lemma afterSeconds_open n m w :
  canRegister (m_jobInfo m) = true →
  Config (afterSeconds n m w).1 = Config m ∧
  m_jobInfo (afterSeconds n m w).1 = m_jobInfo m ∧
  partitionMap (afterSeconds n m w).1 = partitionMap m ∧
  registrations (afterSeconds n m w).2 = drop n (registrations w) ∧
  barrierCh (afterSeconds n m w).2 = barrierCh w ∧
  failures (afterSeconds n m w).2 = failures w ∧
  ranges (afterSeconds n m w).2 = ranges w ∧
  (∀ hp, is_Some (workerPool (afterSeconds n m w).1 !! hp) ↔
         is_Some (workerPool m !! hp) ∨
         ∃ h p, (h, p) ∈ servedIn n w ∧ hp = JoinHostPort h p) ∧
  (wfPool (workerPool m) → wfPool (workerPool (afterSeconds n m w).1)).
Proof.
  revert m w. induction n as [|n IH]; intros m w Hopen.
  - simpl. split_and!; try done. intros hp. split; [by left|].
    intros [?|(h & p & Hin & _)]; [done|].
    unfold servedIn in Hin. simpl in Hin. by apply elem_of_nil in Hin.
  - simpl. unfold sleepOneSecond, servedIn.
    destruct (registrations w) as [|calls rest] eqn:Hregs; simpl.
    + destruct (IH m w Hopen) as (HC & HJ & HP & HR & HB & HF & HG & Hk & Hfr).
      rewrite Hregs in HR. rewrite drop_nil in HR.
      split_and!; try done. intros hp. rewrite Hk. unfold servedIn.
      rewrite Hregs, take_nil. done.
    + destruct (serve_open calls m (set_registrations rest w) Hopen)
        as (m1 & w1 & Hs & HC & HJ & HP & HR & HB & HF & HG & Hk & _ & Hfr).
      rewrite Hs. simpl.
      destruct (IH m1 w1) as
        (HC' & HJ' & HP' & HR' & HB' & HF' & HG' & Hk' & Hfr'); [congruence|].
      simpl in HR, HB, HF, HG.
      split_and!; try congruence.
      * intros hp. rewrite Hk', Hk. unfold servedIn. rewrite HR.
        setoid_rewrite elem_of_app. split.
        -- intros [[?|(h & p & Hin & ->)]|(h & p & Hin & ->)];
             [by left|right; exists h, p; by split; [left|]|
              right; exists h, p; by split; [right|]].
        -- intros [?|(h & p & [Hin|Hin] & ->)];
             [by left; left|left; right; by exists h, p|right; by exists h, p].
      * intros ?. by apply Hfr', Hfr.
Qed.

Lemma registerWorkers_inv fuel m w r m' w' :
  registerWorkers fuel m w = Ret r m' w' →
  ∃ n m1,
    n < fuel ∧ closesAt n 0 (registering m) w ∧
    afterSeconds n (registering m) w = (m1, w') ∧
    m' = set_jobInfo (set_canRegister false (m_jobInfo m1)) m1 ∧
    r = if decide (notEnoughWorkers m')
        then Some "Not enough workers registered"%string else None.
Proof.
  unfold registerWorkers. munfold. fold (registering m).
  destruct (registerLoop fuel 0 (registering m) w) as [[] m1 w1| | |] eqn:Hl;
    try done.
  destruct (registerLoop_returns _ _ _ _ _ _ Hl) as (n & Hn & Hc & Ha).
  intros Hret. exists n, m1.
  destruct (decide (notEnoughWorkers _)) as [He|He] eqn:Hd;
    injection Hret as <- <- <-; split_and!; try done.
  - by rewrite Hd.
  - by rewrite Hd.
Qed.

Lemma uint64_nonneg z : (0 ≤ GoInt.uint64 z)%Z.
Proof. apply uint64_range. Qed.

(** X4.  [registerWorkers] does not return while fewer than [MinWorkers]
    workers are registered: when [MinWorkers] is positive it returns only
    with at least that many in the pool and then never with an error.  It
    returns an error only when [MinWorkers] is 0 and nobody has registered. *)
Theorem registerWorkers_waits_for_MinWorkers
    (fuel : nat) (m : Master) (w : World)
    (r : option error) (m' : Master) (w' : World) :
  registerWorkers fuel m w = Ret r m' w' →
  ((0 < MinWorkers (Config m))%Z →
     r = None ∧
     (MinWorkers (Config m)
        ≤ GoInt.uint64 (Z.of_nat (size (workerPool m'))))%Z) ∧
  (is_Some r ↔ (MinWorkers (Config m) ≤ 0)%Z ∧ workerPool m' = ∅).
Proof.
  intros Hret.
  destruct (registerWorkers_inv _ _ _ _ _ _ Hret)
    as (n & m1 & Hn & [_ Hclosed] & Ha & -> & ->).
  destruct (afterSeconds_frame n (registering m) w) as [HC _].
  rewrite Ha in Hclosed, HC. simpl in Hclosed, HC. clear Hret.
  unfold stillWaiting in Hclosed. rewrite HC in Hclosed.
  pose proof (uint64_nonneg (Z.of_nat (size (workerPool m1)))) as Hpos.
  assert (Hzero : size (workerPool m1) = 0 →
            GoInt.uint64 (Z.of_nat (size (workerPool m1))) = 0%Z).
  { intros ->. reflexivity. }
  simpl.
  destruct (decide (notEnoughWorkers _)) as [Hd|Hd];
    unfold notEnoughWorkers in Hd; simpl in Hd; rewrite HC in Hd.
  - assert (Hz : size (workerPool m1) = 0) by (destruct Hd as [?|[? _]]; [done|lia]).
    specialize (Hzero Hz). split; [intros ?; lia|].
    split; [|by eauto]. intros _. split; [lia|by apply map_size_empty_iff].
  - split.
    + intros Hmin. split; [done|]. lia.
    + split; [by intros [? [=]]|].
      intros [Hmin Hempty]. destruct Hd. left. by apply map_size_empty_iff.
Qed.

(** The theorem when the one worker of the sample master registers. *)
Lemma registerWorkers_waits_for_MinWorkers_witness :
  ∃ r m' w',
    registerWorkers 2 sampleMaster oneRegistration = Ret r m' w' ∧
    ((0 < MinWorkers (Config sampleMaster))%Z →
       r = None ∧
       (MinWorkers (Config sampleMaster)
          ≤ GoInt.uint64 (Z.of_nat (size (workerPool m'))))%Z) ∧
    (is_Some r ↔
       (MinWorkers (Config sampleMaster) ≤ 0)%Z ∧ workerPool m' = ∅).
Proof.
  destruct (registerWorkers 2 sampleMaster oneRegistration)
    as [r m' w'|msg m' w'|m' w'|m' w'] eqn:E.
  - exists r, m', w'. split; [reflexivity|].
    exact (registerWorkers_waits_for_MinWorkers 2 sampleMaster oneRegistration
             r m' w' E).
  - vm_compute in E. discriminate E.
  - vm_compute in E. discriminate E.
  - vm_compute in E. discriminate E.
Defined.

Lemma int64_add_l a b : GoInt.int64 (GoInt.int64 a + b) = GoInt.int64 (a + b).
Proof.
  unfold GoInt.int64, GoInt.two64, GoInt.two63. f_equal.
  replace ((a + 2 ^ 63) mod 2 ^ 64 - 2 ^ 63 + b + 2 ^ 63)%Z
    with ((a + 2 ^ 63) mod 2 ^ 64 + b)%Z by lia.
  rewrite Zplus_mod_idemp_l. f_equal. lia.
Qed.

Lemma timerAfter_int64 t n :
  GoInt.int64 (timerAfter t n) = GoInt.int64 (t + Z.of_nat n * 10 ^ 9).
Proof.
  revert t. induction n as [|n IH]; intros t; simpl timerAfter.
  - f_equal. lia.
  - rewrite IH, int64_add_l. f_equal. lia.
Qed.

(** X5.  [registerWorkers] keeps the window open for [RegisterWait]: when it
    returns it has slept some [n] seconds, serving the registration calls of
    those seconds and no others, and if [RegisterWait] is positive then
    [n × 10^9 ≥ RegisterWait], as long as [n × 10^9] is an [int]. *)
Theorem registerWorkers_sleeps_RegisterWait
    (fuel : nat) (m : Master) (w : World)
    (r : option error) (m' : Master) (w' : World) :
  registerWorkers fuel m w = Ret r m' w' →
  ∃ n : nat,
    n < fuel ∧
    registrations w' = drop n (registrations w) ∧
    ((0 < RegisterWait (Config m))%Z →
     (Z.of_nat n * 10 ^ 9 < GoInt.two63)%Z →
     (RegisterWait (Config m) ≤ Z.of_nat n * 10 ^ 9)%Z).
Proof.
  intros Hret.
  destruct (registerWorkers_inv _ _ _ _ _ _ Hret)
    as (n & m1 & Hn & [_ Hclosed] & Ha & _ & _).
  exists n. split; [done|].
  destruct (afterSeconds_open n (registering m) w) as
    (HC & _ & _ & HR & _); [done|].
  rewrite Ha in Hclosed, HC, HR. simpl in Hclosed, HC, HR.
  split; [done|]. intros Hwait Hsmall.
  unfold stillWaiting in Hclosed. rewrite HC, timerAfter_int64 in Hclosed.
  rewrite int64_small in Hclosed by (unfold GoInt.two63 in *; lia). lia.
Qed.

(** The theorem for the master that waits two seconds. *)
Lemma registerWorkers_sleeps_RegisterWait_witness :
  ∃ r m' w',
    registerWorkers 5 patientMaster threeSeconds = Ret r m' w' ∧
    ∃ n : nat,
      n < 5 ∧
      registrations w' = drop n (registrations threeSeconds) ∧
      ((0 < RegisterWait (Config patientMaster))%Z →
       (Z.of_nat n * 10 ^ 9 < GoInt.two63)%Z →
       (RegisterWait (Config patientMaster) ≤ Z.of_nat n * 10 ^ 9)%Z).
Proof.
  destruct (registerWorkers 5 patientMaster threeSeconds)
    as [r m' w'|msg m' w'|m' w'|m' w'] eqn:E.
  - exists r, m', w'. split; [reflexivity|].
    exact (registerWorkers_sleeps_RegisterWait 5 patientMaster threeSeconds
             r m' w' E).
  - vm_compute in E. discriminate E.
  - vm_compute in E. discriminate E.
  - vm_compute in E. discriminate E.
Defined.

(** X6.  Once [registerWorkers] has returned, registration is closed: a
    call of [RegisterWorker] that gets the pool lock is answered with the
    error "Registration is not open" and an empty job id, for a new worker
    and for a registered one alike, and changes nothing; a call that finds
    the lock held by a [markWorkerFailed] waits and is not answered. *)
Theorem RegisterWorker_rejected_after_window
    (fuel : nat) (m : Master) (w : World)
    (r : option error) (m' : Master) (w' : World) :
  registerWorkers fuel m w = Ret r m' w' →
  ∀ h p w2,
    RegisterWorker Unlocked h p m' w2 =
      Ret (""%string, Some "Registration is not open"%string) m' w2 ∧
    ∀ hp, RegisterWorker (HeldByMarker hp) h p m' w2 = Blocked m' w2.
Proof.
  intros Hret h p w2.
  destruct (registerWorkers_inv _ _ _ _ _ _ Hret) as (n & m1 & _ & _ & _ & -> & _).
  split; [reflexivity|]. intros hp. reflexivity.
Qed.

(** The theorem when the one worker of the sample master has registered. *)
Lemma RegisterWorker_rejected_after_window_witness :
  ∃ r m' w',
    registerWorkers 2 sampleMaster oneRegistration = Ret r m' w' ∧
    ∀ h p w2,
      RegisterWorker Unlocked h p m' w2 =
        Ret (""%string, Some "Registration is not open"%string) m' w2 ∧
      ∀ hp, RegisterWorker (HeldByMarker hp) h p m' w2 = Blocked m' w2.
Proof.
  destruct (registerWorkers 2 sampleMaster oneRegistration)
    as [r m' w'|msg m' w'|m' w'|m' w'] eqn:E.
  - exists r, m', w'. split; [reflexivity|].
    exact (RegisterWorker_rejected_after_window 2 sampleMaster oneRegistration
             r m' w' E).
  - vm_compute in E. discriminate E.
  - vm_compute in E. discriminate E.
  - vm_compute in E. discriminate E.
Defined.

(** X7.  The pool [registerWorkers] returns with holds exactly the workers
    whose calls were served, that is got the pool lock, while the window was
    open, one record for each distinct host and port: a key is in the pool
    if and only if it is the joined host and port of a call served during
    the seconds slept, and every record is kept under its own host and
    port.  Whatever the pool held before is gone. *)
Theorem registerWorkers_pool_is_registrants
    (fuel : nat) (m : Master) (w : World)
    (r : option error) (m' : Master) (w' : World) :
  registerWorkers fuel m w = Ret r m' w' →
  ∃ n : nat,
    registrations w' = drop n (registrations w) ∧
    (∀ hp, is_Some (workerPool m' !! hp) ↔
           ∃ h p, (h, p) ∈ servedIn n w ∧ hp = JoinHostPort h p) ∧
    wfPool (workerPool m') ∧
    partitionMap m' = partitionMap m ∧ Config m' = Config m.
Proof.
  intros Hret.
  destruct (registerWorkers_inv _ _ _ _ _ _ Hret)
    as (n & m1 & _ & _ & Ha & -> & _).
  exists n.
  destruct (afterSeconds_open n (registering m) w) as
    (HC & _ & HP & HR & _ & _ & _ & Hk & Hfr); [done|].
  rewrite Ha in HC, HP, HR, Hk, Hfr. simpl in HC, HP, HR, Hk, Hfr. simpl.
  split_and!; try done.
  - intros hp. rewrite Hk, lookup_empty. split; [|by right].
    intros [[? [=]]|?]; done.
  - apply Hfr. apply map_Forall_empty.
Qed.

(** The theorem for the master that waits two seconds while three workers
    register, one of them twice. *)
Lemma registerWorkers_pool_is_registrants_witness :
  ∃ r m' w',
    registerWorkers 5 patientMaster threeSeconds = Ret r m' w' ∧
    ∃ n : nat,
      registrations w' = drop n (registrations threeSeconds) ∧
      (∀ hp, is_Some (workerPool m' !! hp) ↔
             ∃ h p, (h, p) ∈ servedIn n threeSeconds ∧ hp = JoinHostPort h p) ∧
      wfPool (workerPool m') ∧
      partitionMap m' = partitionMap patientMaster ∧
      Config m' = Config patientMaster.
Proof.
  destruct (registerWorkers 5 patientMaster threeSeconds)
    as [r m' w'|msg m' w'|m' w'|m' w'] eqn:E.
  - exists r, m', w'. split; [reflexivity|].
    exact (registerWorkers_pool_is_registrants 5 patientMaster threeSeconds
             r m' w' E).
  - vm_compute in E. discriminate E.
  - vm_compute in E. discriminate E.
  - vm_compute in E. discriminate E.
Defined.

(** ** Topology *)

(** The statement of the purge for use in what follows. *)
Lemma purge_cases (m : Master) (w : World)
    (m1 : Master) (w1 : World) :
  poolLock_Lock m w = Ret tt m1 w1 →
  wfPool (workerPool m1) →
  ∃ r m' w',
    purgeFailedWorkers m w = Ret r m' w' ∧
    (∀ hp info, workerPool m' !! hp = Some info ↔
                workerPool m1 !! hp = Some info ∧ failed info = false) ∧
    (workerPool m' = ∅ →
       r = Some "no workers left"%string ∧ partitionMap m' = partitionMap m1) ∧
    (workerPool m' ≠ ∅ →
       r = None ∧
       (∀ pid, is_Some (partitionMap m' !! pid) ↔
               is_Some (partitionMap m1 !! pid)) ∧
       (∀ pid wid, partitionMap m1 !! pid = Some wid →
          is_Some (workerPool m1 !! wid) →
          ∃ wid', partitionMap m' !! pid = Some wid' ∧
                  is_Some (workerPool m' !! wid')) ∧
       (ownersIn (partitionMap m1) (workerPool m1) →
        ownersIn (partitionMap m') (workerPool m')) ∧
       (∀ pid wid, partitionMap m1 !! pid = Some wid →
          ¬ failedIn (workerPool m1) wid →
          partitionMap m' !! pid = Some wid)).
Proof.
  intros Hlock Hwf. unfold purgeFailedWorkers. munfold. rewrite Hlock.
  destruct (rangeWorkerPool_spec m1 w1) as (order & w2 & -> & Hperm & _).
  destruct (range_keys _ _ Hperm) as [Hnd Hkeys].
  destruct (purgeScan_spec order [] (workerPool m1) Hnd) as [Hpool Hfw].
  destruct (purgeScan order [] (workerPool m1)) as [fw pool] eqn:Hscan.
  simpl in Hpool, Hfw.
  assert (Hlive : ∀ hp info, pool !! hp = Some info ↔
            workerPool m1 !! hp = Some info ∧ failed info = false).
  { intros hp info. rewrite Hpool.
    destruct (workerPool m1 !! hp) as [i|] eqn:Hi;
      [|split; [done|by intros [? _]]].
    rewrite bool_decide_eq_true_2 by (apply Hkeys; eauto).
    destruct (failed i) eqn:Hf; simpl.
    - split; [done|]. intros [[= ->] ?]. congruence.
    - split; [by intros [= ->]|by intros [? _]]. }
  assert (Hnames : ∀ hp, hp ∈ namesOf fw ↔ failedIn (workerPool m1) hp).
  { intros hp. unfold namesOf, failedIn. rewrite list_elem_of_fmap. split.
    - intros (info & -> & Hin). apply Hfw in Hin as [Hin|(k & _ & Hk & Hf)].
      + by apply elem_of_nil in Hin.
      + exists info. by rewrite (Hwf k info Hk).
    - intros (info & Hl & Hf). exists info. split; [by rewrite (Hwf hp info Hl)|].
      apply Hfw. right. exists hp. split; [apply Hkeys; eauto|done]. }
  destruct (decide (size pool = 0)) as [Hz|Hnz].
  - apply map_size_empty_iff in Hz as ->.
    eexists _, _, _. split; [reflexivity|]. simpl.
    split; [done|]. split; [done|]. by intros [].
  - assert (Hne : pool ≠ ∅) by (by intros ->).
    destruct (moveAll_owners fw (set_workerPool pool m1) w2)
      as (m' & w' & Hmv & Hp' & Hown); [done| |].
    { simpl. intros hp (info & Hl & Hf)%Hnames.
      destruct (pool !! hp) as [i|] eqn:Hi; [|done].
      apply Hlive in Hi as [Hi Hfi]. congruence. }
    simpl in Hp', Hown. exists None, m', w'. split; [done|].
    rewrite Hp'. split; [done|]. split; [done|]. intros _. split; [done|].
    assert (Hmoved : ∀ pid wid, partitionMap m1 !! pid = Some wid →
              ∃ wid', partitionMap m' !! pid = Some wid' ∧
                (failedIn (workerPool m1) wid → is_Some (pool !! wid')) ∧
                (¬ failedIn (workerPool m1) wid → wid' = wid)).
    { intros pid wid Hl. specialize (Hown pid). rewrite Hl in Hown.
      destruct Hown as (wid' & Hl' & Hcase). exists wid'. split; [done|].
      destruct (decide (wid ∈ namesOf fw)) as [Hin|Hout].
      - split; [done|]. intros Hnf. by apply Hnames in Hin.
      - split; [|done]. intros Hf. by apply Hnames in Hf. }
    assert (Hone : ∀ pid wid, partitionMap m1 !! pid = Some wid →
              is_Some (workerPool m1 !! wid) →
              ∃ wid', partitionMap m' !! pid = Some wid' ∧ is_Some (pool !! wid')).
    { intros pid wid Hl [info Hinfo].
      destruct (Hmoved pid wid Hl) as (wid' & Hl' & Hfailed & Hkept).
      exists wid'. split; [done|].
      destruct (failed info) eqn:Hf.
      - apply Hfailed. by exists info.
      - rewrite Hkept.
        + exists info. by apply Hlive.
        + intros (i & Hi & Hfi). congruence. }
    split; [|split; [done|split]].
    + intros pid. specialize (Hown pid).
      destruct (partitionMap m1 !! pid) as [wid|].
      * destruct Hown as (wid' & -> & _). split; eauto.
      * rewrite Hown. done.
    + intros Hall pid wid' Hl'.
      destruct (partitionMap m1 !! pid) as [wid|] eqn:Hl.
      * destruct (Hone pid wid Hl (Hall pid wid Hl)) as (wid'' & Hl'' & Hin).
        congruence.
      * specialize (Hown pid). rewrite Hl in Hown. congruence.
    + intros pid wid Hl Hnf.
      destruct (Hmoved pid wid Hl) as (wid' & Hl' & _ & Hkept).
      by rewrite Hl', Hkept.
Qed.

Lemma samePartitions_refl pmap : samePartitions pmap pmap.
Proof. by intros pid. Qed.

Lemma samePartitions_trans p1 p2 p3 :
  samePartitions p1 p2 → samePartitions p2 p3 → samePartitions p1 p3.
Proof. intros H1 H2 pid. by rewrite (H1 pid). Qed.

Lemma poolWithin_refl pool : poolWithin pool pool.
Proof. by intros hp. Qed.

Lemma poolWithin_trans p1 p2 p3 :
  poolWithin p1 p2 → poolWithin p2 p3 → poolWithin p1 p3.
Proof. intros H1 H2 hp ?. by apply H2, H1. Qed.

Lemma moveAll_samePartitions failedWorkers m w :
  samePartitions (partitionMap (stateOf (moveAll failedWorkers m w)).1)
                 (partitionMap m).
Proof.
  revert m w. induction failedWorkers as [|info rest IH]; intros m w; simpl.
  - apply samePartitions_refl.
  - destruct (movePartitions_spec (JoinHostPort (host info) (port info)) m w)
      as (order & w1 & Hmv & _ & _).
    munfold. rewrite Hmv.
    eapply samePartitions_trans; [apply IH|].
    intros pid. simpl. rewrite lookup_fmap.
    by destruct (partitionMap m !! pid); simpl; split; intros [? ?]; eauto.
Qed.

(** What the pool and the map are after the purge, whatever the pool. *)
Lemma purge_pool m w m1 w1 :
  poolLock_Lock m w = Ret tt m1 w1 →
  ∃ r m' w',
    purgeFailedWorkers m w = Ret r m' w' ∧
    (∀ hp info, workerPool m' !! hp = Some info ↔
                workerPool m1 !! hp = Some info ∧ failed info = false) ∧
    samePartitions (partitionMap m') (partitionMap m1) ∧
    (workerPool m' = ∅ →
       r = Some "no workers left"%string ∧ partitionMap m' = partitionMap m1) ∧
    (workerPool m' ≠ ∅ → r = None).
Proof.
  intros Hlock. unfold purgeFailedWorkers. munfold. rewrite Hlock.
  destruct (rangeWorkerPool_spec m1 w1) as (order & w2 & -> & Hperm & _).
  destruct (range_keys _ _ Hperm) as [Hnd Hkeys].
  destruct (purgeScan_spec order [] (workerPool m1) Hnd) as [Hpool _].
  destruct (purgeScan order [] (workerPool m1)) as [fw pool] eqn:Hscan.
  simpl in Hpool.
  assert (Hlive : ∀ hp info, pool !! hp = Some info ↔
            workerPool m1 !! hp = Some info ∧ failed info = false).
  { intros hp info. rewrite Hpool.
    destruct (workerPool m1 !! hp) as [i|] eqn:Hi;
      [|split; [done|by intros [? _]]].
    rewrite bool_decide_eq_true_2 by (apply Hkeys; eauto).
    destruct (failed i) eqn:Hf; simpl.
    - split; [done|]. intros [[= ->] ?]. congruence.
    - split; [by intros [= ->]|by intros [? _]]. }
  destruct (decide (size pool = 0)) as [Hz|Hnz].
  - apply map_size_empty_iff in Hz as ->.
    eexists _, _, _. split; [reflexivity|]. simpl.
    split_and!; try done; apply samePartitions_refl.
  - assert (Hne : pool ≠ ∅) by (by intros ->).
    destruct (moveAll_frame fw (set_workerPool pool m1) w2)
      as (m' & w' & Hmv & _ & Hp').
    pose proof (moveAll_samePartitions fw (set_workerPool pool m1) w2) as Hsame.
    rewrite Hmv in Hsame. simpl in Hsame, Hp'.
    exists None, m', w'. split; [done|]. rewrite Hp'. by split_and!.
Qed.

Lemma markWorkerFailed_flags hp msg m k info :
  workerPool m !! k = Some info →
  ∃ info', workerPool (markWorkerFailed hp msg m).1 !! k = Some info' ∧
    host info' = host info ∧ port info' = port info ∧
    (failed info = true → failed info' = true).
Proof.
  intros Hk. unfold markWorkerFailed.
  destruct (workerPool m !! hp) as [i|] eqn:Hi; simpl; [|by eauto].
  destruct (decide (hp = k)) as [->|Hne].
  - rewrite lookup_insert_eq. eexists. split; [done|].
    assert (i = info) as -> by congruence. done.
  - rewrite lookup_insert_ne by done. by eauto.
Qed.

Lemma poolLock_Lock_flags m w m1 w1 k info :
  poolLock_Lock m w = Ret tt m1 w1 →
  workerPool m !! k = Some info →
  ∃ info', workerPool m1 !! k = Some info' ∧
    host info' = host info ∧ port info' = port info ∧
    (failed info = true → failed info' = true).
Proof.
  unfold poolLock_Lock. destruct (failures w) as [|marks rest].
  { intros [= <- _] Hk. by eauto. }
  intros [= <- _]. clear rest. revert m info.
  induction marks as [|[hp msg] marks IH]; intros m info Hk; simpl; [by eauto|].
  destruct (markWorkerFailed_flags hp msg m k info Hk) as (i1 & H1 & Hh & Hp & Hf).
  destruct (IH _ _ H1) as (i2 & H2 & Hh2 & Hp2 & Hf2).
  exists i2. split; [done|]. split_and!; [congruence|congruence|tauto].
Qed.

(** A phase, by what the purge at its head returns. *)
Lemma executePhase_shape phaseId m w :
  ∃ r mp wp,
    purgeFailedWorkers m w = Ret r mp wp ∧ purgeFrame m w mp wp ∧
    match r with
    | Some e =>
        executePhase phaseId m w = Ret [e] mp wp ∧
        r = Some "no workers left"%string ∧ workerPool mp = ∅
    | None =>
        workerPool mp ≠ ∅ ∧
        workerPool (stateOf (executePhase phaseId m w)).1 = workerPool mp ∧
        partitionMap (stateOf (executePhase phaseId m w)).1 = partitionMap mp ∧
        phase (stateOf (executePhase phaseId m w)).1 = phaseId ∧
        trace (stateOf (executePhase phaseId m w)).2 =
          trace w ++ [RpcExecutePhase (dom (workerPool mp))
                        (newPhaseExec phaseId (set_phase phaseId mp))]
    end.
Proof.
  destruct (purgeFailedWorkers_frame m w)
    as (r & mp & wp & Hp & Hf & Hcase & Hne).
  exists r, mp, wp. split; [done|]. split; [done|].
  unfold executePhase. munfold. rewrite Hp.
  destruct r as [e|].
  - destruct Hcase as [[=]|(He & Hempty & _)]. by split_and!.
  - specialize (Hne eq_refl).
    destruct Hf as (_ & _ & _ & _ & _ & _ & HT & _).
    unfold sendExecToAllWorkers, awaitBarrier. munfold. simpl.
    destruct (barrier (workerPool mp) (barrierCh wp) newPhaseInfo)
      as [info rest|outstanding info]; simpl.
    + destruct (decide (0 < length (collectPhaseErrors info))); simpl;
        by rewrite HT.
    + by rewrite HT.
Qed.

(** X8.  Whatever the state and the world, [executePhase] issues its orders
    to the live workers only.  Either the purge has left no worker: then it
    returns the one error "no workers left", having sent no order and
    received nothing from the barrier channel.  Or it sends exactly one
    round of [ExecutePhase] calls, to the workers of the pool as the purge
    left it, none of which is marked failed, with an order that carries the
    phase, the configured job id, the current superstep, the committed
    number of vertices and the checkpoint decision for that superstep. *)
Theorem executePhase_orders_live_workers
    (phaseId : Z) (m : Master) (w : World) :
  (executePhase phaseId m w
     = Ret ["no workers left"%string]
         (stateOf (executePhase phaseId m w)).1
         (stateOf (executePhase phaseId m w)).2 ∧
   workerPool (stateOf (executePhase phaseId m w)).1 = ∅ ∧
   addedTrace w (stateOf (executePhase phaseId m w)).2 = [] ∧
   barrierCh (stateOf (executePhase phaseId m w)).2 = barrierCh w) ∨
  (workerPool (stateOf (executePhase phaseId m w)).1 ≠ ∅ ∧
   phase (stateOf (executePhase phaseId m w)).1 = phaseId ∧
   addedTrace w (stateOf (executePhase phaseId m w)).2 =
     [RpcExecutePhase (dom (workerPool (stateOf (executePhase phaseId m w)).1))
        {| PhaseId := phaseId;
           ExecJobId := JobId (Config m);
           Superstep := superstep (m_jobInfo m);
           ExecNumVerts := numVerts (j_phaseInfo (m_jobInfo m));
           Checkpoint := checkpointFn m (superstep (m_jobInfo m)) |}] ∧
   ∀ hp info,
     workerPool (stateOf (executePhase phaseId m w)).1 !! hp = Some info →
     failed info = false).
Proof.
  destruct (poolLock_Lock_spec m w) as (m1 & w1 & Hlock & _).
  destruct (purge_pool m w m1 w1 Hlock) as (r' & mp' & wp' & Hp' & Hlive & _).
  destruct (executePhase_shape phaseId m w)
    as (r & mp & wp & Hp & Hf & Hcase).
  rewrite Hp in Hp'. injection Hp' as <- <- <-.
  destruct Hf as (HC & HJ & _ & HF & _ & HB & HT & _).
  destruct r as [e|].
  - left. destruct Hcase as (Hx & [= ->] & Hempty). rewrite Hx. simpl.
    split_and!; try done. unfold addedTrace. by rewrite HT, drop_all.
  - right. destruct Hcase as (Hne & Hpool & _ & Hphase & Htrace).
    rewrite Hpool. split_and!; try done.
    + unfold addedTrace. rewrite Htrace, drop_app_length.
      unfold newPhaseExec. simpl. by rewrite HC, HJ, HF.
    + intros hp info Hl. by apply Hlive in Hl as [_ ?].
Qed.

(** ** The initial assignment, without conditions *)

Lemma assignPass_any (pool : gmap string workerInfo) order p pmap :
  (∀ hp, hp ∈ order → is_Some (pool !! hp)) →
  ownersIn pmap pool → keysInRange pmap →
  ownersIn (assignPass order p pmap).2 pool ∧
  keysInRange (assignPass order p pmap).2 ∧
  size (assignPass order p pmap).2 ≤ size pmap + length order.
Proof.
  revert p pmap. induction order as [|x order IH];
    intros p pmap Hin Hown Hkeys.
  - simpl. split_and!; [done|done|lia].
  - cbn [assignPass length].
    destruct (IH (GoInt.int64 (p + 1)) (<[GoInt.uint64 p := x]> pmap))
      as (H1 & H2 & H3).
    + intros hp Hhp. apply Hin. set_solver.
    + apply map_Forall_insert_2; [|done]. apply Hin. set_solver.
    + apply map_Forall_insert_2; [|done]. apply uint64_range.
    + split_and!; [done|done|].
      etrans; [exact H3|]. rewrite map_size_insert.
      destruct (pmap !! GoInt.uint64 p); unfold id; lia.
Qed.

Lemma assignPasses_any n p m w :
  ownersIn (partitionMap m) (workerPool m) → keysInRange (partitionMap m) →
  ∃ m' w',
    assignPasses n p m w = Ret tt m' w' ∧ purgeFrame m w m' w' ∧
    workerPool m' = workerPool m ∧
    ownersIn (partitionMap m') (workerPool m) ∧
    keysInRange (partitionMap m') ∧
    size (partitionMap m') ≤ size (partitionMap m) + n * size (workerPool m) ∧
    (workerPool m = ∅ → partitionMap m' = partitionMap m).
Proof.
  revert p m w. induction n as [|n IH]; intros p m w Hown Hkeys.
  - exists m, w. simpl. split_and!; try done; try apply purgeFrame_refl; lia.
  - cbn [assignPasses]. munfold.
    destruct (rangeWorkerPool_spec m w) as (order & w1 & -> & Hperm & Hf1).
    destruct (range_keys _ _ Hperm) as [Hnd Hk].
    pose proof (range_length _ _ Hperm) as Hlen.
    destruct (assignPass_any (workerPool m) order p (partitionMap m))
      as (H1 & H2 & H3); [by intros hp ?%Hk|done|done|].
    assert (Hempty : workerPool m = ∅ →
              (assignPass order p (partitionMap m)).2 = partitionMap m).
    { intros He. rewrite He, map_size_empty in Hlen.
      by destruct order. }
    destruct (assignPass order p (partitionMap m)) as [p' pm1] eqn:Hpass.
    simpl in H1, H2, H3, Hempty.
    destruct (IH p' (set_partitionMap pm1 m) w1)
      as (m' & w' & Hrun & Hf & Hpool & I1 & I2 & I3 & I4); [done|done|].
    simpl in Hpool, I1, I2, I3, I4.
    exists m', w'. split; [done|]. split_and!; try done.
    + eapply purgeFrame_trans; [exact Hf1|].
      eapply purgeFrame_trans; [|exact Hf]. by repeat split.
    + lia.
    + intros He. rewrite I4, Hempty by done. done.
Qed.

(** X10.  [determinePartitions] always returns, whatever the pool and the
    configured count, and leaves the pool and the rest of the master as they
    were.  The map it builds gives every partition to a worker of the pool,
    has identifiers a [uint64] can hold only, and has at most [int(k) × W]
    partitions for [k = MinPartitionsPerWorker] and a pool of [W] workers;
    it is empty when the pool is empty or [int(k)] is not positive.  With
    the records of the pool under their host and port the topology is then
    sound. *)
Theorem determinePartitions_owners_are_workers (m : Master) (w : World) :
  ∃ m' w',
    determinePartitions m w = Ret tt m' w' ∧
    purgeFrame m w m' w' ∧
    workerPool m' = workerPool m ∧
    ownersIn (partitionMap m') (workerPool m') ∧
    keysInRange (partitionMap m') ∧
    size (partitionMap m')
      ≤ Z.to_nat (GoInt.int64 (MinPartitionsPerWorker (Config m)))
        * size (workerPool m) ∧
    (workerPool m = ∅ ∨
     (GoInt.int64 (MinPartitionsPerWorker (Config m)) ≤ 0)%Z →
     partitionMap m' = ∅) ∧
    (wfPool (workerPool m) → topologyOk m').
Proof.
  unfold determinePartitions. munfold. simpl.
  set (n := Z.to_nat (GoInt.int64 (MinPartitionsPerWorker (Config m)))).
  destruct (assignPasses_any n 0 (set_partitionMap ∅ m) w)
    as (m' & w' & Hrun & Hf & Hpool & I1 & I2 & I3 & I4);
    [apply map_Forall_empty|apply map_Forall_empty|].
  simpl in Hpool, I1, I2, I3, I4. rewrite map_size_empty in I3.
  exists m', w'. split; [done|]. rewrite Hpool. split_and!; try done.
  - intros [He|Hk]; [by apply I4|].
    apply map_size_empty_inv. subst n.
    lia.
  - intros Hwf. split; by rewrite Hpool.
Qed.

(** ** The topology through the phases *)

Lemma topologyKept_refl m : topologyOk m → topologyKept m m.
Proof.
  intros H. split; [done|]. split; [apply samePartitions_refl|].
  apply poolWithin_refl.
Qed.

Lemma topologyKept_trans m1 m2 m3 :
  topologyKept m1 m2 → topologyKept m2 m3 → topologyKept m1 m3.
Proof.
  intros (_ & Hs1 & Hp1) (Hok & Hs2 & Hp2). split; [done|]. split.
  - eapply samePartitions_trans; [exact Hs2|exact Hs1].
  - eapply poolWithin_trans; [exact Hp2|exact Hp1].
Qed.

Lemma executePhase_topology phaseId m w :
  topologyOk m → topologyKept m (stateOf (executePhase phaseId m w)).1.
Proof.
  intros [Hwf Hown].
  destruct (poolLock_Lock_spec m w) as (m1 & w1 & Hlock & _ & Hpm1 & Hdom1).
  pose proof (poolLock_Lock_wfPool _ _ _ _ Hwf Hlock) as Hwf1.
  destruct (purge_cases m w m1 w1 Hlock Hwf1)
    as (r & mp & wp & Hp & Hlive & _ & Hmoved).
  destruct (purge_pool m w m1 w1 Hlock)
    as (r' & mp' & wp' & Hp' & _ & Hsame & _).
  rewrite Hp in Hp'. injection Hp' as <- <- <-.
  destruct (executePhase_shape phaseId m w)
    as (r' & mp' & wp' & Hp' & _ & Hcase).
  rewrite Hp in Hp'. injection Hp' as <- <- <-.
  assert (Hst : workerPool (stateOf (executePhase phaseId m w)).1
                = workerPool mp ∧
                partitionMap (stateOf (executePhase phaseId m w)).1
                = partitionMap mp).
  { destruct r as [e|].
    - destruct Hcase as (-> & _). done.
    - by destruct Hcase as (_ & ? & ? & _). }
  destruct Hst as [Hpool Hpmap].
  assert (Hin : ∀ hp, is_Some (workerPool m1 !! hp) ↔
                      is_Some (workerPool m !! hp)).
  { intros hp. by rewrite <- !elem_of_dom, Hdom1. }
  unfold topologyKept, topologyOk. rewrite Hpool, Hpmap. split_and!.
  - intros hp info Hl. apply Hlive in Hl as [Hl _]. by apply (Hwf1 hp info).
  - intros Hne. destruct (Hmoved Hne) as (_ & _ & _ & Hkeep & _).
    apply Hkeep. rewrite Hpm1.
    assert (workerPool m ≠ ∅) as Hne0.
    { intros He. apply Hne. apply map_eq. intros hp.
      rewrite lookup_empty. apply eq_None_not_Some. intros [info Hl].
      apply Hlive in Hl as [Hl _].
      assert (is_Some (workerPool m !! hp)) as [? Hx] by (apply Hin; eauto).
      by rewrite He, lookup_empty in Hx. }
    intros pid wid Hl. apply Hin. by apply (Hown Hne0 pid wid).
  - by rewrite <- Hpm1.
  - intros hp [info Hl]. apply Hlive in Hl as [Hl _]. apply Hin. eauto.
Qed.

Lemma stepped_topology m m0 : topologyKept m0 m → topologyKept m0 (stepped m).
Proof. done. Qed.

Lemma superstepBody_topology m w :
  topologyOk m → topologyKept m (stateOf (superstepBody m w)).1.
Proof.
  intros Hok. rewrite superstepBody_eq.
  pose proof (executePhase_topology PHASE_STEP_PREPARE m w Hok) as H1.
  destruct (executePhase PHASE_STEP_PREPARE m w) as [e1 m1 w1| | |];
    simpl in *; try done.
  pose proof (executePhase_topology PHASE_SUPERSTEP m1 w1 (proj1 H1)) as H2.
  destruct (executePhase PHASE_SUPERSTEP m1 w1) as [e2 m2 w2| | |];
    simpl in *; try (by eapply topologyKept_trans).
  destruct (checkpointFn m2 (superstep (m_jobInfo m2))); simpl;
    by eapply topologyKept_trans.
Qed.

Lemma computeLoop_topology fuel m w :
  topologyOk m → topologyKept m (stateOf (computeLoop fuel m w)).1.
Proof.
  revert m w. induction fuel as [|fuel IH]; intros m w Hok.
  { by apply topologyKept_refl. }
  destruct (decide (loopDone m)) as [Hdone|Hgo].
  - assert (computeLoop (S fuel) m w = Ret None m w) as ->.
    { simpl. munfold. destruct (decide (workLeft m)) as [Hw|Hw]; [|done].
      destruct (decide (hitMaxSteps m)) as [Hm|Hm]; [done|].
      by destruct Hdone. }
    by apply topologyKept_refl.
  - rewrite computeLoop_body by done. unfold afterPhases, afterSuperstep.
    pose proof (executePhase_topology PHASE_STEP_PREPARE m w Hok) as H1.
    destruct (executePhase PHASE_STEP_PREPARE m w) as [e1 m1 w1| | |];
      simpl in *; try done.
    pose proof (executePhase_topology PHASE_SUPERSTEP m1 w1 (proj1 H1)) as H2.
    pose proof (topologyKept_trans _ _ _ H1 H2) as H3.
    destruct (executePhase PHASE_SUPERSTEP m1 w1) as [e2 m2 w2| | |];
      simpl in *; try done.
    assert (Hstep : ∀ w3, topologyKept m
              (stateOf (computeLoop fuel (stepped m2) w3)).1).
    { intros w3. eapply topologyKept_trans; [exact H3|].
      apply (IH (stepped m2) w3). exact (proj1 H3). }
    destruct (checkpointFn m2 (superstep (m_jobInfo m2))); [|apply Hstep].
    destruct (PersistMaster (persister m2) (superstep (m_jobInfo m2))
                (partitionMap m2)); [done|apply Hstep].
Qed.

(** X11.  The topology stays sound through the phases.  From a master whose
    pool holds every record under its host and port and whose partitions,
    when there is a worker, all belong to workers of the pool, a phase,
    however it ends, leaves a master of which the same holds; the
    partitions are the same ones, and the pool has gained no worker. *)
Theorem executePhase_keeps_topology
    (phaseId : Z) (m : Master) (w : World) :
  topologyOk m →
  topologyOk (stateOf (executePhase phaseId m w)).1 ∧
  samePartitions (partitionMap (stateOf (executePhase phaseId m w)).1)
                 (partitionMap m) ∧
  poolWithin (workerPool (stateOf (executePhase phaseId m w)).1)
             (workerPool m).
Proof. apply executePhase_topology. Qed.

Lemma executePhase_keeps_topology_witness :
  topologyOk halfFailedMaster ∧
  topologyOk (stateOf (executePhase PHASE_SUPERSTEP halfFailedMaster
                         lostWorld)).1.
Proof.
  assert (H : topologyOk halfFailedMaster).
  { apply (bool_decide_unpack _). vm_compute. exact I. }
  split; [exact H|].
  exact (proj1 (executePhase_keeps_topology PHASE_SUPERSTEP halfFailedMaster
                  lostWorld H)).
Defined.

(** X12.  So does the whole computation: whatever the workers report and
    whichever of them fail on the way, and however [compute] ends or
    wherever it stands when the fuel runs out, the master it leaves has a
    sound topology with the partitions it started with and no worker it did
    not start with. *)
Theorem compute_keeps_topology (fuel : nat) (m : Master) (w : World) :
  topologyOk m →
  topologyOk (stateOf (compute fuel m w)).1 ∧
  samePartitions (partitionMap (stateOf (compute fuel m w)).1)
                 (partitionMap m) ∧
  poolWithin (workerPool (stateOf (compute fuel m w)).1) (workerPool m).
Proof.
  intros Hok. unfold compute. munfold.
  apply (computeLoop_topology fuel
           (set_jobInfo (set_superstep 0 (m_jobInfo m)) m) w Hok).
Qed.

Lemma compute_keeps_topology_witness :
  topologyOk busyMaster ∧
  topologyOk (stateOf (compute 3 busyMaster twoSupersteps)).1.
Proof.
  assert (H : topologyOk busyMaster).
  { apply (bool_decide_unpack _). vm_compute. exact I. }
  split; [exact H|].
  exact (proj1 (compute_keeps_topology 3 busyMaster twoSupersteps H)).
Defined.

(** ** Workers marked failed and still in the pool *)

Lemma failedFold_spec (pool : gmap string workerInfo) order acc :
  foldl (λ failedList hp,
           match pool !! hp with
           | Some info => if failed info then failedList ++ [info]
                          else failedList
           | None => failedList
           end) acc order
  = acc ++ filter (λ info, failed info = true) (omap (pool !!.) order).
Proof.
  revert acc. induction order as [|hp order IH]; intros acc.
  - simpl. by rewrite app_nil_r.
  - simpl. rewrite IH.
    destruct (pool !! hp) as [info|] eqn:Hl; simpl; [|done].
    rewrite filter_cons. destruct (failed info) eqn:Hf.
    + rewrite decide_True by done. by rewrite <- app_assoc.
    + rewrite decide_False by done. done.
Qed.

Lemma omap_lookup_pairs (pool : gmap string workerInfo)
    (l : list (string * workerInfo)) :
  Forall (λ kv, pool !! kv.1 = Some kv.2) l →
  omap (pool !!.) l.*1 = l.*2.
Proof.
  induction 1 as [|[hp info] l Hl _ IH]; [done|].
  simpl in *. rewrite Hl. by f_equal.
Qed.

Lemma omap_lookup_range (pool : gmap string workerInfo) order :
  order ≡ₚ (map_to_list pool).*1 →
  omap (pool !!.) order ≡ₚ (map_to_list pool).*2.
Proof.
  intros ->. rewrite omap_lookup_pairs; [done|].
  apply Forall_forall. intros [hp info] Hin. by apply elem_of_map_to_list.
Qed.

(** X13.  [failedActiveWorkers] returns the records of the pool that are
    marked failed, each once and none else, in the order in which the map
    happens to be ranged over; it changes nothing of the master beyond what
    the lock makes visible, sends nothing and receives nothing.  Right after
    [purgeFailedWorkers], if no goroutine has marked a worker since, it
    returns the empty list. *)
Theorem failedActiveWorkers_lists_failed_records (m : Master) (w : World) :
  (∃ m1 w1 l w',
     poolLock_Lock m w = Ret tt m1 w1 ∧
     failedActiveWorkers m w = Ret l m1 w' ∧
     purgeFrame m1 w1 m1 w' ∧
     l ≡ₚ failedRecords (workerPool m1)) ∧
  (∃ w',
     failedActiveWorkers (stateOf (purgeFailedWorkers m w)).1
       (undisturbed (stateOf (purgeFailedWorkers m w)).2)
     = Ret [] (stateOf (purgeFailedWorkers m w)).1 w').
Proof.
  assert (Hgen : ∀ m w, ∃ m1 w1 l w',
            poolLock_Lock m w = Ret tt m1 w1 ∧
            failedActiveWorkers m w = Ret l m1 w' ∧
            purgeFrame m1 w1 m1 w' ∧
            l ≡ₚ failedRecords (workerPool m1)).
  { clear m w. intros m w.
    destruct (poolLock_Lock_spec m w) as (m1 & w1 & Hlock & _).
    unfold failedActiveWorkers. munfold. rewrite Hlock.
    destruct (rangeWorkerPool_spec m1 w1) as (order & w2 & -> & Hperm & Hf).
    eexists m1, w1, _, w2. split; [done|]. split; [done|]. split; [done|].
    rewrite failedFold_spec. simpl. unfold failedRecords.
    by rewrite (omap_lookup_range _ _ Hperm). }
  split; [apply Hgen|].
  destruct (poolLock_Lock_spec m w) as (m1 & w1 & Hlock & _).
  destruct (purge_pool m w m1 w1 Hlock) as (r & mp & wp & Hp & Hlive & _).
  rewrite Hp. simpl.
  destruct (Hgen mp (undisturbed wp)) as (m2 & w2 & l & w' & Hl2 & Hrun & _ & Hl).
  unfold poolLock_Lock, undisturbed in Hl2. simpl in Hl2.
  injection Hl2 as <- <-. exists w'. rewrite Hrun. f_equal.
  destruct l as [|info l]; [done|]. exfalso.
  assert (info ∈ failedRecords (workerPool mp)) as Hin.
  { rewrite <- Hl. set_solver. }
  apply list_elem_of_filter in Hin as [Hfailed Hin].
  apply list_elem_of_fmap in Hin as ([hp info'] & -> & Hin).
  apply elem_of_map_to_list, Hlive in Hin as [_ Hin]. simpl in *. congruence.
Qed.

(** ** What [compute] does to the outside *)

Lemma extends_refl P w : extends P w w.
Proof. exists []. by rewrite app_nil_r. Qed.

Lemma extends_trans P w1 w2 w3 :
  extends P w1 w2 → extends P w2 w3 → extends P w1 w3.
Proof.
  intros (l1 & H1 & F1) (l2 & H2 & F2). exists (l1 ++ l2).
  rewrite H2, H1, app_assoc. split; [done|]. by apply Forall_app.
Qed.

Lemma extends_added P w w' :
  extends P w w' → Forall P (addedTrace w w').
Proof.
  intros (l & Hl & HF). unfold addedTrace. by rewrite Hl, drop_app_length.
Qed.

Lemma computeAction_frame m m' a :
  Config m' = Config m → checkpointFn m' = checkpointFn m →
  computeAction m' a → computeAction m a.
Proof. intros HC HF. destruct a; simpl; by rewrite ?HC, ?HF. Qed.

Lemma extends_frame m m' w w' :
  Config m' = Config m → checkpointFn m' = checkpointFn m →
  extends (computeAction m') w w' → extends (computeAction m) w w'.
Proof.
  intros HC HF (l & Hl & Hall). exists l. split; [done|].
  eapply Forall_impl; [exact Hall|]. intros a. by apply computeAction_frame.
Qed.

Lemma executePhase_extends phaseId m w :
  phaseId = PHASE_STEP_PREPARE ∨ phaseId = PHASE_SUPERSTEP →
  GoInt.is_uint64 (superstep (m_jobInfo m)) →
  extends (computeAction m) w (stateOf (executePhase phaseId m w)).2.
Proof.
  intros Hphase Hs.
  destruct (executePhase_shape phaseId m w)
    as (r & mp & wp & Hp & Hf & Hcase).
  destruct Hf as (HC & HJ & _ & HF & _ & _ & HT & _).
  destruct r as [e|].
  - destruct Hcase as (-> & _). simpl. exists []. by rewrite app_nil_r.
  - destruct Hcase as (Hne & _ & _ & _ & Htrace).
    eexists. split; [exact Htrace|]. apply Forall_singleton. simpl.
    rewrite HC, HJ, HF. split_and!; try done.
    intros He. apply Hne. by apply dom_empty_iff_L.
Qed.

Lemma computeLoop_extends fuel m w :
  GoInt.is_uint64 (superstep (m_jobInfo m)) →
  extends (computeAction m) w (stateOf (computeLoop fuel m w)).2.
Proof.
  revert m w. induction fuel as [|fuel IH]; intros m w Hs.
  { apply extends_refl. }
  destruct (decide (loopDone m)) as [Hdone|Hgo].
  - assert (computeLoop (S fuel) m w = Ret None m w) as ->.
    { simpl. munfold. destruct (decide (workLeft m)) as [Hw|Hw]; [|done].
      destruct (decide (hitMaxSteps m)) as [Hm|Hm]; [done|].
      by destruct Hdone. }
    apply extends_refl.
  - rewrite computeLoop_body by done. unfold afterPhases, afterSuperstep.
    pose proof (executePhase_extends PHASE_STEP_PREPARE m w (or_introl eq_refl) Hs)
      as H1.
    destruct (executePhase_frame PHASE_STEP_PREPARE m w)
      as ((HC1 & HF1 & _) & Hs1 & _).
    destruct (executePhase PHASE_STEP_PREPARE m w) as [e1 m1 w1| | |];
      simpl in *; try done.
    assert (Hs1' : GoInt.is_uint64 (superstep (m_jobInfo m1)))
      by (by rewrite Hs1).
    pose proof (executePhase_extends PHASE_SUPERSTEP m1 w1 (or_intror eq_refl) Hs1')
      as H2.
    apply (extends_frame m m1) in H2; [|done|done].
    pose proof (extends_trans _ _ _ _ H1 H2) as H3.
    destruct (executePhase_frame PHASE_SUPERSTEP m1 w1)
      as ((HC2 & HF2 & _) & Hs2 & _).
    destruct (executePhase PHASE_SUPERSTEP m1 w1) as [e2 m2 w2| | |];
      simpl in *; try done.
    assert (HC : Config m2 = Config m) by congruence.
    assert (HF : checkpointFn m2 = checkpointFn m) by congruence.
    assert (Hstep : ∀ w3, extends (computeAction m) w w3 →
              extends (computeAction m) w
                (stateOf (computeLoop fuel (stepped m2) w3)).2).
    { intros w3 H4. eapply extends_trans; [exact H4|].
      apply (extends_frame m (stepped m2)); [done|done|].
      apply IH. simpl. apply uint64_range. }
    assert (Hpers : checkpointFn m2 (superstep (m_jobInfo m2)) = true →
              extends (computeAction m) w (persisted m2 w2)).
    { intros Hcp. eapply extends_trans; [exact H3|].
      eexists. split; [reflexivity|]. apply Forall_singleton. simpl.
      rewrite <- HF. split; [congruence|done]. }
    destruct (checkpointFn m2 (superstep (m_jobInfo m2))) eqn:Hcp;
      [|by apply Hstep].
    destruct (PersistMaster (persister m2) (superstep (m_jobInfo m2))
                (partitionMap m2)); [by apply Hpers|].
    apply Hstep. by apply Hpers.
Qed.

(** X14.  Whatever happens, [compute] does nothing to the outside but these
    two things: it orders phases, and only the two phases of a superstep,
    each order made out for the configured job and with the checkpoint
    decision of the superstep it names, and sent to at least one worker; and
    it calls [PersistMaster], and only for a superstep for which the
    checkpoint function asks.  It starts no heartbeat. *)
Theorem compute_acts_only_as_asked (fuel : nat) (m : Master) (w : World) :
  Forall (computeAction m) (addedTrace w (stateOf (compute fuel m w)).2).
Proof.
  apply extends_added. unfold compute. munfold.
  apply (extends_frame m (set_jobInfo (set_superstep 0 (m_jobInfo m)) m));
    [done|done|].
  apply computeLoop_extends. simpl. unfold GoInt.is_uint64, GoInt.two64. lia.
Qed.

Lemma computeLoop_bounded fuel m w :
  (0 < MaxSteps (Config m))%Z →
  (0 ≤ superstep (m_jobInfo m) ≤ MaxSteps (Config m))%Z →
  (MaxSteps (Config m) < GoInt.two64)%Z →
  (MaxSteps (Config m) - superstep (m_jobInfo m) < Z.of_nat fuel)%Z →
  (∀ m' w', computeLoop fuel m w ≠ Running m' w') ∧
  (superstep (m_jobInfo m)
     ≤ superstep (m_jobInfo (stateOf (computeLoop fuel m w)).1)
     ≤ MaxSteps (Config m))%Z.
Proof.
  revert m w. induction fuel as [|fuel IH]; intros m w Hmax Hs Hlt Hfuel.
  { lia. }
  destruct (decide (loopDone m)) as [Hdone|Hgo].
  - assert (computeLoop (S fuel) m w = Ret None m w) as ->.
    { simpl. munfold. destruct (decide (workLeft m)) as [Hw|Hw]; [|done].
      destruct (decide (hitMaxSteps m)) as [Hm|Hm]; [done|].
      by destruct Hdone. }
    simpl. split; [done|lia].
  - rewrite computeLoop_body by done. apply not_loopDone in Hgo as [_ Hhit].
    assert (Hbelow : (superstep (m_jobInfo m) < MaxSteps (Config m))%Z).
    { unfold hitMaxSteps in Hhit. lia. }
    unfold afterPhases, afterSuperstep.
    destruct (executePhase_frame PHASE_STEP_PREPARE m w)
      as ((HC1 & _) & Hs1 & Hrun1).
    destruct (executePhase PHASE_STEP_PREPARE m w) as [e1 m1 w1| | |];
      simpl in *; try (split; [done|lia]).
    2:{ by destruct (Hrun1 m0 w0). }
    destruct (executePhase_frame PHASE_SUPERSTEP m1 w1)
      as ((HC2 & _) & Hs2 & Hrun2).
    destruct (executePhase PHASE_SUPERSTEP m1 w1) as [e2 m2 w2| | |];
      simpl in *; try (split; [done|lia]).
    2:{ by destruct (Hrun2 m0 w0). }
    assert (HC : Config m2 = Config m) by congruence.
    assert (HS : superstep (m_jobInfo m2) = superstep (m_jobInfo m))
      by congruence.
    assert (Hstep : ∀ w3,
              (∀ m' w', computeLoop fuel (stepped m2) w3 ≠ Running m' w') ∧
              (superstep (m_jobInfo m)
                 ≤ superstep (m_jobInfo
                     (stateOf (computeLoop fuel (stepped m2) w3)).1)
                 ≤ MaxSteps (Config m))%Z).
    { intros w3.
      assert (Hnext : superstep (m_jobInfo (stepped m2))
                      = (superstep (m_jobInfo m) + 1)%Z).
      { simpl. rewrite HS. apply uint64_small. lia. }
      destruct (IH (stepped m2) w3) as [Hr Hb].
      - simpl. by rewrite HC.
      - rewrite Hnext. simpl. rewrite HC. lia.
      - simpl. by rewrite HC.
      - rewrite Hnext. simpl. rewrite HC. lia.
      - split; [done|]. rewrite Hnext in Hb. simpl in Hb. rewrite HC in Hb.
        lia. }
    destruct (checkpointFn m2 (superstep (m_jobInfo m2))); [|apply Hstep].
    destruct (PersistMaster (persister m2) (superstep (m_jobInfo m2))
                (partitionMap m2)); [|apply Hstep].
    simpl. split; [done|lia].
Qed.

(** X15.  With a limit set, [compute] ends: for [0 < MaxSteps] the loop
    condition is evaluated at most [MaxSteps + 1] times, whatever the
    workers report, so with that much fuel the run returns, panics or
    blocks at a barrier, and is never cut short; and the superstep counter
    ends at [MaxSteps] at most. *)
Theorem compute_stops_within_MaxSteps
    (fuel : nat) (m : Master) (w : World) :
  (0 < MaxSteps (Config m) < GoInt.two64)%Z →
  (MaxSteps (Config m) < Z.of_nat fuel)%Z →
  (∀ m' w', compute fuel m w ≠ Running m' w') ∧
  (0 ≤ superstep (m_jobInfo (stateOf (compute fuel m w)).1)
     ≤ MaxSteps (Config m))%Z.
Proof.
  intros Hmax Hfuel. unfold compute. munfold.
  apply (computeLoop_bounded fuel
           (set_jobInfo (set_superstep 0 (m_jobInfo m)) m) w); simpl; lia.
Qed.

Lemma compute_stops_within_MaxSteps_witness :
  (∀ m' w', compute 2 (limitedMaster 1) twoSupersteps ≠ Running m' w') ∧
  (0 ≤ superstep
         (m_jobInfo (stateOf (compute 2 (limitedMaster 1) twoSupersteps)).1)
     ≤ MaxSteps (Config (limitedMaster 1)))%Z.
Proof.
  apply (compute_stops_within_MaxSteps 2 (limitedMaster 1) twoSupersteps);
    by vm_compute.
Defined.

(** ** Out-edges *)

Lemma at_most_one_split {A} (Q : A → Prop) `{∀ x, Decision (Q x)} (l : list A) :
  length (filter Q l) ≤ 1 →
  Forall (λ x, ¬ Q x) l ∨
  ∃ l1 e l2, l = l1 ++ e :: l2 ∧ Q e ∧
             Forall (λ x, ¬ Q x) l1 ∧ Forall (λ x, ¬ Q x) l2.
Proof.
  induction l as [|x l IH]; intros Hlen; [by left|].
  rewrite filter_cons in Hlen. destruct (decide (Q x)) as [Hq|Hq].
  - right. exists [], x, l. split; [done|]. split; [done|]. split; [done|].
    simpl in Hlen. apply Forall_forall. intros y Hy Hqy.
    assert (y ∈ filter Q l) as Hin by (by apply list_elem_of_filter).
    destruct (filter Q l); [by apply elem_of_nil in Hin|simpl in Hlen; lia].
  - destruct (IH Hlen) as [Hall|(l1 & e & l2 & -> & He & H1 & H2)].
    + left. by constructor.
    + right. exists (x :: l1), e, l2. split; [done|]. split; [done|].
      split; [by constructor|done].
Qed.

Lemma removeOutEdge_once target id l1 e l2 spare active :
  Vertex.Target e = target →
  Forall (λ e, Vertex.Target e ≠ target) l1 →
  Forall (λ e, Vertex.Target e ≠ target) l2 →
  ∃ edges',
    Vertex.removeOutEdge target
      {| Vertex.Id := id;
         Vertex.Edges := {| Vertex.arr := l1 ++ e :: l2 ++ spare;
                            Vertex.len := length l1 + S (length l2) |};
         Vertex.Active := active |}
    = Vertex.Done {| Vertex.Id := id; Vertex.Edges := edges';
                     Vertex.Active := active |} ∧
    Vertex.elems edges' = l1 ++ l2.
Proof.
  intros Ht Hl1 Hl2. rewrite Forall_forall in Hl1, Hl2.
  unfold Vertex.removeOutEdge.
  cbn [Vertex.Edges Vertex.len Vertex.arr Vertex.Id Vertex.Active].
  set (arr := l1 ++ e :: l2 ++ spare).
  assert (Hlen : length arr = length l1 + S (length l2) + length spare).
  { unfold arr. rewrite length_app. simpl. rewrite length_app. lia. }
  rewrite (removeLoop_skip target (length l1) (S (length l2)) 0); cycle 1.
  { lia. }
  { intros j x Hj Hx. apply Hl1. unfold arr in Hx.
    rewrite lookup_app_l in Hx by lia. by eapply list_elem_of_lookup_2. }
  cbn [Vertex.removeLoop Nat.add].
  assert (He : arr !! length l1 = Some e).
  { unfold arr. by rewrite list_lookup_middle. }
  rewrite He, decide_True by done.
  unfold Vertex.sliceTo, Vertex.sliceFrom, Vertex.cap, Vertex.elems.
  cbn [Vertex.arr Vertex.len].
  rewrite decide_True by lia. rewrite decide_True by lia.
  assert (Htake : take (length l1 + S (length l2)) arr = l1 ++ e :: l2).
  { unfold arr.
    replace (l1 ++ e :: l2 ++ spare) with ((l1 ++ e :: l2) ++ spare)
      by (by rewrite <- app_assoc).
    apply take_app_length'. rewrite length_app. simpl. lia. }
  assert (Hback : drop (length l1 + 1) (take (length l1 + S (length l2)) arr) = l2).
  { rewrite Htake. rewrite drop_app_ge by lia.
    replace (length l1 + 1 - length l1) with 1 by lia. done. }
  rewrite Hback. unfold Vertex.append, Vertex.cap. cbn [Vertex.arr Vertex.len].
  rewrite decide_True by lia.
  assert (Hfront : take (length l1) arr = l1).
  { unfold arr. by rewrite take_app_length. }
  rewrite Hfront.
  set (arr' := l1 ++ l2 ++ drop (length l1 + length l2) arr).
  rewrite removeLoop_no_match.
  - eexists. split; [reflexivity|].
    cbn [Vertex.Edges Vertex.arr Vertex.len].
    unfold arr'. rewrite app_assoc. apply take_app_length'.
    by rewrite length_app.
  - cbn [Vertex.arr]. unfold arr'. rewrite !length_app, length_drop. lia.
  - intros j x Hj Hx. cbn [Vertex.arr] in Hx. unfold arr' in Hx.
    rewrite lookup_app_r in Hx by lia.
    destruct (decide (j - length l1 < length l2)) as [Hlt|Hge].
    + rewrite lookup_app_l in Hx by lia. apply Hl2.
      by eapply list_elem_of_lookup_2.
    + rewrite lookup_app_r in Hx by lia. rewrite lookup_drop in Hx.
      unfold arr in Hx. rewrite lookup_app_r in Hx by lia.
      replace (length l1 + length l2 + (j - length l1 - length l2) - length l1)
        with (S (length l2 - 1)) in Hx by lia.
      simpl in Hx. rewrite lookup_app_l in Hx by lia.
      apply Hl2. by eapply list_elem_of_lookup_2.
Qed.

Lemma removeLoop_only_target target n i ranged edges edges' :
  ranged = Vertex.arr edges →
  Vertex.len edges ≤ Vertex.cap edges →
  Vertex.removeLoop target n i ranged edges = Vertex.Done edges' →
  Vertex.elems edges' `sublist_of` Vertex.elems edges ∧
  filter (λ e, Vertex.Target e ≠ target) (Vertex.elems edges')
    = filter (λ e, Vertex.Target e ≠ target) (Vertex.elems edges) ∧
  Vertex.len edges' ≤ Vertex.cap edges' ∧
  Vertex.cap edges' = Vertex.cap edges.
Proof.
  revert i ranged edges. induction n as [|n IH]; intros i ranged edges -> Hwf.
  { simpl. intros [= <-]. done. }
  cbn [Vertex.removeLoop].
  destruct (Vertex.arr edges !! i) as [e|] eqn:He; [|done].
  destruct (decide (Vertex.Target e = target)) as [Ht|Ht]; [|by apply IH].
  unfold Vertex.sliceTo, Vertex.sliceFrom.
  pose proof (lookup_lt_Some _ _ _ He) as Hi. fold (Vertex.cap edges) in Hi.
  rewrite decide_True by lia.
  destruct (decide (i + 1 ≤ Vertex.len edges)) as [Hin|Hout]; [|done].
  unfold Vertex.append, Vertex.cap, Vertex.elems in *.
  cbn [Vertex.arr Vertex.len].
  set (a := Vertex.arr edges) in *. set (k := Vertex.len edges) in *.
  assert (Hback : length (drop (i + 1) (take k a)) = k - (i + 1)).
  { rewrite length_drop, length_take. lia. }
  rewrite Hback, decide_True by lia.
  replace (i + (k - (i + 1))) with (k - 1) by lia.
  set (edges1 := {| Vertex.arr := take i a ++ drop (i + 1) (take k a)
                                    ++ drop (k - 1) a;
                    Vertex.len := k - 1 |}).
  intros Hrun. apply IH in Hrun; [|done|]; cycle 1.
  { unfold edges1, Vertex.cap. cbn [Vertex.arr Vertex.len].
    rewrite !length_app, Hback, length_take, length_drop. lia. }
  destruct Hrun as (Hsub & Hfil & Hwf' & Hcap).
  assert (Hel1 : take (Vertex.len edges1) (Vertex.arr edges1)
                 = take i a ++ drop (i + 1) (take k a)).
  { unfold edges1. cbn [Vertex.arr Vertex.len]. rewrite app_assoc.
    apply take_app_length'. rewrite length_app, Hback, length_take. lia. }
  assert (Hel : take k a = take i a ++ e :: drop (i + 1) (take k a)).
  { rewrite <- (take_drop i (take k a)) at 1. rewrite take_take.
    replace (i `min` k) with i by lia. f_equal.
    replace (i + 1) with (S i) by lia.
    apply drop_S. rewrite lookup_take_lt by lia. done. }
  rewrite Hel1 in Hsub, Hfil. split_and!.
  - etrans; [exact Hsub|]. rewrite Hel at 2.
    apply sublist_app; [done|]. by apply sublist_cons.
  - rewrite Hfil. rewrite Hel at 2. rewrite !filter_app, filter_cons.
    rewrite decide_False; [done|]. intros Hne. by apply Hne.
  - done.
  - rewrite Hcap. unfold edges1. cbn [Vertex.arr].
    rewrite !length_app, Hback, length_take, length_drop. lia.
Qed.

Lemma filter_Forall_id {A} (P : A → Prop) `{∀ x, Decision (P x)} (l : list A) :
  Forall P l → filter P l = l.
Proof.
  induction 1 as [|x l Hx _ IH]; [done|].
  by rewrite filter_cons, decide_True, IH.
Qed.

Lemma filter_Forall_nil {A} (P : A → Prop) `{∀ x, Decision (P x)} (l : list A) :
  Forall (λ x, ¬ P x) l → filter P l = [].
Proof.
  induction 1 as [|x l Hx _ IH]; [done|].
  by rewrite filter_cons, decide_False, IH.
Qed.

Lemma removeOutEdge_at_most_one target v :
  Vertex.len (Vertex.Edges v) ≤ Vertex.cap (Vertex.Edges v) →
  length (filter (λ e, Vertex.Target e = target) (Vertex.OutEdges v)) ≤ 1 →
  ∃ v',
    Vertex.removeOutEdge target v = Vertex.Done v' ∧
    Vertex.OutEdges v'
      = filter (λ e, Vertex.Target e ≠ target) (Vertex.OutEdges v) ∧
    Forall (λ e, Vertex.Target e ≠ target) (Vertex.OutEdges v') ∧
    Vertex.Id v' = Vertex.Id v ∧ Vertex.Active v' = Vertex.Active v.
Proof.
  destruct v as [id [a k] act]. unfold Vertex.OutEdges, Vertex.elems, Vertex.cap.
  cbn [Vertex.Edges Vertex.arr Vertex.len Vertex.Id Vertex.Active].
  intros Hwf Hone.
  destruct (at_most_one_split _ _ Hone)
    as [Hall|(l1 & e & l2 & Hsplit & He & H1 & H2)].
  - assert (Hall' : Forall (λ e, Vertex.Target e ≠ target) (take k a)) by done.
    exists {| Vertex.Id := id; Vertex.Edges := {| Vertex.arr := a; Vertex.len := k |};
              Vertex.Active := act |}.
    unfold Vertex.removeOutEdge.
    cbn [Vertex.Edges Vertex.arr Vertex.len Vertex.Id Vertex.Active].
    rewrite removeLoop_no_match; [|simpl; lia|].
    + rewrite filter_Forall_id by done. done.
    + intros j x Hj Hx. rewrite Forall_forall in Hall'. apply Hall'.
      apply (list_elem_of_lookup_2 _ j). rewrite lookup_take_lt by lia. done.
  - assert (Hk : k = length l1 + S (length l2)).
    { apply (f_equal length) in Hsplit.
      rewrite length_take, length_app in Hsplit. simpl in Hsplit. lia. }
    assert (Ha : a = l1 ++ e :: l2 ++ drop k a).
    { rewrite <- (take_drop k a) at 1. rewrite Hsplit.
      by rewrite <- app_assoc. }
    destruct (removeOutEdge_once target id l1 e l2 (drop k a) act He)
      as (edges' & Hrun & Hel).
    { eapply Forall_impl; [exact H1|]. simpl. intros x Hx. exact Hx. }
    { eapply Forall_impl; [exact H2|]. simpl. intros x Hx. exact Hx. }
    rewrite <- Ha, <- Hk in Hrun. eexists. split; [exact Hrun|].
    cbn [Vertex.Edges Vertex.Id Vertex.Active].
    fold (Vertex.elems edges'). rewrite Hel, Hsplit.
    rewrite filter_app, filter_cons, decide_False by (by intros Hne; apply Hne).
    rewrite !filter_Forall_id by done. split_and!; try done.
    by apply Forall_app.
Qed.

Lemma AddOutEdge_elems e (s : Vertex.slice) :
  Vertex.len s ≤ Vertex.cap s →
  Vertex.elems (Vertex.append s [e]).1 = Vertex.elems s ++ [e] ∧
  Vertex.len (Vertex.append s [e]).1 ≤ Vertex.cap (Vertex.append s [e]).1.
Proof.
  destruct s as [a k]. unfold Vertex.append, Vertex.elems, Vertex.cap.
  cbn [Vertex.arr Vertex.len length]. intros Hwf.
  destruct (decide (k + 1 ≤ length a)) as [Hin|Hout];
    cbn [fst Vertex.arr Vertex.len].
  - split.
    + rewrite app_assoc. apply take_app_length'.
      rewrite length_app, length_take. simpl. lia.
    + rewrite !length_app, length_take, length_drop. simpl. lia.
  - split.
    + apply take_ge. rewrite length_app, length_take. simpl. lia.
    + rewrite length_app, length_take. simpl. lia.
Qed.

(** X16.  When at most one out-edge of the vertex goes to the target,
    [removeOutEdge] does what its name says, whatever room the array of the
    slice has left: it returns, the out-edges are those that do not go to the
    target, in their order, and the identifier and the activity flag of the
    vertex are as before. *)
Theorem removeOutEdge_removes_single_edge
    (target : string) (v : Vertex.VertexBase) :
  sliceOk (Vertex.Edges v) →
  length (edgesTo target (Vertex.OutEdges v)) ≤ 1 →
  ∃ v',
    Vertex.removeOutEdge target v = Vertex.Done v' ∧
    Vertex.OutEdges v' = edgesNotTo target (Vertex.OutEdges v) ∧
    edgesTo target (Vertex.OutEdges v') = [] ∧
    Vertex.Id v' = Vertex.Id v ∧ Vertex.Active v' = Vertex.Active v.
Proof.
  intros Hwf Hone.
  destruct (removeOutEdge_at_most_one target v Hwf Hone)
    as (v' & Hrun & Hout & Hall & Hid & Hact).
  exists v'. split_and!; try done.
  unfold edgesTo. apply filter_Forall_nil.
  eapply Forall_impl; [exact Hall|]. simpl. intros x Hx. exact Hx.
Qed.

Lemma removeOutEdge_removes_single_edge_witness :
  ∃ v',
    Vertex.removeOutEdge "t" roomyVertex = Vertex.Done v' ∧
    Vertex.OutEdges v' = edgesNotTo "t" (Vertex.OutEdges roomyVertex) ∧
    edgesTo "t" (Vertex.OutEdges v') = [] ∧
    Vertex.Id v' = Vertex.Id roomyVertex ∧
    Vertex.Active v' = Vertex.Active roomyVertex.
Proof.
  apply (removeOutEdge_removes_single_edge "t" roomyVertex).
  - unfold sliceOk. vm_compute. lia.
  - vm_compute. lia.
Defined.

(** X17.  Whenever [removeOutEdge] returns, also with several edges to the
    target, it has removed edges to the target only: the edges that do not
    go to the target are all still there, in their order, the edges left
    are a sub-list of the edges before, and the slice keeps its capacity. *)
Theorem removeOutEdge_removes_only_target_edges
    (target : string) (v v' : Vertex.VertexBase) :
  sliceOk (Vertex.Edges v) →
  Vertex.removeOutEdge target v = Vertex.Done v' →
  Vertex.OutEdges v' `sublist_of` Vertex.OutEdges v ∧
  edgesNotTo target (Vertex.OutEdges v')
    = edgesNotTo target (Vertex.OutEdges v) ∧
  sliceOk (Vertex.Edges v') ∧
  Vertex.cap (Vertex.Edges v') = Vertex.cap (Vertex.Edges v) ∧
  Vertex.Id v' = Vertex.Id v ∧ Vertex.Active v' = Vertex.Active v.
Proof.
  intros Hwf. unfold Vertex.removeOutEdge.
  destruct (Vertex.removeLoop target (Vertex.len (Vertex.Edges v)) 0
              (Vertex.arr (Vertex.Edges v)) (Vertex.Edges v))
    as [edges'|msg] eqn:Hloop; [|done].
  intros [= <-]. cbn [Vertex.Edges Vertex.Id Vertex.Active].
  destruct (removeLoop_only_target target _ 0 _ _ _ eq_refl Hwf Hloop)
    as (Hsub & Hfil & Hok & Hcap).
  by split_and!.
Qed.

Lemma removeOutEdge_removes_only_target_edges_witness :
  ∃ v', Vertex.removeOutEdge "t" twoThenOther = Vertex.Done v' ∧
        edgesNotTo "t" (Vertex.OutEdges v')
          = edgesNotTo "t" (Vertex.OutEdges twoThenOther).
Proof.
  assert (Hwf : sliceOk (Vertex.Edges twoThenOther)).
  { unfold sliceOk. vm_compute. lia. }
  destruct (Vertex.removeOutEdge "t" twoThenOther) as [v'|msg] eqn:E.
  - exists v'. split; [reflexivity|].
    exact (proj1 (proj2
             (removeOutEdge_removes_only_target_edges "t" twoThenOther v'
                Hwf E))).
  - vm_compute in E. discriminate E.
Defined.

(** X18.  [AddOutEdge] puts the edge at the end of the out-edges and leaves
    the others, the identifier and the activity flag as they are, whether
    the array has room or a new one is made.  If no edge went to the target
    of the new edge, removing that target again gives back the out-edges
    there were. *)
Theorem AddOutEdge_appends (e : Vertex.Edge) (v : Vertex.VertexBase) :
  sliceOk (Vertex.Edges v) →
  Vertex.OutEdges (Vertex.AddOutEdge e v) = Vertex.OutEdges v ++ [e] ∧
  sliceOk (Vertex.Edges (Vertex.AddOutEdge e v)) ∧
  Vertex.Id (Vertex.AddOutEdge e v) = Vertex.Id v ∧
  Vertex.Active (Vertex.AddOutEdge e v) = Vertex.Active v ∧
  (edgesTo (Vertex.Target e) (Vertex.OutEdges v) = [] →
   ∃ v', Vertex.removeOutEdge (Vertex.Target e) (Vertex.AddOutEdge e v)
           = Vertex.Done v' ∧
         Vertex.OutEdges v' = Vertex.OutEdges v).
Proof.
  intros Hwf. destruct (AddOutEdge_elems e (Vertex.Edges v) Hwf) as [Hel Hok].
  assert (Hout : Vertex.OutEdges (Vertex.AddOutEdge e v)
                 = Vertex.OutEdges v ++ [e]) by exact Hel.
  split_and!; try done.
  intros Hfresh.
  destruct (removeOutEdge_at_most_one (Vertex.Target e) (Vertex.AddOutEdge e v))
    as (v' & Hrun & Hres & _); [exact Hok| |].
  - rewrite Hout, filter_app. unfold edgesTo in Hfresh. rewrite Hfresh.
    rewrite filter_cons, decide_True by done. simpl. lia.
  - exists v'. split; [done|]. rewrite Hres, Hout, filter_app.
    rewrite filter_cons, decide_False by (by intros Hne; apply Hne).
    rewrite filter_nil, app_nil_r. apply filter_Forall_id.
    apply Forall_forall. intros x Hx Heq.
    assert (x ∈ edgesTo (Vertex.Target e) (Vertex.OutEdges v)) as Hin
      by (by apply list_elem_of_filter).
    rewrite Hfresh in Hin. by apply elem_of_nil in Hin.
Qed.

Lemma AddOutEdge_appends_witness :
  Vertex.OutEdges (Vertex.AddOutEdge edgeT2 roomyVertex)
  = Vertex.OutEdges roomyVertex ++ [edgeT2].
Proof.
  assert (Hwf : sliceOk (Vertex.Edges roomyVertex)).
  { unfold sliceOk. vm_compute. lia. }
  exact (proj1 (AddOutEdge_appends edgeT2 roomyVertex Hwf)).
Defined.

(** ** The earlier master *)

Lemma uint64_shift x y k :
  (x = y + k * GoInt.two64)%Z → GoInt.uint64 x = GoInt.uint64 y.
Proof. intros ->. unfold GoInt.uint64. apply Z_mod_plus_full. Qed.

Lemma two64_nonzero : GoInt.two64 ≠ 0%Z.
Proof. unfold GoInt.two64. lia. Qed.

Lemma uint64_idem z : GoInt.uint64 (GoInt.uint64 z) = GoInt.uint64 z.
Proof. unfold GoInt.uint64. apply Zmod_mod. Qed.

Lemma legacyAbsorbed_frame m pss :
  Legacy.workerMap (legacyAbsorbed m pss) = Legacy.workerMap m ∧
  Legacy.partitionMap (legacyAbsorbed m pss) = Legacy.partitionMap m ∧
  Legacy.ConfigJobId (legacyAbsorbed m pss) = Legacy.ConfigJobId m ∧
  Legacy.currPhase (legacyAbsorbed m pss) = Legacy.currPhase m ∧
  Legacy.failedWorkers (legacyAbsorbed m pss) = Legacy.failedWorkers m ∧
  Legacy.recoveryErrors (legacyAbsorbed m pss) = Legacy.recoveryErrors m ∧
  Legacy.superstep (legacyAbsorbed m pss) = Legacy.superstep m ∧
  Legacy.checkpointFn (legacyAbsorbed m pss) = Legacy.checkpointFn m ∧
  Legacy.lastCheckpoint (Legacy.m_jobInfo (legacyAbsorbed m pss))
    = Legacy.lastCheckpoint (Legacy.m_jobInfo m).
Proof.
  revert m. induction pss as [|ps pss IH]; intros m; [done|].
  cbn [legacyAbsorbed foldl]. fold (legacyAbsorbed (Legacy.collectSummaryInfo ps m) pss).
  destruct (IH (Legacy.collectSummaryInfo ps m)) as (?&?&?&?&?&?&?&?&?).
  by split_and!.
Qed.

Lemma legacyAbsorbed_counters m pss :
  let j := Legacy.m_jobInfo m in
  let j' := Legacy.m_jobInfo (legacyAbsorbed m pss) in
  GoInt.uint64 (Legacy.activeVerts j')
    = GoInt.uint64 (Legacy.activeVerts j + legacyTotal Legacy.ActiveVerts pss) ∧
  GoInt.uint64 (Legacy.numVerts j')
    = GoInt.uint64 (Legacy.numVerts j + legacyTotal Legacy.NumVerts pss) ∧
  GoInt.uint64 (Legacy.sentMsgs j')
    = GoInt.uint64 (Legacy.sentMsgs j + legacyTotal Legacy.SentMsgs pss) ∧
  GoInt.uint64 (Legacy.totalSentMsgs j')
    = GoInt.uint64 (Legacy.totalSentMsgs j
                    + Z.of_nat (length pss) * Legacy.sentMsgs j
                    + countedSentMsgs pss) ∧
  (pss ≠ [] →
   GoInt.is_uint64 (Legacy.activeVerts j') ∧
   GoInt.is_uint64 (Legacy.numVerts j') ∧
   GoInt.is_uint64 (Legacy.sentMsgs j') ∧
   GoInt.is_uint64 (Legacy.totalSentMsgs j')).
Proof.
  revert m. induction pss as [|ps pss IH]; intros m.
  { simpl. rewrite !Z.add_0_r. done. }
  cbn [legacyAbsorbed foldl]. fold (legacyAbsorbed (Legacy.collectSummaryInfo ps m) pss).
  destruct (IH (Legacy.collectSummaryInfo ps m)) as (Ha & Hn & Hs & Ht & Hr).
  cbn zeta. rewrite Ha, Hn, Hs, Ht.
  cbn [Legacy.collectSummaryInfo Legacy.set_jobInfo Legacy.m_jobInfo
       Legacy.activeVerts Legacy.numVerts Legacy.sentMsgs Legacy.totalSentMsgs
       legacyTotal foldr countedSentMsgs length].
  fold (legacyTotal Legacy.ActiveVerts pss) (legacyTotal Legacy.NumVerts pss)
       (legacyTotal Legacy.SentMsgs pss).
  split_and!.
  - rewrite uint64_add_l. f_equal. lia.
  - rewrite uint64_add_l. f_equal. lia.
  - rewrite uint64_add_l. f_equal. lia.
  - set (T := Legacy.totalSentMsgs (Legacy.m_jobInfo m)).
    set (s0 := Legacy.sentMsgs (Legacy.m_jobInfo m)).
    set (s1 := Legacy.SentMsgs ps). set (n := Z.of_nat (length pss)).
    set (c := countedSentMsgs pss).
    apply (uint64_shift _ _
             (- (n + 1) * ((s0 + s1) / GoInt.two64)
              - (T + GoInt.uint64 (s0 + s1)) / GoInt.two64)).
    unfold GoInt.uint64.
    rewrite !(Z.mod_eq _ GoInt.two64) by apply two64_nonzero.
    replace (Z.of_nat (S (length pss))) with (n + 1)%Z by lia.
    ring.
  - intros _. destruct pss as [|ps' pss'].
    + simpl. split_and!; apply uint64_range.
    + apply Hr. done.
Qed.

Lemma legacy_barrierLoop_clean bmap m pss rest :
  Forall (legacyClean (Legacy.ConfigJobId m) (Legacy.currPhase m)) pss →
  NoDup (Legacy.WorkerId <$> pss) →
  (∀ ps, ps ∈ pss → Legacy.WorkerId ps ∉ bmap) →
  pss ≠ [] →
  size bmap + length pss = size (Legacy.workerMap m) →
  Legacy.barrierLoop bmap m (pss ++ rest)
    = Legacy.Done (legacyAbsorbed m pss, rest).
Proof.
  revert bmap m. induction pss as [|ps pss IH];
    intros bmap m Hclean Hnd Hfresh Hne Hsize; [done|].
  apply Forall_cons in Hclean as [(Hj & Hp & He) Hclean].
  rewrite fmap_cons in Hnd. apply NoDup_cons in Hnd as [Hnew Hnd].
  cbn [app Legacy.barrierLoop].
  rewrite decide_False by (by intros Hx; apply Hx).
  rewrite decide_False by (by intros Hx; apply Hx).
  rewrite He.
  assert (Hsz : size ({[Legacy.WorkerId ps]} ∪ bmap) = S (size bmap)).
  { rewrite size_union by (specialize (Hfresh ps); set_solver).
    by rewrite size_singleton. }
  rewrite Hsz. cbn [length] in Hsize.
  change (Legacy.workerMap (Legacy.collectSummaryInfo ps m))
    with (Legacy.workerMap m).
  destruct pss as [|ps' pss'].
  - rewrite decide_True by (simpl in Hsize; lia). done.
  - rewrite decide_False by (simpl in Hsize; lia).
    cbn [legacyAbsorbed foldl].
    apply (IH ({[Legacy.WorkerId ps]} ∪ bmap) (Legacy.collectSummaryInfo ps m)).
    + done.
    + done.
    + intros x Hx. apply not_elem_of_union. split.
      * apply not_elem_of_singleton. intros Heq. apply Hnew.
        rewrite <- Heq. apply list_elem_of_fmap. eauto.
      * apply Hfresh. by right.
    + done.
    + rewrite Hsz. simpl in *. lia.
Qed.

(** X19.  The earlier master, in a phase without failed workers in which it
    receives one summary from each of as many distinct workers as
    [workerMap] holds, every one of the job and the phase and without
    error, whoever sent them: [executePhase] returns on the last of them
    and leaves the rest of the channel; the three counters of the phase are
    the [uint64] sums over the summaries; but [totalSentMsgs] has grown by
    the running total of the phase after each summary, so the messages of a
    summary are counted once more for every summary that follows it.  The
    maps of workers and partitions are as before. *)
Theorem legacy_executePhase_counts_running_total
    (orders : list (list string)) (phaseId : Z) (m : Legacy.Master)
    (pss rest : list Legacy.PhaseSummary) :
  Legacy.failedWorkers m = [] →
  Forall (legacyClean (Legacy.ConfigJobId m) phaseId) pss →
  NoDup (Legacy.WorkerId <$> pss) →
  0 < length pss → length pss = size (Legacy.workerMap m) →
  ∃ m',
    Legacy.executePhase orders phaseId m (pss ++ rest) = Legacy.Done (m', rest) ∧
    Legacy.activeVerts (Legacy.m_jobInfo m')
      = GoInt.uint64 (legacyTotal Legacy.ActiveVerts pss) ∧
    Legacy.numVerts (Legacy.m_jobInfo m')
      = GoInt.uint64 (legacyTotal Legacy.NumVerts pss) ∧
    Legacy.sentMsgs (Legacy.m_jobInfo m')
      = GoInt.uint64 (legacyTotal Legacy.SentMsgs pss) ∧
    Legacy.totalSentMsgs (Legacy.m_jobInfo m')
      = GoInt.uint64 (Legacy.totalSentMsgs (Legacy.m_jobInfo m)
                      + countedSentMsgs pss) ∧
    Legacy.workerMap m' = Legacy.workerMap m ∧
    Legacy.partitionMap m' = Legacy.partitionMap m.
Proof.
  intros Hfw Hclean Hnd Hpos Hlen.
  set (m0 := Legacy.resetJobInfo (Legacy.set_currPhase phaseId m)).
  assert (Hb : Legacy.barrier m0 (pss ++ rest)
               = Legacy.Done (legacyAbsorbed m0 pss, rest)).
  { apply legacy_barrierLoop_clean.
    - done.
    - done.
    - intros ps _. apply not_elem_of_empty.
    - intros Hnil. rewrite Hnil in Hpos. simpl in Hpos. lia.
    - rewrite size_empty. simpl. lia. }
  destruct (legacyAbsorbed_frame m0 pss)
    as (Hwm & Hpm & _ & Hcp & Hfw' & _ & Hss & Hcf & _).
  destruct (legacyAbsorbed_counters m0 pss) as (Ha & Hn & Hs & Ht & Hr).
  destruct Hr as (Ra & Rn & Rs & Rt).
  { intros Hnil. rewrite Hnil in Hpos. simpl in Hpos. lia. }
  simpl in Ha, Hn, Hs, Ht. rewrite Z.mul_0_r, Z.add_0_r in Ht.
  rewrite uint64_small in Ha, Hn, Hs, Ht by done.
  set (mf := legacyAbsorbed m0 pss) in *.
  assert (Hcases : ∃ m', Legacy.executePhase orders phaseId m (pss ++ rest)
                         = Legacy.Done (m', rest) ∧
            Legacy.activeVerts (Legacy.m_jobInfo m')
              = Legacy.activeVerts (Legacy.m_jobInfo mf) ∧
            Legacy.numVerts (Legacy.m_jobInfo m')
              = Legacy.numVerts (Legacy.m_jobInfo mf) ∧
            Legacy.sentMsgs (Legacy.m_jobInfo m')
              = Legacy.sentMsgs (Legacy.m_jobInfo mf) ∧
            Legacy.totalSentMsgs (Legacy.m_jobInfo m')
              = Legacy.totalSentMsgs (Legacy.m_jobInfo mf) ∧
            Legacy.workerMap m' = Legacy.workerMap mf ∧
            Legacy.partitionMap m' = Legacy.partitionMap mf).
  { unfold Legacy.executePhase. fold m0. rewrite Hb. fold mf.
    rewrite decide_False by (rewrite Hfw'; simpl; rewrite Hfw; simpl; lia).
    destruct (decide (Legacy.currPhase mf = Legacy.phaseSUPERSTEP));
      [|by eexists].
    destruct (Legacy.checkpointFn mf (Legacy.superstep mf)); by eexists. }
  destruct Hcases as (m' & Hrun & E1 & E2 & E3 & E4 & E5 & E6).
  exists m'. rewrite E1, E2, E3, E4, E5, E6. by split_and!.
Qed.

Lemma legacy_executePhase_counts_running_total_witness :
  ∃ m',
    Legacy.executePhase [] Legacy.phaseSUPERSTEP earlierMaster
      (earlierSummaries ++ []) = Legacy.Done (m', []) ∧
    Legacy.sentMsgs (Legacy.m_jobInfo m') = 7%Z ∧
    Legacy.totalSentMsgs (Legacy.m_jobInfo m') = 10%Z.
Proof.
  destruct (legacy_executePhase_counts_running_total [] Legacy.phaseSUPERSTEP
              earlierMaster earlierSummaries [])
    as (m' & Hrun & _ & _ & Hs & Ht & _).
  - reflexivity.
  - apply (bool_decide_unpack _). vm_compute. exact I.
  - apply (bool_decide_unpack _). vm_compute. exact I.
  - simpl. lia.
  - vm_compute. reflexivity.
  - exists m'. split; [exact Hrun|]. split.
    + rewrite Hs. vm_compute. reflexivity.
    + rewrite Ht. vm_compute. reflexivity.
Defined.

(** ** The topology at the start of a run *)

Lemma markWorkerFailed_topology hp msg m :
  topologyOk m → topologyOk (markWorkerFailed hp msg m).1.
Proof.
  intros [Hwf Hown].
  destruct (markWorkerFailed_frame hp msg m) as (_ & Hpm & Hdom).
  split; [by apply markWorkerFailed_wfPool|].
  intros Hne. rewrite Hpm.
  assert (workerPool m ≠ ∅) as Hne0.
  { intros He. apply Hne. apply dom_empty_iff_L.
    by rewrite Hdom, He, dom_empty_L. }
  intros pid wid Hl. apply elem_of_dom. rewrite Hdom. apply elem_of_dom.
  by apply (Hown Hne0 pid wid).
Qed.

(** X20.  The topology is sound from the start of a run.  When
    [registerWorkers] has returned, [determinePartitions] returns as well
    and leaves the pool that registration built, with every record under
    its host and port and every partition owned by a worker of the pool;
    and marking a worker failed, which is all that [pushTopology] does to
    the master, keeps that. *)
Theorem topology_sound_after_assignment
    (fuel : nat) (m : Master) (w : World)
    (r : option error) (m1 : Master) (w1 : World) :
  registerWorkers fuel m w = Ret r m1 w1 →
  ∃ m2 w2,
    determinePartitions m1 w1 = Ret tt m2 w2 ∧
    workerPool m2 = workerPool m1 ∧
    topologyOk m2 ∧
    ownersIn (partitionMap m2) (workerPool m2) ∧
    ∀ hp msg, topologyOk (markWorkerFailed hp msg m2).1.
Proof.
  intros Hreg. pose proof (registerWorkers_wfPool _ _ _ _ _ _ Hreg) as Hwf.
  unfold determinePartitions. munfold. simpl.
  destruct (assignPasses_any
              (Z.to_nat (GoInt.int64 (MinPartitionsPerWorker (Config m1)))) 0
              (set_partitionMap ∅ m1) w1)
    as (m2 & w2 & Hrun & _ & Hpool & Hown & _);
    [apply map_Forall_empty|apply map_Forall_empty|].
  simpl in Hpool, Hown.
  assert (Hok : topologyOk m2) by (split; by rewrite Hpool).
  exists m2, w2. split; [done|]. rewrite Hpool. split_and!; try done.
  intros hp msg. by apply markWorkerFailed_topology.
Qed.

Lemma topology_sound_after_assignment_witness :
  ∃ r m1 w1 m2 w2,
    registerWorkers 5 patientMaster threeSeconds = Ret r m1 w1 ∧
    determinePartitions m1 w1 = Ret tt m2 w2 ∧
    topologyOk m2.
Proof.
  destruct (registerWorkers 5 patientMaster threeSeconds)
    as [r m1 w1|msg m1 w1|m1 w1|m1 w1] eqn:E.
  - destruct (topology_sound_after_assignment 5 patientMaster threeSeconds
                r m1 w1 E) as (m2 & w2 & Hrun & _ & Hok & _).
    exists r, m1, w1, m2, w2. split; [reflexivity|]. split; [exact Hrun|].
    exact Hok.
  - vm_compute in E. discriminate E.
  - vm_compute in E. discriminate E.
  - vm_compute in E. discriminate E.
Defined.
